(** * libfacerec: the discriminant subspace engine and its matrix helpers

    A shallow embedding of [include/helper.hpp] (remove_dups,
    impl::isSymmetric, cv::argsort, cv::sortMatrixByColumn,
    cv::sortMatrixByRow, cv::asRowMatrix, cv::asColumnMatrix,
    cv::transpose), of [include/subspace.hpp] (subspace::project,
    subspace::reconstruct, class subspace::LDA) and of impl::olbp of
    [include/lbp.hpp].

    Conventions of the embedding.
    - The element type [double] is a type [T] with the operations of the
      class [Scalar]; no algebraic law is assumed unless a theorem names
      it as a premise.  Two instances are given: IEEE binary64 through
      Rocq's primitive floats, and the rationals.
    - A [cv::Mat] is a header (rows, cols, channels) with an accessor for
      its cells.  All matrices have depth CV_64F, so [convertTo] with only
      a type argument is the identity.  Matrices are continuous.  Where a
      function is instantiated at an integer element type, its matrices
      are [Mat Z].
    - [CV_Error] and [CV_Assert] raise a C++ exception: fallible operations
      return a [result].  Member functions of [LDA] thread the instance
      explicitly and return the instance as it is left when the call
      returns or throws.
    - OpenCV itself is an external library; its primitives are modelled
      from its documented behaviour (section "OpenCV primitives"): the
      arguments a call site passes are arguments of the model, default
      arguments that are neutral (a shift of 0, a scale of 1, no delta)
      are left out.
    - [Mat::inv] and the [EigenvalueDecomposition] of decomposition.hpp
      are not part of the embedded sources; [compute] takes them as the
      fields of a record [External].
    - Console output (the N < D warning) is not part of the model. *)

From Stdlib Require Import List ZArith Lia Bool PeanoNat Sorted Permutation.
From Stdlib Require Import QArith PrimFloat Uint63.
From Stdlib Require Import SpecFloat FloatOps FloatAxioms.
Import ListNotations.

Set Implicit Arguments.
Local Open Scope nat_scope.

(* ================================================================== *)
(** * Errors *)

(** The OpenCV status codes the modelled code can raise. *)
Inductive CvError : Type :=
| StsBadArg          (* CV_StsBadArg: CV_Error(CV_StsBadArg, ...) *)
| StsAssert          (* CV_StsAssert: a failed CV_Assert *)
| StsOutOfRange      (* CV_StsOutOfRange *)
| StsUnmatchedSizes  (* CV_StsUnmatchedSizes *)
| StsUnsupported.    (* an input outside what the model covers *)

Inductive result (A : Type) : Type :=
| Ok (a : A)
| Err (e : CvError).
Arguments Ok {A} a.
Arguments Err {A} e.

Definition bind {A B : Type} (r : result A) (k : A -> result B) : result B :=
  match r with
  | Ok a => k a
  | Err e => Err e
  end.

Notation "x <- c ;; k" := (bind c (fun x => k))
  (at level 61, c at next level, right associativity).

Definition is_ok {A : Type} (r : result A) : bool :=
  match r with Ok _ => true | Err _ => false end.

(* ================================================================== *)
(** * Scalars *)

Class Scalar (T : Type) : Type := {
  fzero : T;
  fone : T;
  fadd : T -> T -> T;
  fsub : T -> T -> T;
  fmul : T -> T -> T;
  fdiv : T -> T -> T;
  of_int : Z -> T;            (* static_cast<double>(int) *)
  flt : T -> T -> bool        (* operator< *)
}.

(** IEEE binary64, the [double] of the source. *)
Definition float_of_int (z : Z) : float :=
  if (z <? 0)%Z
  then PrimFloat.opp (PrimFloat.of_uint63 (Uint63.of_Z (- z)))
  else PrimFloat.of_uint63 (Uint63.of_Z z).

#[export] Instance Scalar_float : Scalar float := {
  fzero := PrimFloat.zero;
  fone := PrimFloat.one;
  fadd := PrimFloat.add;
  fsub := PrimFloat.sub;
  fmul := PrimFloat.mul;
  fdiv := PrimFloat.div;
  of_int := float_of_int;
  flt := PrimFloat.ltb
}.

(** Exact rational arithmetic, an idealised [double]. *)
#[export] Instance Scalar_Q : Scalar Q := {
  fzero := 0%Q;
  fone := 1%Q;
  fadd := Qplus;
  fsub := Qminus;
  fmul := Qmult;
  fdiv := Qdiv;
  of_int := inject_Z;
  flt := fun x y => negb (Qle_bool y x)
}.

(* ================================================================== *)
(** * remove_dups (helper.hpp) *)

(** [std::set<int>::insert]: the set is kept as its in-order traversal,
    strictly increasing; two keys are the same when neither is less. *)
Fixpoint set_insert (x : Z) (s : list Z) : list Z :=
  match s with
  | [] => [x]
  | y :: t =>
      if (x <? y)%Z then x :: y :: t
      else if (y <? x)%Z then y :: set_insert x t
      else y :: t
  end.

(** [vector::push_back]. *)
Definition push_back {A : Type} (v : list A) (x : A) : list A := v ++ [x].

(** [remove_dups<int>]: first loop fills the set, second loop copies the
    set, in iteration order, to a vector. *)
Definition remove_dups (src : list Z) : list Z :=
  let set_elems := fold_left (fun s x => set_insert x s) src [] in
  fold_left push_back set_elems [].

(* ================================================================== *)
(** * Matrices *)

Section Matrices.

Context {T : Type} {ST : Scalar T}.

(** [cv::Mat]: header and cells.  [mat_at m i j] is the cell at row [i],
    column [j]; it is meaningful for [i < rows m] and [j < cols m]. *)
Record Mat : Type := mkMat {
  rows : nat;
  cols : nat;
  channels : nat;
  mat_at : nat -> nat -> T
}.

(** [Mat()]: no rows, no columns; [channels()] of an empty header is 1. *)
Definition Mat_empty : Mat := mkMat 0 0 1 (fun _ _ => fzero).

(** [Mat::total()]. *)
Definition total (m : Mat) : nat := rows m * cols m.

(** [Mat::empty()]. *)
Definition empty (m : Mat) : bool := total m =? 0.

(** [Mat::zeros(r, c, CV_64FC1)]. *)
Definition Mat_zeros (r c : nat) : Mat := mkMat r c 1 (fun _ _ => fzero).

(** [(Mat_<double>(1, n) << x0, x1, ...)]: a single-channel row. *)
Definition Mat_row (l : list T) : Mat :=
  mkMat 1 (length l) 1 (fun _ j => nth j l fzero).

(** [(Mat_<double>(r, c) << ...)] from the list of its rows. *)
Definition Mat_of_rows (c : nat) (l : list (list T)) : Mat :=
  mkMat (length l) c 1 (fun i j => nth j (nth i l []) fzero).

(** The cells of a matrix, row by row. *)
Definition row_list (m : Mat) (i : nat) : list T :=
  map (mat_at m i) (seq 0 (cols m)).

Definition to_lists (m : Mat) : list (list T) :=
  map (row_list m) (seq 0 (rows m)).

(** The cells of a result, for display. *)
Definition cells (r : result Mat) : result (list (list T)) :=
  m <- r ;; Ok (to_lists m).

(* ------------------------------------------------------------------ *)
(** ** OpenCV primitives *)

(** [cv::transpose(src, dst)]. *)
Definition cv_transpose (src : Mat) : Mat :=
  mkMat (cols src) (rows src) (channels src) (fun i j => mat_at src j i).

(** [helper.hpp: cv::transpose(const Mat&)], the value-returning wrapper. *)
Definition transpose (src : Mat) : Mat := cv_transpose src.

(** [m.reshape(1, 1)]: one channel, one row.  A matrix that already has
    one row keeps its header; otherwise the cells are laid out row after
    row, and OpenCV refuses ("Bad new number of rows") when there is no
    cell at all.  Splitting the cells of a multi-channel matrix into
    channels is outside the model. *)
Definition reshape_1_1 (m : Mat) : result Mat :=
  if negb (channels m =? 1) then Err StsUnsupported
  else if rows m =? 1 then Ok m
  else if total m =? 0 then Err StsOutOfRange
  else Ok (mkMat 1 (total m) 1
             (fun _ j => mat_at m (j / cols m) (j mod cols m))).

(** [cv::repeat(src, ny, nx)]. *)
Definition repeat (src : Mat) (ny nx : nat) : Mat :=
  mkMat (rows src * ny) (cols src * nx) (channels src)
        (fun i j => mat_at src (i mod rows src) (j mod cols src)).

(** [Mat(m, Range::all(), Range(a, b))]: the constructor asserts
    [0 <= a <= b <= m.cols]. *)
Definition colRange (m : Mat) (a b : Z) : result Mat :=
  if ((0 <=? a)%Z && (a <=? b)%Z && (b <=? Z.of_nat (cols m))%Z)%bool
  then Ok (mkMat (rows m) (Z.to_nat (b - a)) (channels m)
             (fun i j => mat_at m i (Z.to_nat a + j)))
  else Err StsAssert.

(** [m.col(x)] is [Mat(m, Range::all(), Range(x, x+1))]. *)
Definition col (m : Mat) (x : Z) : result Mat := colRange m x (x + 1).

(** [m.row(i)] for an index the caller keeps below [m.rows]. *)
Definition row (m : Mat) (i : nat) : Mat :=
  mkMat 1 (cols m) (channels m) (fun _ j => mat_at m i j).

(** [src.copyTo(view)] where [view] is column [idx] of [dst] and [src] has
    one column of the same height: the cells of that column are
    overwritten in [dst]. *)
Definition copyTo_col (src : Mat) (dst : Mat) (idx : nat) : Mat :=
  mkMat (rows dst) (cols dst) (channels dst)
        (fun i j => if j =? idx then mat_at src i 0 else mat_at dst i j).

(** [dst.create(r, c, type)] on an empty header: fresh storage whose
    cells hold whatever the allocator returned, given as [junk]. *)
Definition create (r c ch : nat) (junk : nat -> nat -> T) : Mat :=
  mkMat r c ch junk.

(** Sum of products along the inner dimension, accumulated from zero. *)
Definition dot (A B : Mat) (i j : nat) : T :=
  fold_left (fun acc l => fadd acc (fmul (mat_at A i l) (mat_at B l j)))
            (seq 0 (cols A)) fzero.

(** [cv::gemm(A, B, alpha, C, beta, dst, flags)] with [flags] either 0 or
    GEMM_2_T: dst = alpha * A * op(B) + beta * C, the last term only
    when [C] is not empty.  The types must agree and be floating point,
    the inner dimensions must agree and a non-empty [C] must have the
    size of the result.  The complex (two-channel) product is outside the
    model. *)
Definition gemm (A B : Mat) (alpha : T) (C : Mat) (beta : T)
    (gemm_2_t : bool) : result Mat :=
  let B' := if gemm_2_t then cv_transpose B else B in
  if negb ((channels A =? 1) && (channels B =? 1)) then Err StsAssert
  else if negb (cols A =? rows B') then Err StsAssert
  else if empty C then
    Ok (mkMat (rows A) (cols B') 1 (fun i j => fmul alpha (dot A B' i j)))
  else if (channels C =? 1) && (rows C =? rows A) && (cols C =? cols B')
  then
    Ok (mkMat (rows A) (cols B') 1
          (fun i j => fadd (fmul alpha (dot A B' i j))
                           (fmul beta (mat_at C i j))))
  else Err StsAssert.

(** [cv::subtract(a, b, dst)] and [cv::add(a, b, dst)] on two arrays:
    same size and same number of channels, or an error. *)
Definition same_shape (a b : Mat) : bool :=
  (rows a =? rows b) && (cols a =? cols b) && (channels a =? channels b).

Definition subtract (a b : Mat) : result Mat :=
  if same_shape a b
  then Ok (mkMat (rows a) (cols a) (channels a)
             (fun i j => fsub (mat_at a i j) (mat_at b i j)))
  else Err StsUnmatchedSizes.

Definition cv_add (a b : Mat) : result Mat :=
  if same_shape a b
  then Ok (mkMat (rows a) (cols a) (channels a)
             (fun i j => fadd (mat_at a i j) (mat_at b i j)))
  else Err StsUnmatchedSizes.

(** [m.convertTo(m, m.type(), alpha)]: every cell times [alpha]. *)
Definition convertTo_scale (m : Mat) (alpha : T) : Mat :=
  mkMat (rows m) (cols m) (channels m) (fun i j => fmul (mat_at m i j) alpha).

(** [cv::mulTransposed(src, dst, true)]: dst = src^T * src, for a
    single-channel [src]. *)
Definition mulTransposed_aTa (src : Mat) : result Mat :=
  if channels src =? 1
  then Ok (mkMat (cols src) (cols src) 1
             (fun i j => dot (cv_transpose src) src i j))
  else Err StsAssert.

(** [std::sort(first, last, less)], as a stable insertion sort: the
    standard leaves the order of equivalent elements open. *)
Fixpoint insert_by {A : Type} (less : A -> A -> bool) (x : A) (l : list A)
  : list A :=
  match l with
  | [] => [x]
  | y :: t => if less y x then y :: insert_by less x t else x :: y :: t
  end.

Fixpoint std_sort {A : Type} (less : A -> A -> bool) (l : list A) : list A :=
  match l with
  | [] => []
  | x :: t => insert_by less x (std_sort less t)
  end.

(** [cv::sortIdx(src, dst, CV_SORT_EVERY_ROW + direction)] on a single
    row: the indices 0..n-1 are sorted with the comparison
    [vals[a] < vals[b]], then the index row is reversed when the
    direction is descending. *)
Definition sortIdx_row (vals : list T) (descending : bool) : list Z :=
  let less := fun a b => flt (nth a vals fzero) (nth b vals fzero) in
  let iptr := std_sort less (seq 0 (length vals)) in
  map Z.of_nat (if descending then rev iptr else iptr).

(* ------------------------------------------------------------------ *)
(** ** helper.hpp *)

(** [cv::argsort(src, ascending)].  The index matrix it returns (one row
    of CV_32S) is given as the list of its entries, which is what the
    caller's conversion to [vector<int>] yields. *)
Definition argsort (src : Mat) (ascending : bool) : result (list Z) :=
  if negb (rows src =? 1) && negb (cols src =? 1) then Err StsBadArg
  else
    r <- reshape_1_1 src ;;
    Ok (sortIdx_row (row_list r 0) (negb ascending)).

(** The loop of [cv::sortMatrixByColumn(src, dst, indices)], from [idx]
    on. *)
Fixpoint sortMatrixByColumn_loop (src : Mat) (indices : list Z) (idx : nat)
    (dst : Mat) : result Mat :=
  match indices with
  | [] => Ok dst
  | x :: rest =>
      originalCol <- col src x ;;
      _ <- col dst (Z.of_nat idx) ;;
      sortMatrixByColumn_loop src rest (S idx) (copyTo_col originalCol dst idx)
  end.

(** [cv::sortMatrixByColumn(src, indices)]; [junk] is the content of the
    storage that [dst.create] obtains. *)
Definition sortMatrixByColumn (src : Mat) (indices : list Z)
    (junk : nat -> nat -> T) : result Mat :=
  let dst := create (rows src) (cols src) (channels src) junk in
  sortMatrixByColumn_loop src indices 0 dst.

End Matrices.

Arguments Mat T : clear implicits.

(* ================================================================== *)
(** * subspace.hpp *)

Section Subspace.

Context {T : Type} {ST : Scalar T}.

(** [subspace::project(W, mean, src)]. *)
Definition project (W mean src : Mat T) : result (Mat T) :=
  let X := src in                       (* src.convertTo(X, W.type()) *)
  let n := rows X in
  let d := cols X in
  X <- (if total mean =? d
        then (m <- reshape_1_1 mean ;; subtract X (repeat m n 1))
        else Ok X) ;;
  gemm X W fone Mat_empty fzero false.

(** [subspace::reconstruct(W, mean, src)].  [d] is the column count of
    [src], the coefficient matrix. *)
Definition reconstruct (W mean src : Mat T) : result (Mat T) :=
  let n := rows src in
  let d := cols src in
  let Y := src in                       (* src.convertTo(Y, W.type()) *)
  C <- (if d =? total mean
        then (m <- reshape_1_1 mean ;; Ok (repeat m n 1))
        else Ok Mat_empty) ;;
  gemm Y W fone C (if d =? total mean then fone else fzero) true.

(* ------------------------------------------------------------------ *)
(** ** class LDA *)

Record LDA : Type := mkLDA {
  _dataAsRow : bool;
  _num_components : Z;          (* int *)
  _eigenvectors : Mat T;
  _eigenvalues : Mat T
}.

(** [LDA(int num_components = 0, bool dataAsRow = true)]. *)
Definition LDA_new (num_components : Z) (dataAsRow : bool) : LDA :=
  mkLDA dataAsRow num_components Mat_empty Mat_empty.

(** A member function: it receives the instance and returns the instance
    as the call leaves it, together with its value or the exception. *)
Definition Method (A : Type) : Type := LDA -> LDA * result A.

Definition m_ret {A : Type} (a : A) : Method A := fun this => (this, Ok a).

Definition m_bind {A B : Type} (c : Method A) (k : A -> Method B)
  : Method B :=
  fun this =>
    match c this with
    | (this', Ok a) => k a this'
    | (this', Err e) => (this', Err e)
    end.

Definition m_lift {A : Type} (r : result A) : Method A :=
  fun this => (this, r).

Definition CV_Error {A : Type} (e : CvError) : Method A :=
  fun this => (this, Err e).

Definition m_get : Method LDA := fun this => (this, Ok this).

Definition set_num_components (n : Z) : Method unit :=
  fun this =>
    (mkLDA (_dataAsRow this) n (_eigenvectors this) (_eigenvalues this),
     Ok tt).

Definition set_eigenvalues (m : Mat T) : Method unit :=
  fun this =>
    (mkLDA (_dataAsRow this) (_num_components this) (_eigenvectors this) m,
     Ok tt).

Definition set_eigenvectors (m : Mat T) : Method unit :=
  fun this =>
    (mkLDA (_dataAsRow this) (_num_components this) m (_eigenvalues this),
     Ok tt).

Notation "x <~ c ;; k" := (m_bind c (fun x => k))
  (at level 61, c at next level, right associativity).

(** [for (int i = 0; i < n; i++) body], over a loop state, stopping at the
    first exception. *)
Definition for_loop {S : Type} (n : nat) (body : S -> nat -> result S)
    (s0 : S) : result S :=
  fold_left (fun acc i => s <- acc ;; body s i) (seq 0 n) (Ok s0).

(** [a[k] = v] on an array held as a list. *)
Fixpoint list_set {A : Type} (k : nat) (v : A) (l : list A) : list A :=
  match l, k with
  | [], _ => []
  | _ :: t, 0 => v :: t
  | x :: t, S k' => x :: list_set k' v t
  end.

(** [std::map<int,int>]: [m[k] = v] and the read [m[k]], which yields
    the value-initialised 0 for an absent key. *)
Fixpoint map_set (m : list (Z * Z)) (k v : Z) : list (Z * Z) :=
  match m with
  | [] => [(k, v)]
  | (k', v') :: t =>
      if (k' =? k)%Z then (k, v) :: t else (k', v') :: map_set t k v
  end.

Fixpoint map_get (m : list (Z * Z)) (k : Z) : Z :=
  match m with
  | [] => 0%Z
  | (k', v') :: t => if (k' =? k)%Z then v' else map_get t k
  end.

(** The label mapping of [compute]: [label2num[num2label[i]] = i], then
    [mapped_labels[i] = label2num[labels[i]]]. *)
Definition label2num_of (num2label : list Z) : list (Z * Z) :=
  fold_left (fun m i => map_set m (nth i num2label 0%Z) (Z.of_nat i))
            (seq 0 (length num2label)) [].

Definition mapped_labels_of (labels : list Z) : list Z :=
  let num2label := remove_dups labels in
  let label2num := label2num_of num2label in
  map (fun l => map_get label2num l) labels.

(** [data.row(i)] is a view: writing through it changes [data]. *)
Definition set_row (data : Mat T) (i : nat) (r : Mat T) : Mat T :=
  mkMat (rows data) (cols data) (channels data)
        (fun i' j => if i' =? i then mat_at r 0 j else mat_at data i' j).

(** The class statistics: [meanTotal], [meanClass[C]], [numClass[C]]. *)
Record Stats : Type := mkStats {
  meanTotal : Mat T;
  meanClass : list (Mat T);
  numClass : list Z
}.

(** "initialize": the arrays of [C] zero rows and [C] zero counts, and
    the zero [meanTotal]. *)
Definition stats_init (C D : nat) : Stats :=
  mkStats (Mat_zeros 1 D) (List.repeat (Mat_zeros 1 D) C) (List.repeat 0%Z C).

(** "calculate sums": one turn of the loop over the samples. *)
Definition sums_body (data : Mat T) (mapped_labels : list Z) (st : Stats)
    (i : nat) : result Stats :=
  let instance := row data i in
  let classIdx := Z.to_nat (nth i mapped_labels 0%Z) in
  mt <- cv_add (meanTotal st) instance ;;
  mc <- cv_add (nth classIdx (meanClass st) Mat_empty) instance ;;
  Ok (mkStats mt
        (list_set classIdx mc (meanClass st))
        (list_set classIdx (nth classIdx (numClass st) 0 + 1)%Z (numClass st))).

(** "calculate means": [meanTotal] times 1/N, every [meanClass[i]] times
    1/numClass[i]. *)
Definition means_body (st : Stats) (i : nat) : result Stats :=
  Ok (mkStats (meanTotal st)
        (list_set i
           (convertTo_scale (nth i (meanClass st) Mat_empty)
              (fdiv fone (of_int (nth i (numClass st) 0%Z))))
           (meanClass st))
        (numClass st)).

Definition class_statistics (data : Mat T) (mapped_labels : list Z)
    (N D C : nat) : result Stats :=
  st <- for_loop N (sums_body data mapped_labels) (stats_init C D) ;;
  let st := mkStats (convertTo_scale (meanTotal st)
                       (fdiv fone (of_int (Z.of_nat N))))
                    (meanClass st) (numClass st) in
  for_loop C means_body st.

(** "subtract class means": one turn, writing through the row view. *)
Definition center_body (mapped_labels : list Z) (st : Stats)
    (data : Mat T) (i : nat) : result (Mat T) :=
  let classIdx := Z.to_nat (nth i mapped_labels 0%Z) in
  let instance := row data i in
  r <- subtract instance (nth classIdx (meanClass st) Mat_empty) ;;
  Ok (set_row data i r).

(** "calculate between-classes scatter": one turn. *)
Definition Sb_body (st : Stats) (Sb : Mat T) (i : nat) : result (Mat T) :=
  tmp <- subtract (nth i (meanClass st) Mat_empty) (meanTotal st) ;;
  tmp <- mulTransposed_aTa tmp ;;
  cv_add Sb tmp.

Definition between_scatter (st : Stats) (D C : nat) : result (Mat T) :=
  for_loop C (Sb_body st) (Mat_zeros D D).

(** What [compute] takes from outside: [Mat::inv] of OpenCV, the
    [EigenvalueDecomposition] of decomposition.hpp (its [eigenvalues()]
    and [eigenvectors()] for a square matrix, in no particular order,
    both CV_64FC1), and the contents of the two buffers that
    [sortMatrixByColumn] allocates, the first and the second. *)
Record External : Type := mkExternal {
  ext_inv : Mat T -> Mat T;
  ext_eigen : Mat T -> Mat T * Mat T;
  ext_alloc : nat -> nat -> nat -> T
}.

(** The clipping of the component count, on [int]s: the counts involved
    are bounded by the number of labels, so nothing wraps. *)
Definition clip_components (num_components : Z) (C : nat) : Z :=
  if ((num_components <=? 0)%Z || (num_components >? Z.of_nat C - 1)%Z)%bool
  then (Z.of_nat C - 1)%Z
  else num_components.

(** The scatter matrices [(Sw, Sb)] of [compute], from the oriented data
    and the labels. *)
Definition scatter (data : Mat T) (labels : list Z) : result (Mat T * Mat T) :=
  let mapped_labels := mapped_labels_of labels in
  let N := rows data in
  let D := cols data in
  let C := length (remove_dups labels) in
  st <- class_statistics data mapped_labels N D C ;;
  data <- for_loop N (center_body mapped_labels st) data ;;
  Sw <- mulTransposed_aTa data ;;
  Sb <- between_scatter st D C ;;
  Ok (Sw, Sb).

(** [LDA::compute(const Mat& src, const vector<int>& labels)]. *)
Definition compute (E : External) (src : Mat T) (labels : list Z)
  : Method unit :=
  this <~ m_get ;;
  if negb (channels src =? 1) then CV_Error StsBadArg else
  let data := if _dataAsRow this then src else transpose src in
  let num2label := remove_dups labels in
  let N := rows data in
  let C := length num2label in
  if negb (length labels =? N) then CV_Error StsBadArg else
  _ <~ set_num_components (clip_components (_num_components this) C) ;;
  S <~ m_lift (scatter data labels) ;;
  let Swi := ext_inv E (fst S) in
  M <~ m_lift (gemm Swi (snd S) fone Mat_empty fzero false) ;;
  let es := ext_eigen E M in
  _ <~ set_eigenvalues (fst es) ;;
  _ <~ set_eigenvectors (snd es) ;;
  this <~ m_get ;;
  ev <~ m_lift (reshape_1_1 (_eigenvalues this)) ;;
  _ <~ set_eigenvalues ev ;;
  this <~ m_get ;;
  sorted_indices <~ m_lift (argsort (_eigenvalues this) false) ;;
  ev <~ m_lift (sortMatrixByColumn (_eigenvalues this) sorted_indices
                  (ext_alloc E 0)) ;;
  _ <~ set_eigenvalues ev ;;
  this <~ m_get ;;
  evec <~ m_lift (sortMatrixByColumn (_eigenvectors this) sorted_indices
                    (ext_alloc E 1)) ;;
  _ <~ set_eigenvectors evec ;;
  this <~ m_get ;;
  ev <~ m_lift (colRange (_eigenvalues this) 0 (_num_components this)) ;;
  _ <~ set_eigenvalues ev ;;
  this <~ m_get ;;
  evec <~ m_lift (colRange (_eigenvectors this) 0 (_num_components this)) ;;
  set_eigenvectors evec.

(** [LDA::project(const Mat& src)]. *)
Definition LDA_project (src : Mat T) : Method (Mat T) :=
  this <~ m_get ;;
  m_lift (project (_eigenvectors this) Mat_empty
            (if _dataAsRow this then src else transpose src)).

(** [LDA::reconstruct(const Mat& src)]. *)
Definition LDA_reconstruct (src : Mat T) : Method (Mat T) :=
  this <~ m_get ;;
  m_lift (reconstruct (_eigenvectors this) Mat_empty
            (if _dataAsRow this then src else transpose src)).

(** [LDA::eigenvectors()] and [LDA::eigenvalues()]. *)
Definition LDA_eigenvectors : Method (Mat T) :=
  this <~ m_get ;; m_ret (_eigenvectors this).

Definition LDA_eigenvalues : Method (Mat T) :=
  this <~ m_get ;; m_ret (_eigenvalues this).

End Subspace.

Arguments LDA T : clear implicits.
Arguments Stats T : clear implicits.
Arguments External T : clear implicits.
Arguments Method T A : clear implicits.

Notation "x <~ c ;; k" := (m_bind c (fun x => k))
  (at level 61, c at next level, right associativity).

(* ================================================================== *)
(** * Reference instances used to run the model *)

(** A solver that is exact on diagonal matrices, in particular whenever
    the feature dimension is 1: the inverse takes the reciprocals of the
    diagonal, the eigenvalues are the diagonal (as a row) and the
    eigenvectors are the unit vectors.  Fresh buffers hold zeros. *)
Definition External_diag {T : Type} {ST : Scalar T} : External T :=
  mkExternal
    (fun m => mkMat (rows m) (cols m) 1
                (fun i j => if i =? j then fdiv fone (mat_at m i i) else fzero))
    (fun m => (mkMat 1 (rows m) 1 (fun _ j => mat_at m j j),
               mkMat (rows m) (rows m) 1
                 (fun i j => if i =? j then fone else fzero)))
    (fun _ _ _ => fzero).

(* ================================================================== *)
(** * Vocabulary of the statements *)

Section Vocabulary.

Context {T : Type} {ST : Scalar T}.

(** The sample matrix as [compute], [project] and [reconstruct] use it:
    [_dataAsRow ? src : transpose(src)]. *)
Definition oriented (this : LDA T) (src : Mat T) : Mat T :=
  if _dataAsRow this then src else transpose src.

(** The calls a client can make on an instance between two [compute]s. *)
Inductive Call : Type :=
| CallProject (src : Mat T)
| CallReconstruct (src : Mat T)
| CallEigenvectors
| CallEigenvalues.

(** The instance after one such call, whether it returned or threw. *)
Definition after_call (this : LDA T) (c : Call) : LDA T :=
  match c with
  | CallProject src => fst (LDA_project src this)
  | CallReconstruct src => fst (LDA_reconstruct src this)
  | CallEigenvectors => fst (LDA_eigenvectors this)
  | CallEigenvalues => fst (LDA_eigenvalues this)
  end.

Definition after_calls (this : LDA T) (cs : list Call) : LDA T :=
  fold_left after_call cs this.

(** A row of scalars in which no entry is less than its successor. *)
Definition non_increasing (l : list T) : Prop :=
  Sorted (fun a b => flt a b = false) l.

(** The same between any two positions. *)
Definition strongly_non_increasing (l : list T) : Prop :=
  StronglySorted (fun a b => flt a b = false) l.

(** What [compute] relies on from [Mat::inv] and from the eigenvalue
    decomposition: the inverse has the shape of its single-channel
    argument, and a square matrix of size n has n eigenvalues, in one
    channel, and an eigenvector matrix with n columns. *)
Definition solver_ok (E : External T) : Prop :=
  (forall m, rows (ext_inv E m) = rows m /\
             cols (ext_inv E m) = cols m /\
             channels (ext_inv E m) = 1) /\
  (forall m, rows m = cols m ->
             channels (fst (ext_eigen E m)) = 1 /\
             total (fst (ext_eigen E m)) = rows m /\
             cols (snd (ext_eigen E m)) = rows m).

End Vocabulary.

Arguments Call T : clear implicits.

(* ================================================================== *)
(** * The between-class scatter in the words of the specification *)

Section ScatterSpec.

Context {T : Type} {ST : Scalar T}.

(** A finite sum, accumulated from zero in list order. *)
Definition sum_list (l : list T) : T := fold_left fadd l fzero.

(** The samples of class [c]: those whose label is the [c]-th of the
    distinct labels in ascending order. *)
Definition members (labels : list Z) (c : nat) : list nat :=
  filter (fun r => (nth r labels 0 =? nth c (remove_dups labels) 0)%Z)
         (seq 0 (length labels)).

(** Feature [j] summed over the samples [rs]. *)
Definition column_sum (data : Mat T) (rs : list nat) (j : nat) : T :=
  sum_list (map (fun r => mat_at data r j) rs).

(** Overall mean and class mean of feature [j]: the sum times the
    reciprocal of the number of samples. *)
Definition mean_total (data : Mat T) (j : nat) : T :=
  fmul (column_sum data (seq 0 (rows data)) j)
       (fdiv fone (of_int (Z.of_nat (rows data)))).

Definition mean_class (data : Mat T) (labels : list Z) (c j : nat) : T :=
  fmul (column_sum data (members labels c) j)
       (fdiv fone (of_int (Z.of_nat (length (members labels c))))).

(** Sb = sum over the classes c of (mean_c - mean_total)(mean_c -
    mean_total)^T, cell (i, j); no class count appears as a factor. *)
Definition Sb_spec (data : Mat T) (labels : list Z) (i j : nat) : T :=
  sum_list
    (map (fun c =>
            fmul (fsub (mean_class data labels c i) (mean_total data i))
                 (fsub (mean_class data labels c j) (mean_total data j)))
         (seq 0 (length (remove_dups labels)))).

(** A single-channel row of [D] cells. *)
Definition is_row (D : nat) (m : Mat T) : Prop :=
  rows m = 1 /\ cols m = D /\ channels m = 1.

End ScatterSpec.

(* ================================================================== *)
(** * Invariants and intermediate notions of the proofs *)

(** The map after the first [n] turns of the loop that fills it. *)
Definition label2num_upto (num2label : list Z) (n : nat) : list (Z * Z) :=
  fold_left (fun m i => map_set m (nth i num2label 0%Z) (Z.of_nat i))
            (seq 0 n) [].

(** The class index of sample [r], as [compute] derives it. *)
Definition class_of (labels : list Z) (r : nat) : nat :=
  Z.to_nat (nth r (mapped_labels_of labels) 0%Z).

Section ProofVocabulary.

Context {T : Type} {ST : Scalar T}.

(** A member function keeps a property of the instance. *)
Definition keeps {A : Type} (P : LDA T -> Prop) (c : Method T A) : Prop :=
  forall this, P this -> P (fst (c this)).

(** The members that the setters of the eigen matrices leave alone. *)
Definition config_is (b : bool) (n : Z) (this : LDA T) : Prop :=
  _dataAsRow this = b /\ _num_components this = n.

(** The invariant of the loop "calculate sums" after [i] samples. *)
Definition sums_inv (data : Mat T) (labels : list Z) (C D i : nat)
    (st : Stats T) : Prop :=
  is_row D (meanTotal st) /\
  (forall j, mat_at (meanTotal st) 0 j = column_sum data (seq 0 i) j) /\
  length (meanClass st) = C /\
  length (numClass st) = C /\
  forall c, c < C ->
    is_row D (nth c (meanClass st) Mat_empty) /\
    (forall j, mat_at (nth c (meanClass st) Mat_empty) 0 j =
               column_sum data
                 (filter (fun r => class_of labels r =? c) (seq 0 i)) j) /\
    nth c (numClass st) 0%Z =
      Z.of_nat (length (filter (fun r => class_of labels r =? c) (seq 0 i))).

(** The invariant of the loop "calculate means" after [i] classes. *)
Definition means_inv (st1 : Stats T) (C i : nat) (st : Stats T) : Prop :=
  meanTotal st = meanTotal st1 /\
  numClass st = numClass st1 /\
  length (meanClass st) = C /\
  forall c, c < C ->
    nth c (meanClass st) Mat_empty =
      if c <? i
      then convertTo_scale (nth c (meanClass st1) Mat_empty)
             (fdiv fone (of_int (nth c (numClass st1) 0%Z)))
      else nth c (meanClass st1) Mat_empty.

(** The invariant of the loop "calculate between-classes scatter". *)
Definition Sb_inv (st : Stats T) (D i : nat) (Sb : Mat T) : Prop :=
  rows Sb = D /\ cols Sb = D /\ channels Sb = 1 /\
  forall a b,
    mat_at Sb a b =
    sum_list
      (map (fun c =>
              fadd fzero
                (fmul (fsub (mat_at (nth c (meanClass st) Mat_empty) 0 a)
                            (mat_at (meanTotal st) 0 a))
                      (fsub (mat_at (nth c (meanClass st) Mat_empty) 0 b)
                            (mat_at (meanTotal st) 0 b))))
           (seq 0 i)).

(** The natural-number indices behind [sortIdx_row]. *)
Definition sorted_positions (vals : list T) (descending : bool) : list nat :=
  let less := fun a b => flt (nth a vals fzero) (nth b vals fzero) in
  let iptr := std_sort less (seq 0 (length vals)) in
  if descending then rev iptr else iptr.

(** The steps of a [compute] that returns, and the instance it leaves.
    [ev0] is the reshaped eigenvalue row, [idxs] the descending index
    row, [ev1] and [evec1] the reordered matrices. *)
Inductive ComputeTrace (E : External T) (this : LDA T) (src : Mat T)
    (labels : list Z) (this' : LDA T) : Prop :=
| mkTrace (Sw Sb M ev0 ev1 evec1 ev2 evec2 : Mat T) (idxs : list Z)
    (tr_channels : channels src = 1)
    (tr_labels : length labels = rows (oriented this src))
    (tr_scatter : scatter (oriented this src) labels = Ok (Sw, Sb))
    (tr_gemm : gemm (ext_inv E Sw) Sb fone Mat_empty fzero false = Ok M)
    (tr_reshape : reshape_1_1 (fst (ext_eigen E M)) = Ok ev0)
    (tr_argsort : argsort ev0 false = Ok idxs)
    (tr_sort_values :
       sortMatrixByColumn ev0 idxs (ext_alloc E 0) = Ok ev1)
    (tr_sort_vectors :
       sortMatrixByColumn (snd (ext_eigen E M)) idxs (ext_alloc E 1)
       = Ok evec1)
    (tr_values :
       colRange ev1 0
         (clip_components (_num_components this)
            (length (remove_dups labels))) = Ok ev2)
    (tr_vectors :
       colRange evec1 0
         (clip_components (_num_components this)
            (length (remove_dups labels))) = Ok evec2)
    (tr_final :
       this' = mkLDA (_dataAsRow this)
                 (clip_components (_num_components this)
                    (length (remove_dups labels))) evec2 ev2).

End ProofVocabulary.

(* ================================================================== *)
(** * Sample inputs *)

(** Twelve two-dimensional samples in three classes, over the rationals.
    Within every class the two features are uncorrelated and the class
    means are orthogonal around the overall mean, so both scatter
    matrices are diagonal and [External_diag] is an exact solver: Sw =
    diag(12, 3), Sb = diag(2, 6), and the eigenvalues 1/6 and 2 come out
    of the solver in ascending order. *)
Definition three_classes_Q : Mat Q :=
  Mat_of_rows 2
    [[12; 23 # 2]; [12; 21 # 2]; [10; 23 # 2]; [10; 21 # 2];
     [10; 23 # 2]; [10; 21 # 2]; [8; 23 # 2]; [8; 21 # 2];
     [11; 17 # 2]; [11; 15 # 2]; [9; 17 # 2]; [9; 15 # 2]]%Q.

Definition three_classes_labels : list Z :=
  [5; 5; 5; 5; 6; 6; 6; 6; 9; 9; 9; 9]%Z.

(** The same samples as doubles; every coordinate is a binary64 value. *)
Definition three_classes_double : Mat float :=
  Mat_of_rows 2
    [[12.0; 11.5]; [12.0; 10.5]; [10.0; 11.5]; [10.0; 10.5];
     [10.0; 11.5]; [10.0; 10.5]; [8.0; 11.5]; [8.0; 10.5];
     [11.0; 8.5]; [11.0; 7.5]; [9.0; 8.5]; [9.0; 7.5]]%float.

Abbreviation three_classes_run :=
  (compute External_diag three_classes_Q three_classes_labels
     (LDA_new 0 true)) (only parsing).

(** Four one-dimensional samples of doubles in two classes, then six in
    three classes. *)
Definition two_classes_1d : Mat float :=
  Mat_of_rows 1 [[0.0]; [2.0]; [10.0]; [12.0]]%float.

Definition three_classes_1d : Mat float :=
  Mat_of_rows 1 [[0.0]; [2.0]; [10.0]; [12.0]; [20.0]; [22.0]]%float.

Abbreviation first_run :=
  (compute External_diag two_classes_1d [7; 7; 3; 3]%Z (LDA_new 0 true)).

Abbreviation second_run :=
  (compute External_diag three_classes_1d [0; 0; 1; 1; 2; 2]%Z
     (fst first_run)).

(* ================================================================== *)
(** * helper.hpp, the remaining matrix helpers *)

Section MoreHelpers.

Context {T : Type} {ST : Scalar T}.

(** [Mat(m, Range(a, b), Range::all())]: the constructor asserts
    [0 <= a <= b <= m.rows]. *)
Definition rowRange (m : Mat T) (a b : Z) : result (Mat T) :=
  if ((0 <=? a)%Z && (a <=? b)%Z && (b <=? Z.of_nat (rows m))%Z)%bool
  then Ok (mkMat (Z.to_nat (b - a)) (cols m) (channels m)
             (fun i j => mat_at m (Z.to_nat a + i) j))
  else Err StsAssert.

(** [m.row(x)] is [Mat(m, Range(x, x+1), Range::all())]. *)
Definition row_at (m : Mat T) (x : Z) : result (Mat T) := rowRange m x (x + 1).

(** [src.copyTo(view)] where [view] is row [idx] of [dst] and [src] has
    one row of the same width. *)
Definition copyTo_row (src : Mat T) (dst : Mat T) (idx : nat) : Mat T :=
  mkMat (rows dst) (cols dst) (channels dst)
        (fun i j => if i =? idx then mat_at src 0 j else mat_at dst i j).

(** The loop of [cv::sortMatrixByRow(src, dst, indices)], from [idx] on. *)
Fixpoint sortMatrixByRow_loop (src : Mat T) (indices : list Z) (idx : nat)
    (dst : Mat T) : result (Mat T) :=
  match indices with
  | [] => Ok dst
  | x :: rest =>
      originalRow <- row_at src x ;;
      _ <- row_at dst (Z.of_nat idx) ;;
      sortMatrixByRow_loop src rest (S idx) (copyTo_row originalRow dst idx)
  end.

(** [cv::sortMatrixByRow(src, indices)]; [junk] is the content of the
    storage that [dst.create] obtains. *)
Definition sortMatrixByRow (src : Mat T) (indices : list Z)
    (junk : nat -> nat -> T) : result (Mat T) :=
  let dst := create (rows src) (cols src) (channels src) junk in
  sortMatrixByRow_loop src indices 0 dst.

(** A function applied to what a fallible call returns. *)
Definition result_map {A B : Type} (f : A -> B) (r : result A) : result B :=
  match r with
  | Ok a => Ok (f a)
  | Err e => Err e
  end.

(** The [k]-th entry of a one-dimensional matrix, a row or a column. *)
Definition entry (m : Mat T) (k : nat) : T :=
  if rows m =? 1 then mat_at m 0 k else mat_at m k 0.

(** The [k]-th cell of a matrix in row-major order. *)
Definition flat_cell (m : Mat T) (k : nat) : T :=
  mat_at m (k / cols m) (k mod cols m).

End MoreHelpers.

(* ================================================================== *)
(** * Vocabulary for the generic transform *)

Section TransformVocabulary.

Context {T : Type} {ST : Scalar T}.

(** The samples as [project] multiplies them: minus the mean, cell [l] of
    the mean (in row-major order) from column [l] of every row, when the
    mean has as many cells as the samples have columns; as they are
    otherwise. *)
Definition centred (src mean : Mat T) : Mat T :=
  mkMat (rows src) (cols src) (channels src)
        (fun i l => if total mean =? cols src
                    then fsub (mat_at src i l) (flat_cell mean l)
                    else mat_at src i l).

(** The offset that [reconstruct] adds to column [j]: cell [j] of a
    non-empty mean that has as many cells as the coefficients have
    columns, nothing otherwise. *)
Definition with_offset (src mean : Mat T) (x : T) (j : nat) : T :=
  if (cols src =? total mean) && negb (total mean =? 0)
  then fadd x (flat_cell mean j)
  else x.

End TransformVocabulary.

(* ================================================================== *)
(** * The within-class scatter in the words of its definition *)

Section WithinScatterSpec.

Context {T : Type} {ST : Scalar T}.

(** The samples that carry the label of sample [r]. *)
Definition peers (labels : list Z) (r : nat) : list nat :=
  filter (fun r' => (nth r' labels 0 =? nth r labels 0)%Z)
         (seq 0 (length labels)).

(** Feature [j] averaged over them: the mean of the class of [r]. *)
Definition mean_of_peers (data : Mat T) (labels : list Z) (r j : nat) : T :=
  fmul (column_sum data (peers labels r) j)
       (fdiv fone (of_int (Z.of_nat (length (peers labels r))))).

(** Sample [r] minus the mean of its class, feature [j]. *)
Definition deviation (data : Mat T) (labels : list Z) (r j : nat) : T :=
  fsub (mat_at data r j) (mean_of_peers data labels r j).

(** Sw = sum over the samples r of (x_r - mean of its class)(x_r - mean
    of its class)^T, cell (a, b), the samples taken in index order. *)
Definition Sw_spec (data : Mat T) (labels : list Z) (a b : nat) : T :=
  sum_list
    (map (fun r => fmul (deviation data labels r a)
                        (deviation data labels r b))
         (seq 0 (rows data))).

(** A matrix equal to its transpose, cell by cell within [n] x [n]. *)
Definition symmetric_upto (n : nat) (m : Mat T) : Prop :=
  forall a b, a < n -> b < n -> mat_at m a b = mat_at m b a.

(** The invariant of the loop "subtract class means" after [i] samples:
    the rows before [i] are centred, the others untouched. *)
Definition center_inv (data : Mat T) (labels : list Z) (st : Stats T)
    (i : nat) (d : Mat T) : Prop :=
  rows d = rows data /\ cols d = cols data /\ channels d = 1 /\
  forall r j,
    mat_at d r j =
    if r <? i
    then fsub (mat_at data r j)
              (mat_at (nth (class_of labels r) (meanClass st) Mat_empty) 0 j)
    else mat_at data r j.

End WithinScatterSpec.

(* ================================================================== *)
(** * Vocabulary for the learned subspace *)

Section LearnedVocabulary.

Context {T : Type} {ST : Scalar T}.

(** A decomposition that returns the eigenvectors of a square matrix of
    size n as the columns of a single-channel matrix with n rows. *)
Definition solver_square (E : External T) : Prop :=
  forall m, rows m = cols m ->
    rows (snd (ext_eigen E m)) = rows m /\
    channels (snd (ext_eigen E m)) = 1.

(** A matrix of samples as the member functions want it handed in, when
    its rows are the samples: as it is, or transposed. *)
Definition handed_in (this : LDA T) (samples : Mat T) : Mat T :=
  if _dataAsRow this then samples else transpose samples.

End LearnedVocabulary.

(* ================================================================== *)
(** * helper.hpp, collections of matrices *)

Section Collections.

Context {T : Type} {ST : Scalar T}.

(** [m.reshape(1, r)]: one channel, [r] rows.  With [r = 0], or with the
    row count the matrix already has, the header is kept; otherwise the
    cells are laid out anew, and OpenCV refuses when [r] exceeds the
    number of cells ("Bad new number of rows") or does not divide it. *)
Definition reshape_1 (m : Mat T) (r : nat) : result (Mat T) :=
  if negb (channels m =? 1) then Err StsUnsupported
  else if (r =? 0) || (r =? rows m) then Ok m
  else if total m <? r then Err StsOutOfRange
  else if negb (total m mod r =? 0) then Err StsBadArg
  else Ok (mkMat r (total m / r) 1
             (fun i j => flat_cell m (i * (total m / r) + j))).

(** [src.convertTo(view, CV_64FC1)], scale 1 and shift 0, where [view] is
    the header of row [i] of [data].  Nothing happens for an empty [src].
    [Mat::create] keeps the storage of [view] when [src] has its size
    and type, and the cells are copied into [data]; otherwise [view], a
    local header, gets storage of its own and [data] is not written. *)
Definition convertTo_row (src data : Mat T) (i : nat) : Mat T :=
  if empty src then data
  else if (rows src =? 1) && (cols src =? cols data)
          && (channels src =? channels data)
  then copyTo_row src data i
  else data.

(** The same where [view] is the header of column [i] of [data]. *)
Definition convertTo_col (src data : Mat T) (i : nat) : Mat T :=
  if empty src then data
  else if (rows src =? rows data) && (cols src =? 1)
          && (channels src =? channels data)
  then copyTo_col src data i
  else data.

(** [cv::asRowMatrix(src, CV_64FC1)], with the default scale and shift;
    [junk] is the content of the storage that [Mat data(n, d, rtype)]
    obtains. *)
Definition asRowMatrix (src : list (Mat T)) (junk : nat -> nat -> T)
  : result (Mat T) :=
  let n := length src in
  if n =? 0 then Ok Mat_empty
  else
    let d := total (nth 0 src Mat_empty) in
    let data := create n d 1 junk in
    for_loop n
      (fun data i =>
         _ <- row_at data (Z.of_nat i) ;;
         flat <- reshape_1_1 (nth i src Mat_empty) ;;
         Ok (convertTo_row flat data i))
      data.

(** [cv::asColumnMatrix(src, CV_64FC1)], likewise. *)
Definition asColumnMatrix (src : list (Mat T)) (junk : nat -> nat -> T)
  : result (Mat T) :=
  let n := length src in
  if n =? 0 then Ok Mat_empty
  else
    let d := total (nth 0 src Mat_empty) in
    let data := create d n 1 junk in
    for_loop n
      (fun data i =>
         _ <- col data (Z.of_nat i) ;;
         flat <- reshape_1 (nth i src Mat_empty) d ;;
         Ok (convertTo_col flat data i))
      data.

(** [LDA::compute(const vector<Mat>& src, const vector<int>& labels)]:
    the collection is turned into one matrix, then handed to the other
    [compute]. *)
Definition compute_all (E : External T) (junk : nat -> nat -> T)
    (src : list (Mat T)) (labels : list Z) : Method T unit :=
  this <~ m_get ;;
  data <~ m_lift (if _dataAsRow this
                  then asRowMatrix src junk
                  else asColumnMatrix src junk) ;;
  compute E data labels.

(** A sample of the model: one channel and at least one cell. *)
Definition plain (m : Mat T) : Prop := channels m = 1 /\ total m <> 0.

(** The invariant of the copy loop of [asRowMatrix] after [i] samples. *)
Definition rows_inv (src : list (Mat T)) (junk : nat -> nat -> T)
    (d i : nat) (data : Mat T) : Prop :=
  rows data = length src /\ cols data = d /\ channels data = 1 /\
  forall r j, j < d ->
    mat_at data r j =
    if (r <? i) && (total (nth r src Mat_empty) =? d)
    then flat_cell (nth r src Mat_empty) j
    else junk r j.

(** The invariant of the copy loop of [asColumnMatrix] after [i] samples
    that all have [d] cells. *)
Definition cols_inv (src : list (Mat T)) (junk : nat -> nat -> T)
    (d i : nat) (data : Mat T) : Prop :=
  rows data = d /\ cols data = length src /\ channels data = 1 /\
  forall r j, r < d ->
    mat_at data r j =
    if j <? i then flat_cell (nth j src Mat_empty) r else junk r j.

End Collections.

(* ================================================================== *)
(** * helper.hpp, impl::isSymmetric *)

(** [impl::isSymmetric<_Tp>(src)] for an integer element type (char,
    unsigned char, short, unsigned short, int): the cells are integers
    and are compared exactly.  The two loops return [false] at the first
    pair of mirrored cells that differ. *)
Definition impl_isSymmetric (_src : Mat Z) : bool :=
  if negb (cols _src =? rows _src) then false
  else
    forallb
      (fun i =>
         forallb
           (fun j =>
              let a := mat_at _src i j in
              let b := mat_at _src j i in
              negb (negb (a =? b)%Z))
           (seq 0 (cols _src)))
      (seq 0 (rows _src)).

(** [impl::isSymmetric<double>(src, eps)]: [std::abs(a - b) > eps] on
    doubles. *)
Definition impl_isSymmetric_eps (_src : Mat float) (eps : float) : bool :=
  if negb (cols _src =? rows _src) then false
  else
    forallb
      (fun i =>
         forallb
           (fun j =>
              let a := mat_at _src i j in
              let b := mat_at _src j i in
              negb (PrimFloat.ltb eps (PrimFloat.abs (PrimFloat.sub a b))))
           (seq 0 (cols _src)))
      (seq 0 (rows _src)).

(** A matrix of integers from the list of its rows. *)
Definition Mat_of_int_rows (c : nat) (l : list (list Z)) : Mat Z :=
  mkMat (length l) c 1 (fun i j => nth j (nth i l []) 0%Z).

(* ================================================================== *)
(** * lbp.hpp, the original local binary patterns *)

(** The value an [int] takes when it is stored in an [unsigned char]. *)
Definition to_uchar (z : Z) : Z := (z mod 256)%Z.

(** [code |= (src.at<_Tp>(y, x) >= center) << k], [code] an
    [unsigned char], the comparison an [int] that is 0 or 1. *)
Definition or_bit (code : Z) (ge : bool) (k : Z) : Z :=
  to_uchar (Z.lor code (Z.shiftl (Z.b2z ge) k)).

(** The body of the two loops of [impl::olbp<_Tp>] at the pixel (i, j),
    for an integer element type: the code of that pixel. *)
Definition olbp_code (src : Mat Z) (i j : nat) : Z :=
  let center := mat_at src i j in
  let code := 0%Z in
  let code := or_bit code (mat_at src (i - 1) (j - 1) >=? center)%Z 7 in
  let code := or_bit code (mat_at src (i - 1) j >=? center)%Z 6 in
  let code := or_bit code (mat_at src (i - 1) (j + 1) >=? center)%Z 5 in
  let code := or_bit code (mat_at src i (j + 1) >=? center)%Z 4 in
  let code := or_bit code (mat_at src (i + 1) (j + 1) >=? center)%Z 3 in
  let code := or_bit code (mat_at src (i + 1) j >=? center)%Z 2 in
  let code := or_bit code (mat_at src (i + 1) (j - 1) >=? center)%Z 1 in
  let code := or_bit code (mat_at src i (j - 1) >=? center)%Z 0 in
  code.

(** [dst.at<unsigned char>(i, j) = v]. *)
Definition set_at (dst : Mat Z) (i j : nat) (v : Z) : Mat Z :=
  mkMat (rows dst) (cols dst) (channels dst)
        (fun i' j' => if (i' =? i) && (j' =? j) then v else mat_at dst i' j').

(** [impl::olbp<_Tp>(src, dst)] for an integer element type; the matrix
    it returns is the [dst] it leaves.  [Mat::zeros] asserts that the
    sizes are not negative; [i] runs from 1 to [rows - 2] and [j] from 1
    to [cols - 2]. *)
Definition impl_olbp (src : Mat Z) : result (Mat Z) :=
  if (rows src <? 2) || (cols src <? 2) then Err StsAssert
  else
    let dst := mkMat (rows src - 2) (cols src - 2) 1 (fun _ _ => 0%Z) in
    Ok (fold_left
          (fun dst i =>
             fold_left
               (fun dst j => set_at dst (i - 1) (j - 1) (olbp_code src i j))
               (seq 1 (cols src - 2)) dst)
          (seq 1 (rows src - 2)) dst).

(** The eight neighbours of the pixel (i, j) by the bit they set: bit 7
    is the upper left one, then clockwise down to bit 0, the left one. *)
Definition neighbour (src : Mat Z) (i j k : nat) : Z :=
  match k with
  | 7 => mat_at src (i - 1) (j - 1)
  | 6 => mat_at src (i - 1) j
  | 5 => mat_at src (i - 1) (j + 1)
  | 4 => mat_at src i (j + 1)
  | 3 => mat_at src (i + 1) (j + 1)
  | 2 => mat_at src (i + 1) j
  | 1 => mat_at src (i + 1) (j - 1)
  | _ => mat_at src i (j - 1)
  end.

(** An image with every grey value sent through [f]. *)
Definition map_cells (f : Z -> Z) (m : Mat Z) : Mat Z :=
  mkMat (rows m) (cols m) (channels m) (fun i j => f (mat_at m i j)).

(** The cells of a result of integers, for display. *)
Definition cells_int (r : result (Mat Z)) : result (list (list Z)) :=
  m <- r ;;
  Ok (map (fun i => map (mat_at m i) (seq 0 (cols m))) (seq 0 (rows m))).

(* ================================================================== *)
(** * Sums of doubles *)

(** A double other than -0. *)
Definition not_neg_zero (x : float) : Prop := Prim2SF x <> S754_zero true.

(* ================================================================== *)
(** * Properties of remove_dups *)

Lemma push_back_loop {A : Type} (l acc : list A) :
  fold_left push_back l acc = acc ++ l.
Proof.
  revert acc; induction l as [|x l IH]; intros acc; simpl.
  - now rewrite app_nil_r.
  - rewrite IH. unfold push_back. now rewrite <- app_assoc.
Qed.

Lemma set_insert_In (x a : Z) (s : list Z) :
  In x (set_insert a s) <-> x = a \/ In x s.
Proof.
  induction s as [|y t IH]; simpl.
  - intuition.
  - destruct (a <? y)%Z eqn:Hay; simpl.
    + intuition.
    + destruct (y <? a)%Z eqn:Hya; simpl.
      * rewrite IH. intuition.
      * assert (a = y) by (apply Z.ltb_ge in Hay, Hya; lia). subst.
        intuition.
Qed.

Lemma set_insert_HdRel (a x : Z) (s : list Z) :
  (a < x)%Z -> HdRel Z.lt a s -> HdRel Z.lt a (set_insert x s).
Proof.
  intros Hax Hs. destruct s as [|y t]; simpl.
  - now constructor.
  - inversion Hs; subst.
    destruct (x <? y)%Z; [now constructor|].
    destruct (y <? x)%Z; now constructor.
Qed.

Lemma set_insert_Sorted (x : Z) (s : list Z) :
  Sorted Z.lt s -> Sorted Z.lt (set_insert x s).
Proof.
  induction 1 as [|y t Ht IH Hhd]; simpl.
  - repeat constructor.
  - destruct (x <? y)%Z eqn:Hxy.
    + apply Z.ltb_lt in Hxy. repeat constructor; assumption.
    + destruct (y <? x)%Z eqn:Hyx.
      * apply Z.ltb_lt in Hyx. constructor; [assumption|].
        now apply set_insert_HdRel.
      * now constructor.
Qed.

Lemma set_fill_Sorted (src s : list Z) :
  Sorted Z.lt s -> Sorted Z.lt (fold_left (fun s x => set_insert x s) src s).
Proof.
  revert s; induction src as [|x src IH]; intros s Hs; simpl; [assumption|].
  apply IH. now apply set_insert_Sorted.
Qed.

Lemma set_fill_In (src s : list Z) (x : Z) :
  In x (fold_left (fun s x => set_insert x s) src s) <-> In x src \/ In x s.
Proof.
  revert s; induction src as [|y src IH]; intros s; simpl.
  - intuition.
  - rewrite IH, set_insert_In. intuition.
Qed.

Lemma remove_dups_In (src : list Z) (x : Z) :
  In x (remove_dups src) <-> In x src.
Proof.
  unfold remove_dups. rewrite push_back_loop. simpl.
  rewrite set_fill_In. simpl. intuition.
Qed.

Lemma remove_dups_StronglySorted (src : list Z) :
  StronglySorted Z.lt (remove_dups src).
Proof.
  unfold remove_dups. rewrite push_back_loop. simpl.
  apply Sorted_StronglySorted.
  - intros a b c; apply Z.lt_trans.
  - apply set_fill_Sorted. constructor.
Qed.

(** C9: for every input sequence, [remove_dups] returns a strictly
    increasing vector (so sorted ascending, without repetition) that holds
    exactly the values of the input; on [2, 1, 2, 3, 1] it returns
    [1, 2, 3]. *)
Theorem remove_dups_sorted_distinct :
  (forall src : list Z,
      StronglySorted Z.lt (remove_dups src) /\
      NoDup (remove_dups src) /\
      (forall x, In x (remove_dups src) <-> In x src)) /\
  remove_dups [2; 1; 2; 3; 1]%Z = [1; 2; 3]%Z.
Proof.
  split; [|reflexivity].
  intros src. pose proof (remove_dups_StronglySorted src) as Hs.
  repeat split.
  - exact Hs.
  - induction Hs as [|a l Hl IH Hall]; constructor; [|exact IH].
    intros Hin. rewrite Forall_forall in Hall.
    specialize (Hall a Hin). lia.
  - now apply remove_dups_In.
  - now apply remove_dups_In.
Qed.

(* ================================================================== *)
(** * Properties of argsort *)

Lemma argsort_not_1d {T : Type} {ST : Scalar T} (src : Mat T)
    (ascending : bool) :
  rows src <> 1 -> cols src <> 1 -> argsort src ascending = Err StsBadArg.
Proof.
  intros Hr Hc. unfold argsort.
  apply Nat.eqb_neq in Hr, Hc. now rewrite Hr, Hc.
Qed.

(** C8: on the row [1.0, 0.0, 3.0, -1.0] of doubles, [argsort] returns
    [3, 1, 0, 2] ascending and [2, 0, 1, 3] descending; on every matrix
    that has neither a single row nor a single column it raises
    CV_StsBadArg, whatever the element type. *)
Theorem argsort_scenario_and_not_1d :
  argsort (Mat_row [1.0; 0.0; 3.0; -1.0]%float) true
    = Ok [3; 1; 0; 2]%Z /\
  argsort (Mat_row [1.0; 0.0; 3.0; -1.0]%float) false
    = Ok [2; 0; 1; 3]%Z /\
  (forall (T : Type) (ST : Scalar T) (src : Mat T) (ascending : bool),
      rows src <> 1 -> cols src <> 1 ->
      argsort src ascending = Err StsBadArg).
Proof.
  split; [vm_compute; reflexivity|].
  split; [vm_compute; reflexivity|].
  intros T ST src ascending. apply argsort_not_1d.
Qed.

(** The error case of C8 at the 2 x 2 matrix of doubles [[1, 2], [3, 4]]. *)
Lemma argsort_scenario_and_not_1d_witness :
  argsort (Mat_of_rows 2 [[1.0; 2.0]; [3.0; 4.0]]%float) true = Err StsBadArg.
Proof.
  apply (proj2 (proj2 argsort_scenario_and_not_1d)); simpl; lia.
Defined.

(* ================================================================== *)
(** * Properties of sortMatrixByColumn *)

Section SortMatrixByColumn.

Context {T : Type} {ST : Scalar T}.

Lemma col_in_range (m : Mat T) (x : Z) :
  (0 <= x < Z.of_nat (cols m))%Z ->
  col m x = Ok (mkMat (rows m) 1 (channels m)
                  (fun i j => mat_at m i (Z.to_nat x + j))).
Proof.
  intros Hx. unfold col, colRange.
  replace ((0 <=? x)%Z && (x <=? x + 1)%Z &&
           (x + 1 <=? Z.of_nat (cols m))%Z)%bool with true.
  - replace (Z.to_nat (x + 1 - x)) with 1 by lia. reflexivity.
  - symmetry. rewrite !andb_true_iff, !Z.leb_le. lia.
Qed.

Lemma col_out_of_range (m : Mat T) (x : Z) :
  (x < 0 \/ Z.of_nat (cols m) <= x)%Z -> col m x = Err StsAssert.
Proof.
  intros Hx. unfold col, colRange.
  replace ((0 <=? x)%Z && (x <=? x + 1)%Z &&
           (x + 1 <=? Z.of_nat (cols m))%Z)%bool with false; [reflexivity|].
  symmetry. rewrite !andb_false_iff, !Z.leb_gt. lia.
Qed.

(** The loop from [idx] on: it succeeds when the remaining indices are
    column indices of [src] and the remaining targets are columns of
    [dst]; it writes columns [idx .. idx + len - 1] of [dst] and nothing
    else. *)
Lemma sortMatrixByColumn_loop_spec (src : Mat T) (indices : list Z) :
  forall (idx : nat) (dst : Mat T),
    idx + length indices <= cols dst ->
    Forall (fun x => (0 <= x < Z.of_nat (cols src))%Z) indices ->
    exists dst',
      sortMatrixByColumn_loop src indices idx dst = Ok dst' /\
      rows dst' = rows dst /\ cols dst' = cols dst /\
      channels dst' = channels dst /\
      forall r j,
        mat_at dst' r j =
          if (idx <=? j) && (j <? idx + length indices)
          then mat_at src r (Z.to_nat (nth (j - idx) indices 0%Z))
          else mat_at dst r j.
Proof.
  induction indices as [|x rest IH]; intros idx dst Hlen Hall;
    cbn [sortMatrixByColumn_loop length] in *.
  - exists dst. repeat split; try reflexivity.
    intros r j.
    destruct (Nat.leb_spec idx j), (Nat.ltb_spec j (idx + 0));
      cbn [andb]; try reflexivity; lia.
  - inversion Hall as [|? ? Hx Hrest]; subst.
    rewrite (col_in_range src Hx). cbn [bind].
    rewrite col_in_range by lia. cbn [bind].
    destruct (IH (S idx) (copyTo_col
                (mkMat (rows src) 1 (channels src)
                   (fun i j => mat_at src i (Z.to_nat x + j))) dst idx))
      as (dst' & Hrun & Hr & Hc & Hch & Hcells);
      [unfold copyTo_col; cbn [cols]; lia|assumption|].
    exists dst'. rewrite Hrun.
    unfold copyTo_col in *; cbn [rows cols channels mat_at] in *.
    repeat split; try assumption.
    intros r j. rewrite Hcells.
    destruct (Nat.leb_spec (S idx) j), (Nat.ltb_spec j (S idx + length rest)),
      (Nat.leb_spec idx j), (Nat.ltb_spec j (idx + S (length rest))),
      (Nat.eqb_spec j idx); cbn [andb]; try lia; try reflexivity.
    + replace (j - idx) with (S (j - S idx)) by lia. reflexivity.
    + subst j. rewrite Nat.sub_diag, Nat.add_0_r. reflexivity.
Qed.

(** The loop fails its range assertion as soon as an index is not a
    column index of [src] or a target is not a column of [dst]. *)
Lemma sortMatrixByColumn_loop_fails (src : Mat T) (indices : list Z) :
  forall (idx : nat) (dst : Mat T),
    idx <= cols dst ->
    cols dst < idx + length indices \/
    Exists (fun x => ~ (0 <= x < Z.of_nat (cols src))%Z) indices ->
    sortMatrixByColumn_loop src indices idx dst = Err StsAssert.
Proof.
  induction indices as [|x rest IH]; intros idx dst Hidx Hbad;
    cbn [sortMatrixByColumn_loop length] in *.
  - destruct Hbad as [Hlen|Hex]; [lia|inversion Hex].
  - destruct (Z_lt_dec x 0) as [Hneg|Hnonneg];
      [rewrite col_out_of_range by lia; reflexivity|].
    destruct (Z_le_dec (Z.of_nat (cols src)) x) as [Hbig|Hsmall];
      [rewrite col_out_of_range by lia; reflexivity|].
    rewrite col_in_range by lia. cbn [bind].
    destruct (Nat.eq_dec idx (cols dst)) as [Hfull|Hroom];
      [rewrite col_out_of_range by lia; reflexivity|].
    rewrite col_in_range by lia. cbn [bind].
    apply IH.
    + unfold copyTo_col. cbn [cols]. lia.
    + unfold copyTo_col. cbn [cols].
      destruct Hbad as [Hlen|Hex]; [left; lia|].
      inversion Hex as [? ? Hx|? ? Hrest]; subst; [lia|now right].
Qed.

End SortMatrixByColumn.

(** [sortMatrixByColumn] on in-range indices returns, and every cell of
    the result is either the selected source cell or what the allocation
    held. *)
Lemma sortMatrixByColumn_run {T : Type} {ST : Scalar T}
    (src : Mat T) (indices : list Z) (junk : nat -> nat -> T) :
  length indices <= cols src ->
  Forall (fun x => (0 <= x < Z.of_nat (cols src))%Z) indices ->
  exists dst,
    sortMatrixByColumn src indices junk = Ok dst /\
    rows dst = rows src /\ cols dst = cols src /\
    channels dst = channels src /\
    forall r j,
      mat_at dst r j =
        if j <? length indices
        then mat_at src r (Z.to_nat (nth j indices 0%Z))
        else junk r j.
Proof.
  intros Hlen Hall. unfold sortMatrixByColumn.
  destruct (sortMatrixByColumn_loop_spec src (indices := indices) 0
              (create (rows src) (cols src) (channels src) junk))
    as (dst & Hrun & Hr & Hc & Hch & Hcells);
    [cbn [create cols]; lia|assumption|].
  exists dst. cbn [create rows cols channels mat_at] in *.
  repeat split; try assumption.
  intros r j. rewrite Hcells, Nat.sub_0_r. reflexivity.
Qed.

(** X3: on every index list that has more entries than the source has
    columns, or an entry that is not a column index of the source (also a
    negative one), [sortMatrixByColumn] fails a range assertion and
    returns no matrix. *)
Lemma sortMatrixByColumn_out_of_range {T : Type} {ST : Scalar T}
    (src : Mat T) (indices : list Z) (junk : nat -> nat -> T) :
  cols src < length indices \/
  Exists (fun x => ~ (0 <= x < Z.of_nat (cols src))%Z) indices ->
  sortMatrixByColumn src indices junk = Err StsAssert.
Proof.
  intros Hbad. unfold sortMatrixByColumn.
  apply sortMatrixByColumn_loop_fails; cbn [create cols]; [lia|].
  destruct Hbad as [Hlen|Hex]; [left; lia|now right].
Qed.

(** C10, as the code has it: for every source matrix, every index list
    that is no longer than the source has columns and whose entries are
    column indices of the source, and every content [junk] of the freshly
    allocated destination, [sortMatrixByColumn] returns a matrix with the
    rows, columns and channels of the source (not cut to the length of
    the index list); column [i] of the result is column [indices[i]] of
    the source for [i < len(indices)], and every cell in a column
    [j >= len(indices)] still holds what the allocation held, whatever
    that was. *)
Theorem sortMatrixByColumn_in_range {T : Type} {ST : Scalar T}
    (src : Mat T) (indices : list Z) (junk : nat -> nat -> T) :
  length indices <= cols src ->
  Forall (fun x => (0 <= x < Z.of_nat (cols src))%Z) indices ->
  exists dst,
    sortMatrixByColumn src indices junk = Ok dst /\
    rows dst = rows src /\ cols dst = cols src /\
    channels dst = channels src /\
    (forall r i, i < length indices ->
       mat_at dst r i = mat_at src r (Z.to_nat (nth i indices 0%Z))) /\
    (forall r j, length indices <= j -> mat_at dst r j = junk r j).
Proof.
  intros Hlen Hall.
  destruct (sortMatrixByColumn_run src junk Hlen Hall)
    as (dst & Hrun & Hr & Hc & Hch & Hcells).
  exists dst. repeat split; try assumption.
  - intros r i Hi. rewrite Hcells.
    destruct (Nat.ltb_spec i (length indices)); [reflexivity|lia].
  - intros r j Hj. rewrite Hcells.
    destruct (Nat.ltb_spec j (length indices)); [lia|reflexivity].
Qed.

(** C10 at the 2 x 3 matrix of doubles [[1, 2, 3], [4, 5, 6]] with the
    index list [2, 0]. *)
Lemma sortMatrixByColumn_in_range_witness :
  exists dst,
    sortMatrixByColumn
      (Mat_of_rows 3 [[1.0; 2.0; 3.0]; [4.0; 5.0; 6.0]]%float)
      [2; 0]%Z (fun _ _ => 7.0%float) = Ok dst /\
    rows dst = 2 /\ cols dst = 3 /\ channels dst = 1 /\
    (forall r i, i < 2 ->
       mat_at dst r i =
       mat_at (Mat_of_rows 3 [[1.0; 2.0; 3.0]; [4.0; 5.0; 6.0]]%float) r
         (Z.to_nat (nth i [2; 0]%Z 0%Z))) /\
    (forall r j, 2 <= j -> mat_at dst r j = 7.0%float).
Proof.
  apply (@sortMatrixByColumn_in_range _ _
           (Mat_of_rows 3 [[1.0; 2.0; 3.0]; [4.0; 5.0; 6.0]]%float)
           [2; 0]%Z (fun _ _ => 7.0%float)).
  - simpl; lia.
  - repeat constructor; simpl; lia.
Defined.

(** C10 as stated fails: on the 1 x 1 matrix [[1.0]] and the index list
    [5], [src.col(5)] fails its range assertion, so no matrix is
    returned. *)
Lemma sortMatrixByColumn_every_index_list_fails :
  sortMatrixByColumn (Mat_row [1.0%float]) [5%Z] (fun _ _ => 0.0%float)
    = Err StsAssert /\
  ~ (exists dst,
       sortMatrixByColumn (Mat_row [1.0%float]) [5%Z] (fun _ _ => 0.0%float)
         = Ok dst /\
       rows dst = 1 /\ cols dst = 1).
Proof.
  split; [reflexivity|].
  intros (dst & H & _). discriminate H.
Qed.

(** The same at an index list longer than the source is wide: on [[1.0]]
    and [0, 0], [dst.col(1)] fails its range assertion. *)
Example sortMatrixByColumn_too_many_indices :
  sortMatrixByColumn (Mat_row [1.0%float]) [0; 0]%Z (fun _ _ => 0.0%float)
    = Err StsAssert.
Proof. reflexivity. Qed.

(* ================================================================== *)
(** * The guards and the stored component count of LDA::compute *)

Section ComputeGuards.

Context {T : Type} {ST : Scalar T}.

Lemma keeps_bind {A B : Type} (P : LDA T -> Prop) (c : Method T A)
    (k : A -> Method T B) :
  keeps P c -> (forall a, keeps P (k a)) -> keeps P (m_bind c k).
Proof.
  intros Hc Hk this HP. unfold m_bind.
  specialize (Hc this HP). destruct (c this) as [this' [a|e]]; simpl in *.
  - now apply Hk.
  - exact Hc.
Qed.

Lemma keeps_lift {A : Type} (P : LDA T -> Prop) (r : result A) :
  keeps P (m_lift r).
Proof. intros this HP. exact HP. Qed.

Lemma keeps_get (P : LDA T -> Prop) : keeps P m_get.
Proof. intros this HP. exact HP. Qed.

Lemma keeps_set_eigenvalues (b : bool) (n : Z) (m : Mat T) :
  keeps (config_is b n) (set_eigenvalues m).
Proof. intros this HP. exact HP. Qed.

Lemma keeps_set_eigenvectors (b : bool) (n : Z) (m : Mat T) :
  keeps (config_is b n) (set_eigenvectors m).
Proof. intros this HP. exact HP. Qed.

Ltac keeps_step :=
  first [ apply keeps_lift | apply keeps_get
        | apply keeps_set_eigenvalues | apply keeps_set_eigenvectors
        | apply keeps_bind; [|intros ?] ].

(** Past its two guards, [compute] stores the clipped count, and nothing
    after that touches it or the orientation flag, also when a later step
    throws. *)
Lemma compute_config (E : External T) (this : LDA T) (src : Mat T)
    (labels : list Z) :
  channels src = 1 ->
  length labels = rows (oriented this src) ->
  config_is (_dataAsRow this)
    (clip_components (_num_components this) (length (remove_dups labels)))
    (fst (compute E src labels this)).
Proof.
  intros Hch Hlen. unfold compute, oriented in *.
  unfold m_bind at 1. cbn [m_get].
  rewrite Hch, Nat.eqb_refl. cbn [negb].
  rewrite Hlen, Nat.eqb_refl. cbn [negb].
  unfold m_bind at 1. cbn [set_num_components].
  match goal with
  | |- config_is ?b ?n (fst (?c ?s)) =>
      assert (Hk : keeps (config_is b n) c);
      [repeat keeps_step | apply Hk; split; reflexivity]
  end.
Qed.

End ComputeGuards.

(** C7: whenever the number of labels differs from N, the row count of
    the oriented sample matrix, [compute] raises CV_StsBadArg and leaves
    the whole instance (count, flag, eigenvalues, eigenvectors) as it
    was. *)
Theorem compute_label_count_mismatch {T : Type} {ST : Scalar T}
    (E : External T) (this : LDA T) (src : Mat T) (labels : list Z) :
  length labels <> rows (oriented this src) ->
  compute E src labels this = (this, Err StsBadArg).
Proof.
  intros Hlen. unfold compute, oriented in *.
  unfold m_bind at 1. cbn [m_get].
  destruct (channels src =? 1); cbn [negb]; [|reflexivity].
  apply Nat.eqb_neq in Hlen. rewrite Hlen. reflexivity.
Qed.

(** C7 at a 2 x 1 sample matrix of doubles with a single label. *)
Lemma compute_label_count_mismatch_witness :
  compute External_diag (Mat_of_rows 1 [[1.0]; [2.0]]%float) [0%Z]
          (LDA_new 0 true)
  = (LDA_new 0 true, Err StsBadArg).
Proof.
  apply (@compute_label_count_mismatch _ _ External_diag (LDA_new 0 true)
           (Mat_of_rows 1 [[1.0]; [2.0]]%float) [0%Z]).
  simpl. lia.
Defined.

(* ================================================================== *)
(** * The linear subspace transform *)

Section Transform.

Context {T : Type} {ST : Scalar T}.

Lemma reshape_1_1_empty : reshape_1_1 (@Mat_empty T ST) = Err StsOutOfRange.
Proof. reflexivity. Qed.

(** [gemm] without a third matrix. *)
Lemma gemm_no_C (A B : Mat T) (alpha beta : T) (t : bool) (Y : Mat T) :
  gemm A B alpha Mat_empty beta t = Ok Y ->
  let B' := if t then cv_transpose B else B in
  channels A = 1 /\ channels B = 1 /\ cols A = rows B' /\
  rows Y = rows A /\ cols Y = cols B' /\
  forall i j, mat_at Y i j = fmul alpha (dot A B' i j).
Proof.
  intros H B'. unfold gemm in H. fold B' in H.
  destruct (channels A =? 1) eqn:HA; [|discriminate].
  destruct (channels B =? 1) eqn:HB; [|discriminate].
  destruct (cols A =? rows B') eqn:HAB; [|discriminate].
  cbn in H. inversion H; subst; clear H. cbn.
  apply Nat.eqb_eq in HA, HB, HAB. repeat split; assumption.
Qed.

Lemma gemm_no_C_ok (A B : Mat T) (alpha beta : T) (t : bool) :
  channels A = 1 -> channels B = 1 ->
  cols A = rows (if t then cv_transpose B else B) ->
  is_ok (gemm A B alpha Mat_empty beta t) = true.
Proof.
  intros HA HB HAB. unfold gemm.
  rewrite HA, HB, HAB, !Nat.eqb_refl. reflexivity.
Qed.

(** [project] with the empty mean: no matrix with at least one column
    has as many columns as the empty mean has elements, so nothing is
    subtracted. *)
Lemma project_empty_mean (W X : Mat T) :
  project W Mat_empty X =
    if cols X =? 0 then Err StsOutOfRange
    else gemm X W fone Mat_empty fzero false.
Proof.
  unfold project. change (total (@Mat_empty T ST)) with 0.
  rewrite (Nat.eqb_sym 0 (cols X)).
  destruct (cols X =? 0); reflexivity.
Qed.

Lemma reconstruct_empty_mean (W Y : Mat T) :
  reconstruct W Mat_empty Y =
    if cols Y =? 0 then Err StsOutOfRange
    else gemm Y W fone Mat_empty fzero true.
Proof.
  unfold reconstruct. change (total (@Mat_empty T ST)) with 0.
  destruct (cols Y =? 0); reflexivity.
Qed.

(** What decides in [reconstruct] whether the mean is used: its element
    count against the column count of the coefficients. *)
Lemma reconstruct_mean_skipped (W mean src : Mat T) :
  cols src <> total mean ->
  reconstruct W mean src = gemm src W fone Mat_empty fzero true.
Proof.
  intros H. unfold reconstruct. apply Nat.eqb_neq in H. rewrite H.
  reflexivity.
Qed.

(** C4: [LDA::project] and [LDA::reconstruct] leave the instance alone
    and are the generic transforms at the stored eigenvectors, the empty
    mean and the oriented input; whenever they return, the result is the
    plain product X * W, respectively X * W^T, cell by cell, with nothing
    subtracted or added; and they do return when the matrices are
    single-channel, X has a column and the inner dimensions agree.  The
    premise is the scalar identity 1 * x = x. *)
Theorem LDA_transform_uncentered
    (fmul_one : forall x : T, fmul fone x = x)
    (this : LDA T) (src : Mat T) :
  let X := oriented this src in
  let W := _eigenvectors this in
  LDA_project src this = (this, project W Mat_empty X) /\
  LDA_reconstruct src this = (this, reconstruct W Mat_empty X) /\
  (forall Y, project W Mat_empty X = Ok Y ->
     rows Y = rows X /\ cols Y = cols W /\
     forall i j, mat_at Y i j = dot X W i j) /\
  (forall R, reconstruct W Mat_empty X = Ok R ->
     rows R = rows X /\ cols R = rows W /\
     forall i j, mat_at R i j = dot X (cv_transpose W) i j) /\
  (channels X = 1 -> channels W = 1 -> cols X <> 0 ->
     (cols X = rows W -> is_ok (project W Mat_empty X) = true) /\
     (cols X = cols W -> is_ok (reconstruct W Mat_empty X) = true)).
Proof.
  intros X W. split; [reflexivity|]. split; [reflexivity|].
  rewrite project_empty_mean, reconstruct_empty_mean.
  split; [|split].
  - intros Y HY. destruct (cols X =? 0); [discriminate|].
    apply gemm_no_C in HY. cbn in HY.
    destruct HY as (_ & _ & _ & Hr & Hc & Hcells).
    repeat split; try assumption.
    intros i j. now rewrite Hcells, fmul_one.
  - intros R HR. destruct (cols X =? 0); [discriminate|].
    apply gemm_no_C in HR. cbn in HR.
    destruct HR as (_ & _ & _ & Hr & Hc & Hcells).
    repeat split; try assumption.
    intros i j. now rewrite Hcells, fmul_one.
  - intros HX HW Hcol. apply Nat.eqb_neq in Hcol. rewrite Hcol.
    split; intros Hdim; now apply gemm_no_C_ok.
Qed.

End Transform.

Lemma Q_fmul_one (x : Q) : fmul fone x = x.
Proof. destruct x as [[|a|a] b]; reflexivity. Qed.

Lemma Q_fadd_zero (x : Q) : fadd fzero x = x.
Proof.
  destruct x as [a b]. cbn. unfold Qplus. cbn.
  now rewrite Z.mul_1_r.
Qed.

(** C4 over the rationals, at the basis [[1], [2]] and the sample
    [[3, 4]]. *)
Lemma LDA_transform_uncentered_witness :
  let this := mkLDA true 1 (Mat_of_rows 1 [[1]; [2]]%Q) (Mat_row [5%Q]) in
  let src := Mat_row [3; 4]%Q in
  exists Y, project (_eigenvectors this) Mat_empty src = Ok Y /\
            rows Y = 1 /\ cols Y = 1 /\
            mat_at Y 0 0 = dot src (_eigenvectors this) 0 0.
Proof.
  intros this src.
  destruct (@LDA_transform_uncentered Q _ Q_fmul_one this src)
    as (_ & _ & HY & _ & _).
  cbn in HY.
  exists (mkMat 1 1 1
            (fun i j => fmul fone (dot src (_eigenvectors this) i j))).
  split; [reflexivity|].
  destruct (HY _ eq_refl) as (Hr & Hc & Hcells).
  split; [exact Hr|]. split; [exact Hc|]. apply Hcells.
Defined.

(** C1 at its failing input, on doubles: the basis [[1], [1]] has D = 2
    rows, the mean [10, 20] has D = 2 elements, and the coefficient
    matrix [[1]] has one column.  The guard compares the mean's element
    count with that one column, so the mean is left out and the result
    is [[1, 1]], not [[11, 21]]. *)
Theorem reconstruct_mean_guard_at_coefficient_columns :
  let W := Mat_of_rows 1 [[1.0]; [1.0]]%float in
  let mean := Mat_row [10.0; 20.0]%float in
  let coefficients := Mat_row [1.0%float] in
  total mean = rows W /\
  cols coefficients <> total mean /\
  reconstruct W mean coefficients
    = gemm coefficients W fone Mat_empty fzero true /\
  cells (reconstruct W mean coefficients) = Ok [[1.0; 1.0]]%float.
Proof.
  intros W mean coefficients.
  split; [reflexivity|]. split; [cbn; lia|].
  split; [apply reconstruct_mean_skipped; cbn; lia|].
  vm_compute. reflexivity.
Qed.

(** The other side of the same guard: with a square basis the two counts
    agree and the mean is added. *)
Example reconstruct_square_basis_adds_mean :
  cells (reconstruct (Mat_of_rows 2 [[1.0; 0.0]; [0.0; 1.0]]%float)
           (Mat_row [10.0; 20.0]%float) (Mat_row [1.0; 2.0]%float))
  = Ok [[11.0; 22.0]]%float.
Proof. vm_compute. reflexivity. Qed.

(** And a mean with as many elements as there are coefficient columns,
    but fewer than D, makes [gemm] refuse the offset matrix. *)
Example reconstruct_short_mean_throws :
  reconstruct (Mat_of_rows 1 [[1.0]; [1.0]]%float)
              (Mat_row [10.0%float]) (Mat_row [1.0%float])
  = Err StsAssert.
Proof. reflexivity. Qed.

(* ================================================================== *)
(** * Loops, arrays and the label map *)

Lemma for_loop_S {S : Type} (n : nat) (body : S -> nat -> result S) (s0 : S) :
  for_loop (Datatypes.S n) body s0 = (s <- for_loop n body s0 ;; body s n).
Proof.
  unfold for_loop. rewrite seq_S, fold_left_app. reflexivity.
Qed.

(** A loop whose every turn succeeds and carries the invariant from [i]
    to [i + 1] runs to its end and establishes the invariant at [n]. *)
Lemma for_loop_inv {S : Type} (P : nat -> S -> Prop) (n : nat)
    (body : S -> nat -> result S) (s0 : S) :
  P 0 s0 ->
  (forall i s, i < n -> P i s ->
     exists s', body s i = Ok s' /\ P (Datatypes.S i) s') ->
  exists s, for_loop n body s0 = Ok s /\ P n s.
Proof.
  intros H0 Hstep. induction n as [|n IH].
  - exists s0. split; [reflexivity|exact H0].
  - destruct IH as (s & Hrun & Hs).
    { intros i s' Hi. apply Hstep. lia. }
    destruct (Hstep n s (Nat.lt_succ_diag_r n) Hs) as (s' & Hb & Hs').
    exists s'. rewrite for_loop_S, Hrun. cbn [bind]. split; assumption.
Qed.

Lemma list_set_length {A : Type} (k : nat) (v : A) (l : list A) :
  length (list_set k v l) = length l.
Proof.
  revert k; induction l as [|x l IH]; intros [|k]; cbn; try reflexivity.
  now rewrite IH.
Qed.

Lemma nth_list_set {A : Type} (k c : nat) (v d : A) (l : list A) :
  k < length l ->
  nth c (list_set k v l) d = if c =? k then v else nth c l d.
Proof.
  revert k c; induction l as [|x l IH]; intros k c Hk; cbn in Hk; [lia|].
  destruct k as [|k], c as [|c]; cbn; try reflexivity.
  apply IH. lia.
Qed.

Lemma map_get_set (m : list (Z * Z)) (k v k' : Z) :
  map_get (map_set m k v) k' = if (k =? k')%Z then v else map_get m k'.
Proof.
  induction m as [|[k0 v0] m IH]; cbn.
  - reflexivity.
  - destruct (k0 =? k)%Z eqn:H0; cbn.
    + apply Z.eqb_eq in H0. subst k0.
      destruct (k =? k')%Z; reflexivity.
    + destruct (k0 =? k')%Z eqn:H1.
      * apply Z.eqb_eq in H1. subst k0. now rewrite Z.eqb_sym, H0.
      * exact IH.
Qed.

Lemma label2num_upto_S (l : list Z) (n : nat) :
  label2num_upto l (S n) =
  map_set (label2num_upto l n) (nth n l 0%Z) (Z.of_nat n).
Proof.
  unfold label2num_upto. rewrite seq_S, fold_left_app. reflexivity.
Qed.

Lemma label2num_upto_nth (l : list Z) (n i : nat) :
  NoDup l -> n <= length l -> i < n ->
  map_get (label2num_upto l n) (nth i l 0%Z) = Z.of_nat i.
Proof.
  intros Hnd. induction n as [|n IH]; intros Hn Hi; [lia|].
  rewrite label2num_upto_S, map_get_set.
  destruct (Nat.eq_dec i n) as [->|Hne].
  - now rewrite Z.eqb_refl.
  - destruct (nth n l 0 =? nth i l 0)%Z eqn:Heq.
    + apply Z.eqb_eq in Heq.
      apply (proj1 (NoDup_nth l 0%Z) Hnd) in Heq; lia.
    + apply IH; lia.
Qed.

(** [label2num] sends the [i]-th distinct label to [i]. *)
Lemma label2num_of_nth (l : list Z) (i : nat) :
  NoDup l -> i < length l ->
  map_get (label2num_of l) (nth i l 0%Z) = Z.of_nat i.
Proof.
  intros Hnd Hi. apply (label2num_upto_nth (n := length l)); auto.
Qed.

Lemma remove_dups_NoDup (src : list Z) : NoDup (remove_dups src).
Proof.
  pose proof (remove_dups_StronglySorted src) as Hs.
  induction Hs as [|a l Hl IH Hall]; constructor; [|exact IH].
  intros Hin. rewrite Forall_forall in Hall.
  specialize (Hall a Hin). lia.
Qed.

(** It is the position of the sample's label among the distinct labels. *)
Lemma class_of_spec (labels : list Z) (r : nat) :
  r < length labels ->
  class_of labels r < length (remove_dups labels) /\
  nth (class_of labels r) (remove_dups labels) 0%Z = nth r labels 0%Z.
Proof.
  intros Hr. unfold class_of, mapped_labels_of.
  assert (Hin : In (nth r labels 0%Z) (remove_dups labels)).
  { apply remove_dups_In. now apply nth_In. }
  destruct (In_nth _ _ 0%Z Hin) as (c & Hc & Hnth).
  rewrite (nth_indep _ 0%Z (map_get (label2num_of (remove_dups labels)) 0%Z))
    by (now rewrite length_map).
  rewrite map_nth, <- Hnth.
  rewrite label2num_of_nth by (auto using remove_dups_NoDup).
  rewrite Nat2Z.id. split; [exact Hc|reflexivity].
Qed.

Lemma class_of_eqb (labels : list Z) (r c : nat) :
  r < length labels -> c < length (remove_dups labels) ->
  (class_of labels r =? c) =
  (nth r labels 0 =? nth c (remove_dups labels) 0)%Z.
Proof.
  intros Hr Hc. destruct (class_of_spec labels Hr) as [Hlt Hnth].
  destruct (Nat.eqb_spec (class_of labels r) c) as [Heq|Hne].
  - subst c. rewrite Hnth. now rewrite Z.eqb_refl.
  - symmetry. apply Z.eqb_neq. intros Heq. apply Hne.
    rewrite <- Hnth in Heq.
    apply (proj1 (NoDup_nth _ 0%Z) (remove_dups_NoDup labels)) in Heq;
      assumption.
Qed.

(* ================================================================== *)
(** * Class statistics and the scatter matrices *)

Section Scatter.

Context {T : Type} {ST : Scalar T}.

Lemma cv_add_ok (a b : Mat T) :
  rows a = rows b -> cols a = cols b -> channels a = channels b ->
  cv_add a b = Ok (mkMat (rows a) (cols a) (channels a)
                     (fun i j => fadd (mat_at a i j) (mat_at b i j))).
Proof.
  intros Hr Hc Hch. unfold cv_add, same_shape.
  now rewrite Hr, Hc, Hch, !Nat.eqb_refl.
Qed.

Lemma subtract_ok (a b : Mat T) :
  rows a = rows b -> cols a = cols b -> channels a = channels b ->
  subtract a b = Ok (mkMat (rows a) (cols a) (channels a)
                       (fun i j => fsub (mat_at a i j) (mat_at b i j))).
Proof.
  intros Hr Hc Hch. unfold subtract, same_shape.
  now rewrite Hr, Hc, Hch, !Nat.eqb_refl.
Qed.

Lemma nth_repeat_lt {A : Type} (x d : A) (n c : nat) :
  c < n -> nth c (List.repeat x n) d = x.
Proof.
  revert c; induction n as [|n IH]; intros c Hc; [lia|].
  destruct c as [|c]; cbn; [reflexivity|]. apply IH. lia.
Qed.

Lemma sum_list_snoc (l : list T) (x : T) :
  sum_list (l ++ [x]) = fadd (sum_list l) x.
Proof. unfold sum_list. now rewrite fold_left_app. Qed.

Lemma column_sum_snoc (data : Mat T) (rs : list nat) (r j : nat) :
  column_sum data (rs ++ [r]) j = fadd (column_sum data rs j) (mat_at data r j).
Proof. unfold column_sum. rewrite map_app. cbn [map]. apply sum_list_snoc. Qed.

Lemma filter_seq_S (p : nat -> bool) (n : nat) :
  filter p (seq 0 (S n)) =
  filter p (seq 0 n) ++ (if p n then [n] else []).
Proof. now rewrite seq_S, filter_app. Qed.

Lemma sums_loop (data : Mat T) (labels : list Z) :
  channels data = 1 -> length labels = rows data ->
  exists st,
    for_loop (rows data) (sums_body data (mapped_labels_of labels))
      (stats_init (length (remove_dups labels)) (cols data)) = Ok st /\
    sums_inv data labels (length (remove_dups labels)) (cols data)
      (rows data) st.
Proof.
  intros Hch Hlen.
  set (C := length (remove_dups labels)). set (D := cols data).
  apply (for_loop_inv (sums_inv data labels C D)).
  - unfold sums_inv, stats_init, is_row. cbn.
    rewrite !repeat_length.
    repeat split; try reflexivity.
    all: rewrite nth_repeat_lt by assumption; reflexivity.
  - intros i st Hi (Hmt & Hmtc & HlenM & HlenN & Hcls).
    unfold sums_body.
    change (Z.to_nat (nth i (mapped_labels_of labels) 0%Z))
      with (class_of labels i).
    assert (Hk : class_of labels i < C)
      by (apply class_of_spec; lia).
    destruct Hmt as (Hr & Hc & Hchm).
    destruct (Hcls _ Hk) as ((Hkr & Hkc & Hkch) & Hkcells & Hknum).
    rewrite cv_add_ok by (cbn; unfold D in *; congruence). cbn [bind].
    rewrite cv_add_ok by (cbn; unfold D in *; congruence). cbn [bind].
    eexists. split; [reflexivity|].
    unfold sums_inv, is_row. cbn [meanTotal meanClass numClass rows cols
                                   channels mat_at].
    rewrite !list_set_length.
    repeat split; try assumption.
    + intros j. rewrite seq_S, column_sum_snoc, Hmtc. reflexivity.
    + rewrite nth_list_set by lia.
      destruct (c =? class_of labels i); [assumption|]. now apply Hcls.
    + rewrite nth_list_set by lia.
      destruct (c =? class_of labels i); [assumption|]. now apply Hcls.
    + rewrite nth_list_set by lia.
      destruct (c =? class_of labels i); [assumption|]. now apply Hcls.
    + intros j. rewrite nth_list_set by lia. rewrite filter_seq_S.
      rewrite (Nat.eqb_sym (class_of labels i) c).
      destruct (Nat.eqb_spec c (class_of labels i)) as [->|Hne].
      * cbn [mat_at]. rewrite column_sum_snoc, Hkcells. reflexivity.
      * rewrite app_nil_r. now apply Hcls.
    + rewrite nth_list_set by lia. rewrite filter_seq_S.
      rewrite (Nat.eqb_sym (class_of labels i) c).
      destruct (Nat.eqb_spec c (class_of labels i)) as [->|Hne].
      * rewrite Hknum, length_app. cbn [length]. lia.
      * rewrite app_nil_r. now apply Hcls.
Qed.

Lemma means_loop (st1 : Stats T) :
  exists st,
    for_loop (length (meanClass st1)) means_body st1 = Ok st /\
    means_inv st1 (length (meanClass st1)) (length (meanClass st1)) st.
Proof.
  apply (for_loop_inv (means_inv st1 (length (meanClass st1)))).
  - repeat split.
  - intros i st Hi (Hmt & Hnum & Hlen & Hcls).
    unfold means_body. eexists. split; [reflexivity|].
    unfold means_inv. cbn [meanTotal meanClass numClass].
    rewrite list_set_length.
    repeat split; try assumption.
    intros c Hc. rewrite nth_list_set by lia.
    destruct (Nat.eqb_spec c i) as [->|Hne].
    + replace (i <? S i) with true by (symmetry; apply Nat.ltb_lt; lia).
      rewrite (Hcls i Hi), Nat.ltb_irrefl, Hnum. reflexivity.
    + rewrite (Hcls c Hc).
      destruct (Nat.ltb_spec c i), (Nat.ltb_spec c (S i));
        try reflexivity; lia.
Qed.

Lemma members_class_of (labels : list Z) (c : nat) :
  c < length (remove_dups labels) ->
  filter (fun r => class_of labels r =? c) (seq 0 (length labels)) =
  members labels c.
Proof.
  intros Hc. unfold members. apply filter_ext_in.
  intros r Hr. apply in_seq in Hr. apply class_of_eqb; [lia|assumption].
Qed.

(** [class_statistics] succeeds on single-channel data with one label
    per row; its rows are the overall mean and the class means. *)
Lemma class_statistics_ok (data : Mat T) (labels : list Z) :
  channels data = 1 -> length labels = rows data ->
  exists st,
    class_statistics data (mapped_labels_of labels) (rows data) (cols data)
      (length (remove_dups labels)) = Ok st /\
    is_row (cols data) (meanTotal st) /\
    (forall j, mat_at (meanTotal st) 0 j = mean_total data j) /\
    length (meanClass st) = length (remove_dups labels) /\
    forall c, c < length (remove_dups labels) ->
      is_row (cols data) (nth c (meanClass st) Mat_empty) /\
      (forall j, mat_at (nth c (meanClass st) Mat_empty) 0 j =
                 mean_class data labels c j).
Proof.
  intros Hch Hlen. unfold class_statistics.
  destruct (sums_loop data labels Hch Hlen)
    as (st0 & Hrun0 & Hmt & Hmtc & HlenM & HlenN & Hcls).
  rewrite Hrun0. cbn [bind].
  set (st1 := mkStats _ _ _).
  destruct (means_loop st1) as (st & Hrun & Hmt' & Hnum' & Hlen' & Hcls').
  cbn [st1 meanClass] in Hrun, Hlen', Hcls'.
  rewrite HlenM in Hrun, Hlen', Hcls'.
  exists st. split; [exact Hrun|].
  rewrite Hmt'. cbn [st1 meanTotal numClass meanClass] in *.
  destruct Hmt as (Hr & Hc & Hchm).
  split; [repeat split; assumption|].
  split.
  { intros j. cbn [convertTo_scale mat_at]. rewrite Hmtc. reflexivity. }
  split; [exact Hlen'|].
  intros c Hc'. rewrite (Hcls' c Hc').
  replace (c <? length (remove_dups labels)) with true
    by (symmetry; apply Nat.ltb_lt; exact Hc').
  destruct (Hcls c Hc') as ((Hkr & Hkc & Hkch) & Hkcells & Hknum).
  split; [repeat split; assumption|].
  intros j. cbn [convertTo_scale mat_at].
  rewrite Hkcells, Hknum, <- Hlen, members_class_of by exact Hc'.
  reflexivity.
Qed.

(** The loop "subtract class means" keeps the shape of the data. *)
Lemma center_loop (data : Mat T) (labels : list Z) (st : Stats T) :
  channels data = 1 -> length labels = rows data ->
  (forall c, c < length (remove_dups labels) ->
     is_row (cols data) (nth c (meanClass st) Mat_empty)) ->
  exists data',
    for_loop (rows data) (center_body (mapped_labels_of labels) st) data
      = Ok data' /\
    rows data' = rows data /\ cols data' = cols data /\ channels data' = 1.
Proof.
  intros Hch Hlen Hcls.
  apply (for_loop_inv
           (fun (_ : nat) d =>
              rows d = rows data /\ cols d = cols data /\ channels d = 1)).
  - repeat split; assumption.
  - intros i d Hi (Hr & Hc & Hchd). unfold center_body.
    change (Z.to_nat (nth i (mapped_labels_of labels) 0%Z))
      with (class_of labels i).
    assert (Hk : class_of labels i < length (remove_dups labels))
      by (apply class_of_spec; lia).
    destruct (Hcls _ Hk) as (Hkr & Hkc & Hkch).
    rewrite subtract_ok by (cbn; congruence). cbn [bind].
    eexists. split; [reflexivity|]. cbn. repeat split; assumption.
Qed.

Lemma Sb_loop (st : Stats T) (D C : nat) :
  is_row D (meanTotal st) ->
  (forall c, c < C -> is_row D (nth c (meanClass st) Mat_empty)) ->
  exists Sb, between_scatter st D C = Ok Sb /\ Sb_inv st D C Sb.
Proof.
  intros (Hr & Hc & Hch) Hcls. unfold between_scatter.
  apply (for_loop_inv (Sb_inv st D)).
  - repeat split.
  - intros i Sb Hi (HSr & HSc & HSch & Hcells). unfold Sb_body.
    destruct (Hcls i Hi) as (Hkr & Hkc & Hkch).
    rewrite subtract_ok by congruence. cbn [bind].
    unfold mulTransposed_aTa. cbn [channels cols]. rewrite Hkch.
    cbn [Nat.eqb bind].
    rewrite cv_add_ok by (cbn; congruence).
    eexists. split; [reflexivity|].
    unfold Sb_inv. cbn [rows cols channels mat_at].
    repeat split; try assumption.
    intros a b. rewrite seq_S, map_app. cbn [map]. rewrite sum_list_snoc.
    rewrite Hcells. f_equal.
    unfold dot. cbn [cols rows cv_transpose mat_at]. rewrite Hkr.
    reflexivity.
Qed.

(** [scatter] succeeds on single-channel data with one label per row and
    returns two single-channel D x D matrices; given 0 + x = x, the
    second one is the between-class scatter of the specification. *)
Lemma scatter_ok (data : Mat T) (labels : list Z) :
  channels data = 1 -> length labels = rows data ->
  exists Sw Sb,
    scatter data labels = Ok (Sw, Sb) /\
    (rows Sw = cols data /\ cols Sw = cols data /\ channels Sw = 1) /\
    (rows Sb = cols data /\ cols Sb = cols data /\ channels Sb = 1) /\
    ((forall x : T, fadd fzero x = x) ->
     forall i j, mat_at Sb i j = Sb_spec data labels i j).
Proof.
  intros Hch Hlen. unfold scatter.
  destruct (class_statistics_ok data labels Hch Hlen)
    as (st & Hst & Hmt & Hmtc & HlenM & Hcls).
  rewrite Hst. cbn [bind].
  destruct (center_loop data labels st Hch Hlen (fun c Hc => proj1 (Hcls c Hc)))
    as (data' & Hrun & Hr' & Hc' & Hch').
  rewrite Hrun. cbn [bind].
  unfold mulTransposed_aTa at 1. rewrite Hch'. cbn [Nat.eqb bind].
  destruct (Sb_loop st (D := cols data) (C := length (remove_dups labels)) Hmt
              (fun c Hc => proj1 (Hcls c Hc)))
    as (Sb & HSb & HSr & HSc & HSch & Hcells).
  rewrite HSb. cbn [bind].
  eexists. exists Sb. split; [reflexivity|].
  cbn [rows cols channels]. rewrite Hc'.
  repeat split; try assumption.
  intros Hzero i j. rewrite Hcells. unfold Sb_spec. f_equal.
  apply map_ext_in. intros c Hc. apply in_seq in Hc.
  rewrite Hzero, !Hmtc.
  rewrite !(proj2 (Hcls c (proj2 Hc))). reflexivity.
Qed.
(** The same without any law: every class enters the between-class
    matrix as the one-term product that [mulTransposed] accumulates from
    zero. *)
Lemma scatter_between_cells (data : Mat T) (labels : list Z) :
  channels data = 1 -> length labels = rows data ->
  exists Sw Sb,
    scatter data labels = Ok (Sw, Sb) /\
    (rows Sb = cols data /\ cols Sb = cols data) /\
    forall i j,
      mat_at Sb i j =
      sum_list
        (map (fun c =>
                fadd fzero
                  (fmul (fsub (mean_class data labels c i)
                              (mean_total data i))
                        (fsub (mean_class data labels c j)
                              (mean_total data j))))
             (seq 0 (length (remove_dups labels)))).
Proof.
  intros Hch Hlen. unfold scatter.
  destruct (class_statistics_ok data labels Hch Hlen)
    as (st & Hst & Hmt & Hmtc & HlenM & Hcls).
  rewrite Hst. cbn [bind].
  destruct (center_loop data labels st Hch Hlen (fun c Hc => proj1 (Hcls c Hc)))
    as (data' & Hrun & Hr' & Hc' & Hch').
  rewrite Hrun. cbn [bind].
  unfold mulTransposed_aTa at 1. rewrite Hch'. cbn [Nat.eqb bind].
  destruct (Sb_loop st (D := cols data) (C := length (remove_dups labels)) Hmt
              (fun c Hc => proj1 (Hcls c Hc)))
    as (Sb & HSb & HSr & HSc & HSch & Hcells).
  rewrite HSb. cbn [bind].
  eexists. exists Sb. split; [reflexivity|].
  split; [split; assumption|].
  intros i j. rewrite Hcells. f_equal.
  apply map_ext_in. intros c Hc. apply in_seq in Hc.
  rewrite !Hmtc, !(proj2 (Hcls c (proj2 Hc))). reflexivity.
Qed.
End Scatter.

(* ================================================================== *)
(** * Sums of doubles

    [mulTransposed] on a single row accumulates its one product from
    zero, so a class enters Sb as 0 + p rather than p.  On binary64 the
    two differ for p = -0 only, and a sum that starts from +0 does not
    see the difference: it never is -0. *)

Section FloatSums.

Local Open Scope Z_scope.

Lemma shr_1_lower (mrs : shr_record) (k : Z) :
  0 <= k -> 2 ^ (k + 1) <= shr_m mrs -> 2 ^ k <= shr_m (shr_1 mrs).
Proof.
  intros Hk H. destruct mrs as [m r s]. cbn [shr_m] in H.
  rewrite Z.pow_add_r, Z.pow_1_r in H by lia.
  assert (Hpos : 0 < 2 ^ k) by (apply Z.pow_pos_nonneg; lia).
  destruct m as [|[p|p|]|p]; cbn; lia.
Qed.

Lemma iter_shr_1_lower (p : positive) :
  forall (mrs : shr_record) (k : Z),
    0 <= k -> 2 ^ (k + Zpos p) <= shr_m mrs ->
    2 ^ k <= shr_m (iter_pos shr_1 p mrs).
Proof.
  induction p as [p IH|p IH|]; intros mrs k Hk H; cbn [iter_pos].
  - apply IH; [exact Hk|]. apply IH; [lia|]. apply shr_1_lower; [lia|].
    replace (k + Z.pos p + Z.pos p + 1) with (k + Z.pos p~1) by lia.
    exact H.
  - apply IH; [exact Hk|]. apply IH; [lia|].
    replace (k + Z.pos p + Z.pos p) with (k + Z.pos p~0) by lia.
    exact H.
  - now apply shr_1_lower.
Qed.

Lemma digits2_pos_lower (m : positive) :
  2 ^ (Zpos (digits2_pos m) - 1) <= Zpos m.
Proof.
  induction m as [m IH|m IH|]; cbn [digits2_pos].
  - rewrite Pos2Z.inj_succ.
    replace (Z.succ (Z.pos (digits2_pos m)) - 1)
      with (Z.succ (Z.pos (digits2_pos m) - 1)) by lia.
    rewrite Z.pow_succ_r by lia. lia.
  - rewrite Pos2Z.inj_succ.
    replace (Z.succ (Z.pos (digits2_pos m)) - 1)
      with (Z.succ (Z.pos (digits2_pos m) - 1)) by lia.
    rewrite Z.pow_succ_r by lia. lia.
  - cbn. lia.
Qed.

(** Rounding a positive mantissa whose exponent is not below the
    smallest one keeps it positive. *)
Lemma shr_fexp_positive (m : positive) (e : Z) (l : location) :
  -1074 <= e ->
  1 <= shr_m (fst (shr_fexp prec emax (Zpos m) e l)) /\
  -1074 <= snd (shr_fexp prec emax (Zpos m) e l).
Proof.
  intros He. unfold shr_fexp, shr, fexp, SpecFloat.emin, prec, emax.
  cbn [Zdigits2].
  pose proof (digits2_pos_lower m) as Hd.
  destruct (Z.max (Z.pos (digits2_pos m) + e - 53) (3 - 1024 - 53) - e)
    as [|p|p] eqn:Hn; cbn [fst snd].
  - split; [|exact He]. destruct l as [|[]]; cbn; lia.
  - split; [|lia].
    assert (Hp : Z.pos p = Z.pos (digits2_pos m) - 53) by lia.
    assert (H52 : 2 ^ 52 <= shr_m (iter_pos shr_1 p
                                     (shr_record_of_loc (Z.pos m) l))).
    { apply iter_shr_1_lower; [lia|].
      replace (52 + Z.pos p) with (Z.pos (digits2_pos m) - 1) by lia.
      destruct l as [|[]]; cbn [shr_record_of_loc shr_m]; exact Hd. }
    assert (0 < 2 ^ 52) by (apply Z.pow_pos_nonneg; lia). lia.
  - split; [|exact He]. destruct l as [|[]]; cbn; lia.
Qed.

Lemma binary_round_aux_not_zero (sx s : bool) (m : positive) (e : Z)
    (l : location) :
  -1074 <= e ->
  binary_round_aux prec emax sx (Zpos m) e l <> S754_zero s.
Proof.
  intros He. unfold binary_round_aux.
  destruct (@shr_fexp_positive m e l He) as [Hm1 He1].
  destruct (shr_fexp prec emax (Z.pos m) e l) as [mrs' e'].
  cbn [fst snd] in Hm1, He1.
  assert (Hr : 1 <= round_nearest_even (shr_m mrs') (loc_of_shr_record mrs')).
  { unfold round_nearest_even.
    destruct (loc_of_shr_record mrs') as [|[]]; try lia.
    destruct (Z.even (shr_m mrs')); lia. }
  destruct (round_nearest_even (shr_m mrs') (loc_of_shr_record mrs'))
    as [|m2|m2]; try lia.
  destruct (@shr_fexp_positive m2 e' loc_Exact He1) as [Hm2 _].
  destruct (shr_fexp prec emax (Z.pos m2) e' loc_Exact) as [mrs'' e''].
  cbn [fst] in Hm2.
  destruct (shr_m mrs'') as [|m3|m3]; try lia.
  destruct (e'' <=? emax - prec); discriminate.
Qed.

Lemma binary_round_not_zero (sx s : bool) (m : positive) (e : Z) :
  -1074 <= e -> binary_round prec emax sx m e <> S754_zero s.
Proof.
  intros He. unfold binary_round, shl_align.
  destruct (fexp prec emax (Z.pos (digits2_pos m) + e) - e) as [|d|d] eqn:Hd;
    try (now apply binary_round_aux_not_zero).
  apply binary_round_aux_not_zero.
  unfold fexp, SpecFloat.emin, prec, emax in *. lia.
Qed.

Lemma valid_binary_exponent (s : bool) (m : positive) (e : Z) :
  valid_binary (S754_finite s m e) = true -> -1074 <= e.
Proof.
  unfold valid_binary, SpecFloat.valid_binary, bounded, canonical_mantissa, fexp, SpecFloat.emin,
    prec, emax.
  intros H. apply andb_true_iff in H. destruct H as [H _].
  apply Z.eqb_eq in H. lia.
Qed.

(** A sum is -0 only when the first summand is. *)
Lemma SF64add_not_neg_zero (x y : spec_float) :
  valid_binary x = true -> valid_binary y = true ->
  x <> S754_zero true -> SF64add x y <> S754_zero true.
Proof.
  intros Hx Hy Hnz. unfold SF64add, SFadd.
  destruct x as [sx|sx| |sx mx ex], y as [sy|sy| |sy my ey];
    try discriminate; try exact Hnz.
  - destruct sx, sy; try discriminate. now contradiction Hnz.
  - destruct sx, sy; discriminate.
  - cbn zeta.
    apply valid_binary_exponent in Hx, Hy.
    unfold binary_normalize.
    destruct (cond_Zopp sx (Z.pos (fst (shl_align mx ex (Z.min ex ey)))) +
              cond_Zopp sy (Z.pos (fst (shl_align my ey (Z.min ex ey)))));
      [discriminate| |]; apply binary_round_not_zero; lia.
Qed.

(** Adding 0 + y instead of y makes no difference unless the first
    summand is -0. *)
Lemma SF64add_zero_inside (x y : spec_float) :
  x <> S754_zero true ->
  SF64add x (SF64add (S754_zero false) y) = SF64add x y.
Proof.
  intros Hnz. unfold SF64add, SFadd.
  destruct y as [sy|sy| |sy my ey]; try reflexivity.
  - destruct sy; [|reflexivity].
    destruct x as [sx|sx| |sx mx ex]; try reflexivity.
    destruct sx; [now contradiction Hnz|reflexivity].
Qed.

End FloatSums.

Lemma float_add_zero_inside (acc y : float) :
  not_neg_zero acc ->
  PrimFloat.add acc (PrimFloat.add PrimFloat.zero y) = PrimFloat.add acc y.
Proof.
  intros H. apply Prim2SF_inj. rewrite !add_spec.
  change (Prim2SF PrimFloat.zero) with (S754_zero false).
  now apply SF64add_zero_inside.
Qed.

Lemma float_add_not_neg_zero (acc y : float) :
  not_neg_zero acc -> not_neg_zero (PrimFloat.add acc y).
Proof.
  intros H. unfold not_neg_zero. rewrite add_spec.
  apply SF64add_not_neg_zero; auto using Prim2SF_valid.
Qed.

Lemma float_sum_zero_inside (A : Type) (g : A -> float) (l : list A) :
  forall acc, not_neg_zero acc ->
    fold_left PrimFloat.add
      (map (fun c => PrimFloat.add PrimFloat.zero (g c)) l) acc =
    fold_left PrimFloat.add (map g l) acc.
Proof.
  induction l as [|c l IH]; intros acc Hacc; cbn [map fold_left].
  - reflexivity.
  - rewrite float_add_zero_inside by exact Hacc.
    apply IH. now apply float_add_not_neg_zero.
Qed.

Lemma zero_not_neg_zero : not_neg_zero PrimFloat.zero.
Proof. unfold not_neg_zero. vm_compute. discriminate. Qed.

(** On doubles, a sum from zero of terms 0 + g c is the sum of the g c. *)
Lemma sum_list_zero_inside (A : Type) (g : A -> float) (l : list A) :
  sum_list (map (fun c => fadd fzero (g c)) l) = sum_list (map g l).
Proof.
  unfold sum_list.
  exact (@float_sum_zero_inside A g l PrimFloat.zero zero_not_neg_zero).
Qed.

(** C5: on every valid input of [compute] (single-channel samples of
    doubles, one label per row of the oriented sample matrix), the
    scatter step succeeds and its between-class matrix is, cell by cell,
    the sum over the classes of (mean_c - mean_total)(mean_c -
    mean_total)^T, each class entering once and without its sample count
    as a factor.  The statement is about binary64, the arithmetic that
    [compute] works in, and assumes no law of it. *)
Theorem between_scatter_unweighted
    (this : LDA float) (src : Mat float) (labels : list Z) :
  channels src = 1 ->
  length labels = rows (oriented this src) ->
  exists Sw Sb,
    scatter (oriented this src) labels = Ok (Sw, Sb) /\
    rows Sb = cols (oriented this src) /\
    cols Sb = cols (oriented this src) /\
    forall i j, mat_at Sb i j = Sb_spec (oriented this src) labels i j.
Proof.
  intros Hch Hlen.
  assert (Hch' : channels (oriented this src) = 1).
  { unfold oriented. destruct (_dataAsRow this); exact Hch. }
  destruct (scatter_between_cells (oriented this src) labels Hch' Hlen)
    as (Sw & Sb & Hrun & (Hr & Hc) & Hcells).
  exists Sw, Sb. repeat split; try assumption.
  intros i j. rewrite Hcells. unfold Sb_spec.
  apply (sum_list_zero_inside
           (fun c =>
              fmul (fsub (mean_class (oriented this src) labels c i)
                         (mean_total (oriented this src) i))
                   (fsub (mean_class (oriented this src) labels c j)
                         (mean_total (oriented this src) j)))).
Qed.

(** C5 on doubles: four one-dimensional samples, three in the one class
    and one in the other. *)
Lemma between_scatter_unweighted_witness :
  exists Sw Sb,
    scatter (oriented (LDA_new 0 true)
               (Mat_of_rows 1 [[0.0]; [10.0]; [11.0]; [12.0]]%float))
            [3; 7; 7; 7]%Z = Ok (Sw, Sb) /\
    rows Sb = cols (oriented (LDA_new 0 true)
                      (Mat_of_rows 1 [[0.0]; [10.0]; [11.0]; [12.0]]%float)) /\
    cols Sb = cols (oriented (LDA_new 0 true)
                      (Mat_of_rows 1 [[0.0]; [10.0]; [11.0]; [12.0]]%float)) /\
    forall i j,
      mat_at Sb i j =
      Sb_spec (oriented (LDA_new 0 true)
                 (Mat_of_rows 1 [[0.0]; [10.0]; [11.0]; [12.0]]%float))
              [3; 7; 7; 7]%Z i j.
Proof.
  apply (@between_scatter_unweighted (LDA_new 0 true)
           (Mat_of_rows 1 [[0.0]; [10.0]; [11.0]; [12.0]]%float)
           [3; 7; 7; 7]%Z).
  - reflexivity.
  - reflexivity.
Defined.

(** The value on that input: the class means are 11 and 0, the overall
    mean is 8.25, and Sb is (11 - 8.25)^2 + (0 - 8.25)^2 = 75.625, the
    two classes weighing the same. *)
Example between_scatter_unbalanced_classes :
  cells (S <- scatter (Mat_of_rows 1 [[0.0]; [10.0]; [11.0]; [12.0]]%float)
                      [3; 7; 7; 7]%Z ;;
         Ok (snd S))
  = Ok [[75.625]]%float.
Proof. vm_compute. reflexivity. Qed.

(** Two samples whose first feature agrees: the first class enters cell
    (0, 1) with the product (+0)(-1) = -0, which [mulTransposed] turns
    into 0 + -0 = +0, and the sum is the same +0 either way. *)
Example between_scatter_negative_zero_term :
  let data := Mat_of_rows 2 [[1.0; 0.0]; [1.0; 2.0]]%float in
  let labels := [0; 1]%Z in
  let p := fmul (fsub (mean_class data labels 0 0) (mean_total data 0))
                (fsub (mean_class data labels 0 1) (mean_total data 1)) in
  Prim2SF p = S754_zero true /\
  Prim2SF (fadd fzero p) = S754_zero false /\
  Prim2SF (Sb_spec data labels 0 1) = S754_zero false /\
  cells (S <- scatter data labels ;; Ok (snd S))
  = Ok [[0.0; 0.0]; [0.0; 2.0]]%float.
Proof. vm_compute. repeat split; reflexivity. Qed.

(* ================================================================== *)
(** * Sorting *)

Section Sorting.

Context {A : Type}.

Lemma insert_by_perm (less : A -> A -> bool) (x : A) (l : list A) :
  Permutation (insert_by less x l) (x :: l).
Proof.
  induction l as [|y t IH]; cbn; [reflexivity|].
  destruct (less y x); [|reflexivity].
  rewrite IH. apply perm_swap.
Qed.

Lemma std_sort_perm (less : A -> A -> bool) (l : list A) :
  Permutation (std_sort less l) l.
Proof.
  induction l as [|x t IH]; cbn; [reflexivity|].
  rewrite insert_by_perm. now constructor.
Qed.

(** With an asymmetric comparison, no element of the sorted sequence is
    less than its predecessor. *)
Lemma insert_by_Sorted (less : A -> A -> bool) (x : A) (l : list A) :
  (forall a b, less a b = true -> less b a = false) ->
  Sorted (fun a b => less b a = false) l ->
  Sorted (fun a b => less b a = false) (insert_by less x l).
Proof.
  intros Hasym. induction 1 as [|y t Ht IH Hhd]; cbn.
  - repeat constructor.
  - destruct (less y x) eqn:Hyx.
    + constructor; [exact IH|].
      destruct t as [|z t']; cbn.
      * constructor. now apply Hasym.
      * inversion Hhd; subst.
        destruct (less z x); constructor; [assumption|now apply Hasym].
    + repeat constructor; assumption.
Qed.

Lemma std_sort_Sorted (less : A -> A -> bool) (l : list A) :
  (forall a b, less a b = true -> less b a = false) ->
  Sorted (fun a b => less b a = false) (std_sort less l).
Proof.
  intros Hasym. induction l as [|x t IH]; cbn; [constructor|].
  now apply insert_by_Sorted.
Qed.

(** Sortedness, position by position. *)
Lemma Sorted_of_nth (R : A -> A -> Prop) (d : A) (l : list A) :
  (forall i, S i < length l -> R (nth i l d) (nth (S i) l d)) ->
  Sorted R l.
Proof.
  induction l as [|x t IH]; intros H; constructor.
  - apply IH. intros i Hi. apply (H (S i)). cbn. lia.
  - destruct t as [|y t']; constructor.
    apply (H 0). cbn. lia.
Qed.

Lemma Sorted_nth (R : A -> A -> Prop) (d : A) (l : list A) :
  Sorted R l ->
  forall i, S i < length l -> R (nth i l d) (nth (S i) l d).
Proof.
  induction 1 as [|x t Ht IH Hhd]; intros i Hi; cbn in Hi; [lia|].
  destruct i as [|i].
  - destruct t as [|y t']; cbn in *; [lia|]. now inversion Hhd.
  - apply IH. lia.
Qed.

Lemma Sorted_rev (R : A -> A -> Prop) (l : list A) :
  Sorted R l -> Sorted (fun a b => R b a) (rev l).
Proof.
  intros Hs. destruct l as [|d l']; [constructor|].
  set (l := d :: l') in *.
  apply (Sorted_of_nth _ d). intros i Hi. rewrite length_rev in Hi.
  rewrite !rev_nth by lia.
  replace (length l - S i) with (S (length l - S (S i))) by lia.
  apply Sorted_nth; [exact Hs|lia].
Qed.

End Sorting.

Section SortIdx.

Context {T : Type} {ST : Scalar T}.

Lemma sortIdx_row_positions (vals : list T) (descending : bool) :
  sortIdx_row vals descending = map Z.of_nat (sorted_positions vals descending).
Proof. reflexivity. Qed.

Lemma sorted_positions_perm (vals : list T) (descending : bool) :
  Permutation (sorted_positions vals descending) (seq 0 (length vals)).
Proof.
  unfold sorted_positions. destruct descending.
  - rewrite <- Permutation_rev. apply std_sort_perm.
  - apply std_sort_perm.
Qed.

Lemma sorted_positions_length (vals : list T) (descending : bool) :
  length (sorted_positions vals descending) = length vals.
Proof.
  rewrite (Permutation_length (sorted_positions_perm vals descending)).
  apply length_seq.
Qed.

Lemma sorted_positions_range (vals : list T) (descending : bool) :
  Forall (fun p => p < length vals) (sorted_positions vals descending).
Proof.
  apply Forall_forall. intros p Hp.
  apply (Permutation_in _ (sorted_positions_perm vals descending)) in Hp.
  apply in_seq in Hp. lia.
Qed.

Lemma sortIdx_row_length (vals : list T) (descending : bool) :
  length (sortIdx_row vals descending) = length vals.
Proof.
  rewrite sortIdx_row_positions, length_map. apply sorted_positions_length.
Qed.

Lemma sortIdx_row_range (vals : list T) (descending : bool) :
  Forall (fun x => (0 <= x < Z.of_nat (length vals))%Z)
         (sortIdx_row vals descending).
Proof.
  rewrite sortIdx_row_positions. apply Forall_map.
  eapply Forall_impl; [|apply sorted_positions_range].
  cbn. intros p Hp. lia.
Qed.

(** Descending: along the index row, no value is less than the next. *)
Lemma sorted_positions_descending (vals : list T) :
  (forall a b : T, flt a b = true -> flt b a = false) ->
  Sorted (fun p q => flt (nth p vals fzero) (nth q vals fzero) = false)
         (sorted_positions vals true).
Proof.
  intros Hasym. unfold sorted_positions.
  apply (Sorted_rev
           (R := fun a b => flt (nth b vals fzero) (nth a vals fzero) = false)).
  apply (std_sort_Sorted
           (fun a b => flt (nth a vals fzero) (nth b vals fzero))).
  intros a b. apply Hasym.
Qed.

(** [argsort] on a single-channel row. *)
Lemma argsort_row (m : Mat T) (ascending : bool) :
  rows m = 1 -> channels m = 1 ->
  argsort m ascending = Ok (sortIdx_row (row_list m 0) (negb ascending)).
Proof.
  intros Hr Hch. unfold argsort, reshape_1_1.
  rewrite Hr, Hch. reflexivity.
Qed.

Lemma reshape_1_1_shape (m r : Mat T) :
  reshape_1_1 m = Ok r ->
  rows r = 1 /\ channels r = 1 /\
  cols r = (if rows m =? 1 then cols m else total m).
Proof.
  unfold reshape_1_1. intros H.
  destruct (channels m =? 1) eqn:Hch; [|discriminate]. cbn in H.
  apply Nat.eqb_eq in Hch.
  destruct (rows m =? 1) eqn:Hr.
  - inversion H; subst. apply Nat.eqb_eq in Hr. auto.
  - destruct (total m =? 0); [discriminate|].
    inversion H; subst. cbn. auto.
Qed.

Lemma row_list_length (m : Mat T) (i : nat) : length (row_list m i) = cols m.
Proof. unfold row_list. now rewrite length_map, length_seq. Qed.

Lemma row_list_nth (m : Mat T) (i j : nat) :
  j < cols m -> nth j (row_list m i) fzero = mat_at m i j.
Proof.
  intros Hj. unfold row_list.
  rewrite (nth_indep _ fzero (mat_at m i 0))
    by (now rewrite length_map, length_seq).
  rewrite map_nth, seq_nth by assumption. reflexivity.
Qed.

Lemma colRange_prefix (m r : Mat T) (k : Z) :
  colRange m 0 k = Ok r ->
  (0 <= k <= Z.of_nat (cols m))%Z /\
  rows r = rows m /\ cols r = Z.to_nat k /\ channels r = channels m /\
  forall i j, mat_at r i j = mat_at m i j.
Proof.
  unfold colRange. intros H.
  destruct ((0 <=? 0)%Z && (0 <=? k)%Z && (k <=? Z.of_nat (cols m))%Z)%bool
    eqn:Hb; [|discriminate].
  inversion H; subst. cbn.
  rewrite !andb_true_iff, !Z.leb_le in Hb.
  rewrite Z.sub_0_r. repeat split; try reflexivity; lia.
Qed.

Lemma colRange_prefix_ok (m : Mat T) (k : Z) :
  (0 <= k <= Z.of_nat (cols m))%Z -> is_ok (colRange m 0 k) = true.
Proof.
  intros Hk. unfold colRange.
  replace ((0 <=? 0)%Z && (0 <=? k)%Z && (k <=? Z.of_nat (cols m))%Z)%bool
    with true; [reflexivity|].
  symmetry. rewrite !andb_true_iff, !Z.leb_le. lia.
Qed.

End SortIdx.

(* ================================================================== *)
(** * LDA::compute, step by step *)

Section ComputeRun.

Context {T : Type} {ST : Scalar T}.

Lemma m_bind_get {B : Type} (k : LDA T -> Method T B) (this : LDA T) :
  m_bind m_get k this = k this this.
Proof. reflexivity. Qed.

Lemma m_bind_lift_ok {A B : Type} (a : A) (k : A -> Method T B)
    (this : LDA T) :
  m_bind (m_lift (Ok a)) k this = k a this.
Proof. reflexivity. Qed.

Lemma m_bind_lift_inv {A B : Type} (r : result A) (k : A -> Method T B)
    (this this' : LDA T) (v : B) :
  m_bind (m_lift r) k this = (this', Ok v) ->
  exists a, r = Ok a /\ k a this = (this', Ok v).
Proof.
  unfold m_bind, m_lift. destruct r as [a|e]; intros H.
  - exists a. split; [reflexivity|exact H].
  - discriminate H.
Qed.

Lemma m_bind_set_num_components {B : Type} (n : Z) (k : unit -> Method T B)
    (this : LDA T) :
  m_bind (set_num_components n) k this =
  k tt (mkLDA (_dataAsRow this) n (_eigenvectors this) (_eigenvalues this)).
Proof. reflexivity. Qed.

Lemma m_bind_set_eigenvalues {B : Type} (m : Mat T) (k : unit -> Method T B)
    (this : LDA T) :
  m_bind (set_eigenvalues m) k this =
  k tt (mkLDA (_dataAsRow this) (_num_components this) (_eigenvectors this) m).
Proof. reflexivity. Qed.

Lemma m_bind_set_eigenvectors {B : Type} (m : Mat T) (k : unit -> Method T B)
    (this : LDA T) :
  m_bind (set_eigenvectors m) k this =
  k tt (mkLDA (_dataAsRow this) (_num_components this) m (_eigenvalues this)).
Proof. reflexivity. Qed.

Ltac step_inv H x Hx :=
  apply m_bind_lift_inv in H; destruct H as (x & Hx & H).

Lemma compute_inv (E : External T) (this this' : LDA T) (src : Mat T)
    (labels : list Z) :
  compute E src labels this = (this', Ok tt) ->
  ComputeTrace E this src labels this'.
Proof.
  intros H. unfold compute in H.
  rewrite m_bind_get in H.
  destruct (channels src =? 1) eqn:Hch; cbn [negb] in H; [|discriminate H].
  destruct (length labels =?
            rows (if _dataAsRow this then src else transpose src)) eqn:Hlen;
    cbn [negb] in H; [|discriminate H].
  rewrite m_bind_set_num_components in H.
  step_inv H Sc HS. destruct Sc as [Sw Sb]. cbn [fst snd] in H.
  step_inv H M HM.
  rewrite m_bind_set_eigenvalues, m_bind_set_eigenvectors, m_bind_get in H.
  cbn [_num_components _dataAsRow _eigenvectors _eigenvalues] in H.
  step_inv H ev0 Hev0.
  rewrite m_bind_set_eigenvalues, m_bind_get in H.
  cbn [_num_components _dataAsRow _eigenvectors _eigenvalues] in H.
  step_inv H idxs Hidxs.
  step_inv H ev1 Hev1.
  rewrite m_bind_set_eigenvalues, m_bind_get in H.
  cbn [_num_components _dataAsRow _eigenvectors _eigenvalues] in H.
  step_inv H evec1 Hevec1.
  rewrite m_bind_set_eigenvectors, m_bind_get in H.
  cbn [_num_components _dataAsRow _eigenvectors _eigenvalues] in H.
  step_inv H ev2 Hev2.
  rewrite m_bind_set_eigenvalues, m_bind_get in H.
  cbn [_num_components _dataAsRow _eigenvectors _eigenvalues] in H.
  step_inv H evec2 Hevec2.
  unfold set_eigenvectors in H.
  cbn [_num_components _dataAsRow _eigenvectors _eigenvalues] in H.
  apply Nat.eqb_eq in Hch, Hlen.
  eapply mkTrace; try eassumption.
  now inversion H.
Qed.

Lemma compute_intro (E : External T) (this : LDA T) (src : Mat T)
    (labels : list Z) (Sw Sb M ev0 ev1 evec1 ev2 evec2 : Mat T)
    (idxs : list Z) :
  let n := clip_components (_num_components this)
             (length (remove_dups labels)) in
  channels src = 1 ->
  length labels = rows (oriented this src) ->
  scatter (oriented this src) labels = Ok (Sw, Sb) ->
  gemm (ext_inv E Sw) Sb fone Mat_empty fzero false = Ok M ->
  reshape_1_1 (fst (ext_eigen E M)) = Ok ev0 ->
  argsort ev0 false = Ok idxs ->
  sortMatrixByColumn ev0 idxs (ext_alloc E 0) = Ok ev1 ->
  sortMatrixByColumn (snd (ext_eigen E M)) idxs (ext_alloc E 1) = Ok evec1 ->
  colRange ev1 0 n = Ok ev2 ->
  colRange evec1 0 n = Ok evec2 ->
  compute E src labels this = (mkLDA (_dataAsRow this) n evec2 ev2, Ok tt).
Proof.
  intros n Hch Hlen HS HM Hev0 Hidxs Hev1 Hevec1 Hev2 Hevec2.
  unfold compute, oriented in *.
  rewrite m_bind_get, Hch, Hlen, !Nat.eqb_refl. cbn [negb].
  rewrite m_bind_set_num_components, HS, m_bind_lift_ok. cbn [fst snd].
  rewrite HM, m_bind_lift_ok.
  rewrite m_bind_set_eigenvalues, m_bind_set_eigenvectors, m_bind_get.
  cbn [_num_components _dataAsRow _eigenvectors _eigenvalues].
  rewrite Hev0, m_bind_lift_ok, m_bind_set_eigenvalues, m_bind_get.
  cbn [_num_components _dataAsRow _eigenvectors _eigenvalues].
  rewrite Hidxs, m_bind_lift_ok, Hev1, m_bind_lift_ok.
  rewrite m_bind_set_eigenvalues, m_bind_get.
  cbn [_num_components _dataAsRow _eigenvectors _eigenvalues].
  rewrite Hevec1, m_bind_lift_ok, m_bind_set_eigenvectors, m_bind_get.
  cbn [_num_components _dataAsRow _eigenvectors _eigenvalues].
  fold n. rewrite Hev2, m_bind_lift_ok, m_bind_set_eigenvalues, m_bind_get.
  cbn [_num_components _dataAsRow _eigenvectors _eigenvalues].
  rewrite Hevec2, m_bind_lift_ok.
  reflexivity.
Qed.

End ComputeRun.

(* ================================================================== *)
(** * The learned subspace after a compute that returns *)

Section Learned.

Context {T : Type} {ST : Scalar T}.

(** The eigenvalue row that a returning [compute] stores: its length is
    the stored count, and cell [i] is the eigenvalue at the [i]-th
    position of the descending index row. *)
Lemma compute_eigenvalues (E : External T) (this this' : LDA T)
    (src : Mat T) (labels : list Z) :
  compute E src labels this = (this', Ok tt) ->
  exists ev0,
    rows ev0 = 1 /\
    rows (_eigenvalues this') = 1 /\
    cols (_eigenvalues this') = Z.to_nat (_num_components this') /\
    cols (_eigenvalues this') <= cols ev0 /\
    forall i, i < cols (_eigenvalues this') ->
      mat_at (_eigenvalues this') 0 i =
      nth (nth i (sorted_positions (row_list ev0 0) true) 0)
          (row_list ev0 0) fzero.
Proof.
  intros H. apply compute_inv in H.
  destruct H
    as [Sw Sb M ev0 ev1 evec1 ev2 evec2 idxs Hch Hlen HS HM Hev0 Hidx
        Hev1 Hevec1 Hev2 Hevec2 Hfin].
  pose proof Hev0 as Hshape. apply reshape_1_1_shape in Hshape.
  destruct Hshape as (Hr0 & Hch0 & _).
  rewrite (argsort_row ev0 false Hr0 Hch0) in Hidx. cbn [negb] in Hidx.
  inversion Hidx as [Hidxs]; clear Hidx.
  set (vals := row_list ev0 0) in *.
  assert (Hlenidx : length idxs = cols ev0).
  { rewrite <- Hidxs, sortIdx_row_length. apply row_list_length. }
  destruct (@sortMatrixByColumn_run _ _ ev0 idxs (ext_alloc E 0))
    as (dst & Hdst & Hdr & Hdc & _ & Hcells).
  { lia. }
  { rewrite <- Hidxs. unfold vals.
    rewrite <- (row_list_length ev0 0). apply sortIdx_row_range. }
  rewrite Hev1 in Hdst. inversion Hdst; subst dst; clear Hdst.
  apply colRange_prefix in Hev2.
  destruct Hev2 as (Hn & Hr2 & Hc2 & _ & Hcells2).
  exists ev0. subst this'. cbn [_eigenvalues _num_components].
  split; [exact Hr0|]. split; [congruence|]. split; [exact Hc2|].
  split; [lia|].
  intros i Hi. rewrite Hcells2, Hcells.
  replace (i <? length idxs) with true by (symmetry; apply Nat.ltb_lt; lia).
  rewrite <- Hidxs, sortIdx_row_positions.
  change 0%Z with (Z.of_nat 0). rewrite map_nth, Nat2Z.id.
  symmetry. apply row_list_nth.
  rewrite <- (row_list_length ev0 0).
  pose proof (sorted_positions_range vals true) as Hrange.
  rewrite Forall_forall in Hrange. apply Hrange. apply nth_In.
  rewrite sorted_positions_length. unfold vals. rewrite row_list_length. lia.
Qed.

Lemma after_call_same (this : LDA T) (c : Call T) : after_call this c = this.
Proof. destruct c; reflexivity. Qed.

Lemma after_calls_same (this : LDA T) (cs : list (Call T)) :
  after_calls this cs = this.
Proof.
  unfold after_calls. revert this.
  induction cs as [|c cs IH]; intros this; cbn; [reflexivity|].
  now rewrite after_call_same.
Qed.

Lemma compute_eigenvalues_sorted (E : External T) (this this' : LDA T)
    (src : Mat T) (labels : list Z) :
  (forall a b : T, flt a b = true -> flt b a = false) ->
  compute E src labels this = (this', Ok tt) ->
  non_increasing (row_list (_eigenvalues this') 0).
Proof.
  intros Hasym H.
  apply compute_eigenvalues in H.
  destruct H as (ev0 & _ & _ & _ & Hle & Hcells).
  apply (Sorted_of_nth _ fzero). intros i Hi.
  rewrite row_list_length in Hi.
  rewrite !row_list_nth, !Hcells by lia.
  apply (Sorted_nth 0 (sorted_positions_descending (row_list ev0 0) Hasym)).
  rewrite sorted_positions_length, row_list_length. lia.
Qed.

(** C6: after every [compute] that returns, the row that [eigenvalues()]
    yields is non-increasing (no entry is less than its successor), and
    it is still so after any sequence of [project], [reconstruct],
    [eigenvectors] and [eigenvalues] calls, returning or throwing, since
    these leave the instance as it is.  The premise is that [<] on the
    scalars is asymmetric; if moreover "not less" is transitive, the row
    is non-increasing between any two positions. *)
Theorem eigenvalues_non_increasing
    (flt_asym : forall a b : T, flt a b = true -> flt b a = false)
    (E : External T) (this this' : LDA T) (src : Mat T) (labels : list Z)
    (calls : list (Call T)) :
  compute E src labels this = (this', Ok tt) ->
  exists ev,
    LDA_eigenvalues (after_calls this' calls) = (this', Ok ev) /\
    rows ev = 1 /\
    non_increasing (row_list ev 0) /\
    ((forall a b c : T, flt a b = false -> flt b c = false ->
                        flt a c = false) ->
     strongly_non_increasing (row_list ev 0)).
Proof.
  intros H. exists (_eigenvalues this').
  rewrite after_calls_same.
  split; [reflexivity|].
  pose proof H as Hshape. apply compute_eigenvalues in Hshape.
  destruct Hshape as (? & _ & Hr & _).
  split; [exact Hr|].
  assert (Hs : non_increasing (row_list (_eigenvalues this') 0))
    by (eapply compute_eigenvalues_sorted; eassumption).
  split; [exact Hs|].
  intros Htrans. apply Sorted_StronglySorted; [|exact Hs].
  intros a b c. apply Htrans.
Qed.

End Learned.

Lemma Q_flt_asym (a b : Q) : flt a b = true -> flt b a = false.
Proof.
  cbn. intros H. apply negb_true_iff in H. apply negb_false_iff.
  apply Qle_bool_iff. apply Qlt_le_weak. apply Qnot_le_lt.
  intros Hle. apply Qle_bool_iff in Hle. congruence.
Qed.

Lemma Q_flt_negtrans (a b c : Q) :
  flt a b = false -> flt b c = false -> flt a c = false.
Proof.
  cbn. rewrite !negb_false_iff, !Qle_bool_iff.
  intros Hba Hcb. now apply (Qle_trans _ b).
Qed.

Example three_classes_scatter :
  bind (scatter three_classes_Q three_classes_labels)
       (fun S => Ok (map (map Qred) (to_lists (fst S)),
                     map (map Qred) (to_lists (snd S))))
  = Ok ([[12; 0]; [0; 3]]%Q, [[2; 0]; [0; 6]]%Q).
Proof. vm_compute. reflexivity. Qed.

Example three_classes_compute :
  let run := compute External_diag three_classes_Q three_classes_labels
               (LDA_new 0 true) in
  snd run = Ok tt /\
  _num_components (fst run) = 2%Z /\
  map (map Qred) (to_lists (_eigenvalues (fst run))) = [[2; 1 # 6]]%Q /\
  map (map Qred) (to_lists (_eigenvectors (fst run))) = [[0; 1]; [1; 0]]%Q.
Proof. vm_compute. repeat split; reflexivity. Qed.

(** The same run on doubles, then a projection of the first sample and
    of a reconstruction: the learned directions are the two axes in
    swapped order, and neither call centres anything. *)
Example three_classes_compute_double :
  let run := compute External_diag three_classes_double three_classes_labels
               (LDA_new 0 true) in
  snd run = Ok tt /\
  to_lists (_eigenvalues (fst run)) = [[2; 1 / 6]]%float /\
  to_lists (_eigenvectors (fst run)) = [[0; 1]; [1; 0]]%float /\
  cells (snd (LDA_project (Mat_row [12.0; 11.5]%float) (fst run)))
    = Ok [[11.5; 12.0]]%float /\
  cells (snd (LDA_reconstruct (Mat_row [11.5; 12.0]%float) (fst run)))
    = Ok [[12.0; 11.5]]%float.
Proof. vm_compute. repeat split; reflexivity. Qed.

Lemma returned_pair {A B : Type} (p : A * result B) (v : B) :
  snd p = Ok v -> p = (fst p, Ok v).
Proof. intros H. rewrite <- H. apply surjective_pairing. Qed.

(** C6 on that input, followed by a projection, a reconstruction that
    throws and the two accessors. *)
Lemma eigenvalues_non_increasing_witness :
  exists ev,
    LDA_eigenvalues
      (after_calls (fst three_classes_run)
         [CallProject three_classes_Q; CallReconstruct three_classes_Q;
          CallEigenvectors; CallEigenvalues])
    = (fst three_classes_run, Ok ev) /\
    rows ev = 1 /\
    non_increasing (row_list ev 0) /\
    strongly_non_increasing (row_list ev 0).
Proof.
  assert (Hsnd : snd three_classes_run = Ok tt) by (vm_compute; reflexivity).
  pose proof (@eigenvalues_non_increasing Q _ Q_flt_asym External_diag
              (LDA_new 0 true) (fst three_classes_run) three_classes_Q
              three_classes_labels
              [CallProject three_classes_Q; CallReconstruct three_classes_Q;
               CallEigenvectors; CallEigenvalues]
              (returned_pair three_classes_run Hsnd)) as Hthm.
  destruct Hthm as (ev & Hev & Hr & Hs & Hss).
  exists ev. split; [exact Hev|]. split; [exact Hr|]. split; [exact Hs|].
  apply Hss. exact Q_flt_negtrans.
Defined.

(* ================================================================== *)
(** * When compute returns, and with how many components *)

Section ComponentCount.

Context {T : Type} {ST : Scalar T}.

Lemma gemm_no_C_eq (A B : Mat T) (alpha beta : T) :
  channels A = 1 -> channels B = 1 -> cols A = rows B ->
  gemm A B alpha Mat_empty beta false =
  Ok (mkMat (rows A) (cols B) 1 (fun i j => fmul alpha (dot A B i j))).
Proof.
  intros HA HB HAB. unfold gemm.
  rewrite HA, HB, HAB, !Nat.eqb_refl. reflexivity.
Qed.

Lemma reshape_1_1_ok (m : Mat T) :
  channels m = 1 -> total m <> 0 ->
  exists r, reshape_1_1 m = Ok r /\
            rows r = 1 /\ channels r = 1 /\ cols r = total m.
Proof.
  intros Hch Htot. unfold reshape_1_1. rewrite Hch. cbn [Nat.eqb negb].
  destruct (Nat.eqb_spec (rows m) 1) as [Hr|Hr].
  - exists m. unfold total. rewrite Hr. repeat split; try assumption. lia.
  - apply Nat.eqb_neq in Htot. rewrite Htot.
    eexists. split; [reflexivity|]. repeat split.
Qed.

Lemma colRange_prefix_ex (m : Mat T) (k : Z) :
  (0 <= k <= Z.of_nat (cols m))%Z ->
  exists r, colRange m 0 k = Ok r /\ cols r = Z.to_nat k.
Proof.
  intros Hk. pose proof (colRange_prefix_ok m Hk) as Hok.
  destruct (colRange m 0 k) as [r|e] eqn:Hr; [|discriminate Hok].
  exists r. split; [reflexivity|].
  apply colRange_prefix in Hr. tauto.
Qed.

Lemma clip_components_min (requested : Z) (C : nat) :
  clip_components requested C =
  if (requested <=? 0)%Z then (Z.of_nat C - 1)%Z
  else Z.min requested (Z.of_nat C - 1).
Proof.
  unfold clip_components.
  destruct (Z.leb_spec requested 0); cbn [orb]; [reflexivity|].
  rewrite Z.gtb_ltb.
  destruct (Z.ltb_spec (Z.of_nat C - 1) requested); lia.
Qed.

Lemma clip_components_pos (requested : Z) (C : nat) :
  2 <= C -> (1 <= clip_components requested C)%Z.
Proof.
  intros HC. rewrite clip_components_min.
  destruct (Z.leb_spec requested 0); lia.
Qed.

(** With a solver that keeps the shapes, [compute] returns on every
    single-channel input with one label per sample and at least two
    classes whose clipped count does not exceed the feature dimension D,
    and it stores that many columns. *)
Lemma compute_returns (E : External T) (this : LDA T) (src : Mat T)
    (labels : list Z) :
  solver_ok E ->
  channels src = 1 ->
  length labels = rows (oriented this src) ->
  2 <= length (remove_dups labels) ->
  (clip_components (_num_components this) (length (remove_dups labels))
   <= Z.of_nat (cols (oriented this src)))%Z ->
  exists this',
    compute E src labels this = (this', Ok tt) /\
    _num_components this' =
      clip_components (_num_components this) (length (remove_dups labels)) /\
    cols (_eigenvectors this') = Z.to_nat (_num_components this') /\
    cols (_eigenvalues this') = Z.to_nat (_num_components this').
Proof.
  intros [Hinv Heig] Hch Hlen HC HD.
  set (data := oriented this src) in *.
  set (n := clip_components (_num_components this)
              (length (remove_dups labels))).
  assert (Hn : (1 <= n <= Z.of_nat (cols data))%Z).
  { split; [now apply clip_components_pos|exact HD]. }
  assert (Hchd : channels data = 1).
  { unfold data, oriented. destruct (_dataAsRow this); exact Hch. }
  destruct (scatter_ok data labels Hchd Hlen)
    as (Sw & Sb & HS & (HSwr & HSwc & HSwch) & (HSbr & HSbc & HSbch) & _).
  destruct (Hinv Sw) as (Hir & Hic & Hich).
  pose proof (gemm_no_C_eq (ext_inv E Sw) Sb fone fzero Hich HSbch
                ltac:(congruence)) as HM.
  set (M := mkMat _ _ _ _) in HM.
  destruct (Heig M) as (Hevch & Hevtot & Hevecc).
  { unfold M. cbn. congruence. }
  assert (HMr : rows M = cols data) by (unfold M; cbn; congruence).
  destruct (reshape_1_1_ok (fst (ext_eigen E M)) Hevch)
    as (ev0 & Hev0 & Hr0 & Hch0 & Hc0); [lia|].
  pose proof (argsort_row ev0 false Hr0 Hch0) as Hidx. cbn [negb] in Hidx.
  set (idxs := sortIdx_row (row_list ev0 0) true) in *.
  assert (Hlenidx : length idxs = cols data).
  { unfold idxs. rewrite sortIdx_row_length, row_list_length. lia. }
  assert (Hrange : Forall (fun x => (0 <= x < Z.of_nat (cols data))%Z) idxs).
  { unfold idxs. replace (cols data) with (length (row_list ev0 0))
      by (rewrite row_list_length; lia).
    apply sortIdx_row_range. }
  destruct (@sortMatrixByColumn_run _ _ ev0 idxs (ext_alloc E 0))
    as (ev1 & Hev1 & _ & Hc1 & _);
    [lia|now replace (cols ev0) with (cols data) by lia|].
  destruct (@sortMatrixByColumn_run _ _ (snd (ext_eigen E M)) idxs
              (ext_alloc E 1))
    as (evec1 & Hevec1 & _ & Hcv1 & _);
    [lia|now replace (cols (snd (ext_eigen E M))) with (cols data) by lia|].
  destruct (@colRange_prefix_ex ev1 n) as (ev2 & Hev2 & Hc2); [lia|].
  destruct (@colRange_prefix_ex evec1 n) as (evec2 & Hevec2 & Hcv2); [lia|].
  exists (mkLDA (_dataAsRow this) n evec2 ev2).
  split.
  - now apply (@compute_intro _ _ E this src labels Sw Sb M ev0 ev1 evec1
                 ev2 evec2 idxs).
  - cbn. auto.
Qed.

Lemma sortMatrixByColumn_loop_cols (src : Mat T) (indices : list Z) :
  forall (idx : nat) (dst dst' : Mat T),
    sortMatrixByColumn_loop src indices idx dst = Ok dst' ->
    cols dst' = cols dst.
Proof.
  induction indices as [|x rest IH]; intros idx dst dst' H;
    cbn [sortMatrixByColumn_loop] in H.
  - now inversion H.
  - destruct (col src x) as [oc|e]; [|discriminate H]. cbn [bind] in H.
    destruct (col dst (Z.of_nat idx)) as [sc|e]; [|discriminate H].
    cbn [bind] in H. apply IH in H. exact H.
Qed.

Lemma sortMatrixByColumn_cols (src dst : Mat T) (indices : list Z)
    (junk : nat -> nat -> T) :
  sortMatrixByColumn src indices junk = Ok dst -> cols dst = cols src.
Proof.
  unfold sortMatrixByColumn. intros H.
  apply sortMatrixByColumn_loop_cols in H. exact H.
Qed.

(** The eigenvector matrix that a returning [compute] stores has as many
    columns as the stored count, which is the clipped count of the call
    and fits into the solver's eigenvector matrix. *)
Lemma compute_eigenvectors (E : External T) (this this' : LDA T)
    (src : Mat T) (labels : list Z) :
  compute E src labels this = (this', Ok tt) ->
  _num_components this' =
    clip_components (_num_components this) (length (remove_dups labels)) /\
  cols (_eigenvectors this') = Z.to_nat (_num_components this') /\
  exists Sw Sb M,
    scatter (oriented this src) labels = Ok (Sw, Sb) /\
    gemm (ext_inv E Sw) Sb fone Mat_empty fzero false = Ok M /\
    (_num_components this' <= Z.of_nat (cols (snd (ext_eigen E M))))%Z.
Proof.
  intros H. apply compute_inv in H.
  destruct H
    as [Sw Sb M ev0 ev1 evec1 ev2 evec2 idxs Hch Hlen HS HM Hev0 Hidx
        Hev1 Hevec1 Hev2 Hevec2 Hfin].
  apply colRange_prefix in Hevec2.
  destruct Hevec2 as (Hn & _ & Hc2 & _).
  apply sortMatrixByColumn_cols in Hevec1.
  subst this'. cbn [_num_components _eigenvectors].
  split; [reflexivity|]. split; [exact Hc2|].
  exists Sw, Sb, M. repeat split; try assumption. lia.
Qed.

(** With a solver that keeps the shapes, a [compute] that returns had
    room for its clipped count among the D features. *)
Lemma compute_needs_room (E : External T) (this this' : LDA T)
    (src : Mat T) (labels : list Z) :
  solver_ok E ->
  compute E src labels this = (this', Ok tt) ->
  (clip_components (_num_components this) (length (remove_dups labels))
   <= Z.of_nat (cols (oriented this src)))%Z.
Proof.
  intros [Hinv Heig] H. pose proof H as Htr. apply compute_inv in Htr.
  destruct Htr as [_ _ _ _ _ _ _ _ _ Hch Hlen _ _ _ _ _ _ _ _ _].
  apply compute_eigenvectors in H.
  destruct H as (Hn & _ & Sw & Sb & M & HS & HM & Hroom).
  assert (Hchd : channels (oriented this src) = 1).
  { unfold oriented. destruct (_dataAsRow this); exact Hch. }
  destruct (scatter_ok (oriented this src) labels Hchd Hlen)
    as (Sw' & Sb' & HS' & (HSwr & HSwc & HSwch) & (HSbr & HSbc & HSbch) & _).
  rewrite HS in HS'. inversion HS'; subst Sw' Sb'; clear HS'.
  apply gemm_no_C in HM. cbn zeta in HM.
  destruct HM as (_ & _ & _ & HMr & HMc & _).
  destruct (Hinv Sw) as (Hir & _ & _).
  destruct (Heig M) as (_ & _ & Hevecc); [congruence|].
  rewrite <- Hn. rewrite Hevecc in Hroom.
  replace (cols (oriented this src)) with (rows M) by congruence.
  exact Hroom.
Qed.

End ComponentCount.

Lemma External_diag_ok {T : Type} {ST : Scalar T} :
  solver_ok (@External_diag T ST).
Proof.
  split; intros m; cbn; [auto|].
  intros _. unfold total. cbn. repeat split. lia.
Qed.

(** With a solver that keeps the shapes, [compute] throws on a valid
    input whose clipped count exceeds the feature dimension. *)
Lemma compute_throws_without_room {T : Type} {ST : Scalar T}
    (E : External T) (this : LDA T) (src : Mat T) (labels : list Z) :
  solver_ok E ->
  (Z.of_nat (cols (oriented this src)) <
   clip_components (_num_components this) (length (remove_dups labels)))%Z ->
  exists this' e, compute E src labels this = (this', Err e).
Proof.
  intros Hsolver Htight.
  destruct (compute E src labels this) as [this' [[]|e]] eqn:Hrun.
  - apply (compute_needs_room _ _ _ Hsolver) in Hrun. lia.
  - now exists this', e.
Qed.

(** C2, as the code has it: for every valid input (single-channel
    samples, one label per sample, C >= 2 distinct labels) and a solver
    that keeps the shapes, let the effective count be C - 1 when the
    requested count is 0 or less and min(requested, C - 1) otherwise, so
    that a request above C - 1 is clipped to C - 1.  Whenever the
    effective count is at most the feature dimension D, [compute] returns
    without an error and [eigenvectors()] afterwards has exactly that
    many columns. *)
Theorem compute_component_count {T : Type} {ST : Scalar T}
    (E : External T) (this : LDA T) (src : Mat T) (labels : list Z) :
  solver_ok E ->
  channels src = 1 ->
  length labels = rows (oriented this src) ->
  2 <= length (remove_dups labels) ->
  let requested := _num_components this in
  let C := Z.of_nat (length (remove_dups labels)) in
  let D := Z.of_nat (cols (oriented this src)) in
  let effective :=
    if (requested <=? 0)%Z then (C - 1)%Z else Z.min requested (C - 1) in
  (effective <= D)%Z ->
  ((C - 1 < requested)%Z -> effective = (C - 1)%Z) /\
  exists this' vectors,
    compute E src labels this = (this', Ok tt) /\
    LDA_eigenvectors this' = (this', Ok vectors) /\
    cols vectors = Z.to_nat effective.
Proof.
  intros Hsolver Hch Hlen HC requested C D effective Hroom.
  assert (Hclip : clip_components (_num_components this)
                    (length (remove_dups labels)) = effective)
    by apply clip_components_min.
  split.
  - intros Hbig. unfold effective.
    destruct (Z.leb_spec requested 0); lia.
  - destruct (compute_returns this src labels Hsolver Hch Hlen HC)
      as (this' & Hrun & Hn & Hcols & _); [rewrite Hclip; exact Hroom|].
    exists this', (_eigenvectors this').
    split; [exact Hrun|]. split; [reflexivity|]. congruence.
Qed.

(** C2 on the twelve samples in three classes, with 5 components
    requested: two are kept. *)
Lemma compute_component_count_witness :
  exists this' vectors,
    compute External_diag three_classes_Q three_classes_labels
            (LDA_new 5 true) = (this', Ok tt) /\
    LDA_eigenvectors this' = (this', Ok vectors) /\
    cols vectors = 2.
Proof.
  destruct (@compute_component_count Q _ External_diag (LDA_new 5 true)
              three_classes_Q three_classes_labels External_diag_ok
              eq_refl eq_refl)
    as (_ & Hreturns).
  - vm_compute. lia.
  - vm_compute. discriminate.
  - exact Hreturns.
Defined.

(** C3: past its guards, [compute] writes the clipped count into
    [_num_components] (for a count of 0 or less, C - 1 of that call); the
    next [compute] on the same instance starts from this stored count and
    keeps it whenever it is positive and at most the new C - 1, so it
    does not derive C - 1 from the new data, and when it returns the
    eigenvector matrix has that many columns. *)
Theorem compute_reuses_stored_count {T : Type} {ST : Scalar T}
    (E : External T) (this : LDA T) (src1 src2 : Mat T)
    (labels1 labels2 : list Z) :
  channels src1 = 1 -> length labels1 = rows (oriented this src1) ->
  channels src2 = 1 -> length labels2 = rows (oriented this src2) ->
  let C1 := length (remove_dups labels1) in
  let C2 := length (remove_dups labels2) in
  let this1 := fst (compute E src1 labels1 this) in
  let this2 := fst (compute E src2 labels2 this1) in
  _num_components this1 = clip_components (_num_components this) C1 /\
  ((_num_components this <= 0)%Z ->
   _num_components this1 = (Z.of_nat C1 - 1)%Z) /\
  ((0 < _num_components this1 <= Z.of_nat C2 - 1)%Z ->
   _num_components this2 = _num_components this1 /\
   (snd (compute E src2 labels2 this1) = Ok tt ->
    cols (_eigenvectors this2) = Z.to_nat (_num_components this1))).
Proof.
  intros Hch1 Hlen1 Hch2 Hlen2 C1 C2 this1 this2.
  destruct (compute_config E this src1 labels1 Hch1 Hlen1) as [Hflag1 Hn1].
  fold this1 in Hflag1, Hn1. fold C1 in Hn1.
  assert (Hlen2' : length labels2 = rows (oriented this1 src2)).
  { unfold oriented in *. rewrite Hflag1. exact Hlen2. }
  destruct (compute_config E this1 src2 labels2 Hch2 Hlen2') as [_ Hn2].
  fold this2 in Hn2. fold C2 in Hn2.
  split; [exact Hn1|]. split.
  - intros Hauto. rewrite Hn1. unfold clip_components.
    replace (_num_components this <=? 0)%Z with true
      by (symmetry; apply Z.leb_le; exact Hauto).
    reflexivity.
  - intros [Hpos Hle].
    assert (Hsame : _num_components this2 = _num_components this1).
    { rewrite Hn2. unfold clip_components.
      replace (_num_components this1 <=? 0)%Z with false
        by (symmetry; apply Z.leb_gt; exact Hpos).
      replace (_num_components this1 >? Z.of_nat C2 - 1)%Z with false
        by (symmetry; rewrite Z.gtb_ltb; apply Z.ltb_ge; exact Hle).
      reflexivity. }
    split; [exact Hsame|].
    intros Hret. apply returned_pair in Hret.
    apply compute_eigenvectors in Hret.
    destruct Hret as (_ & Hcols & _).
    fold this2 in Hcols. now rewrite Hcols, Hsame.
Qed.

(** C3 on doubles: an instance built with 0 components first learns from
    the two classes, then from the three; the second call keeps the
    count 1 of the first and returns one eigenvector, although C - 1 is
    now 2. *)
Lemma compute_reuses_stored_count_witness :
  _num_components (fst first_run) = 1%Z /\
  _num_components (fst second_run) = 1%Z /\
  snd second_run = Ok tt /\
  cols (_eigenvectors (fst second_run)) = 1.
Proof.
  destruct (@compute_reuses_stored_count _ _ External_diag (LDA_new 0 true)
              two_classes_1d three_classes_1d
              [7; 7; 3; 3]%Z [0; 0; 1; 1; 2; 2]%Z
              eq_refl eq_refl eq_refl eq_refl) as (H1 & Hauto & Hkeep).
  assert (Hone : _num_components (fst first_run) = 1%Z).
  { rewrite Hauto; [reflexivity|cbn; lia]. }
  assert (Hsnd : snd second_run = Ok tt) by (vm_compute; reflexivity).
  destruct Hkeep as [Hsame Hcols].
  { rewrite Hone. vm_compute. split; [reflexivity|discriminate]. }
  split; [exact Hone|]. split; [now rewrite Hsame|].
  split; [exact Hsnd|].
  rewrite (Hcols Hsnd), Hone. reflexivity.
Defined.

(** C2 as stated fails: six one-dimensional samples of doubles in three
    classes are a valid input (one channel, one label per sample, C = 3),
    the solver is exact on 1 x 1 matrices, and [compute] throws: the
    clipped count C - 1 = 2 exceeds the single column of the eigenvector
    matrix, and the column range of the truncation fails its assertion. *)
Lemma compute_more_classes_than_features_throws :
  channels three_classes_1d = 1 /\
  length [0; 0; 1; 1; 2; 2]%Z = rows three_classes_1d /\
  length (remove_dups [0; 0; 1; 1; 2; 2]%Z) = 3 /\
  solver_ok (@External_diag float _) /\
  snd (compute External_diag three_classes_1d [0; 0; 1; 1; 2; 2]%Z
         (LDA_new 0 true)) = Err StsAssert.
Proof.
  split; [reflexivity|]. split; [reflexivity|].
  split; [reflexivity|]. split; [apply External_diag_ok|].
  vm_compute. reflexivity.
Qed.

(* ================================================================== *)
(** * More on argsort and on reordering *)

Section ArgsortMore.

Context {T : Type} {ST : Scalar T}.

(** What a returning [argsort] did: the input is a single-channel row or
    column, and the index row is [sortIdx] of its entries. *)
Lemma argsort_inv (m : Mat T) (ascending : bool) (idxs : list Z) :
  argsort m ascending = Ok idxs ->
  channels m = 1 /\ (rows m = 1 \/ cols m = 1) /\
  exists vals,
    length vals = total m /\
    (forall k, k < total m -> nth k vals fzero = entry m k) /\
    idxs = sortIdx_row vals (negb ascending).
Proof.
  unfold argsort. intros H.
  destruct (negb (rows m =? 1) && negb (cols m =? 1)) eqn:H1d;
    [discriminate H|].
  destruct (reshape_1_1 m) as [r|e] eqn:Hr; [|discriminate H].
  cbn [bind] in H. inversion H; subst idxs; clear H.
  unfold reshape_1_1 in Hr.
  destruct (channels m =? 1) eqn:Hch; [|discriminate Hr].
  cbn [negb] in Hr. apply Nat.eqb_eq in Hch.
  split; [exact Hch|].
  destruct (Nat.eqb_spec (rows m) 1) as [Hrow|Hrow].
  - inversion Hr; subst r; clear Hr.
    split; [now left|].
    exists (row_list m 0). unfold total. rewrite Hrow, Nat.mul_1_l.
    split; [apply row_list_length|]. split; [|reflexivity].
    intros k Hk. rewrite row_list_nth by exact Hk.
    unfold entry. rewrite Hrow. reflexivity.
  - cbn [negb andb] in H1d. apply negb_false_iff, Nat.eqb_eq in H1d.
    split; [now right|].
    destruct (total m =? 0) eqn:Htot; [discriminate Hr|].
    inversion Hr; subst r; clear Hr.
    exists (row_list (mkMat 1 (total m) 1
                        (fun _ j => mat_at m (j / cols m) (j mod cols m))) 0).
    split; [apply row_list_length|]. split; [|reflexivity].
    intros k Hk. rewrite row_list_nth by exact Hk.
    cbn [mat_at]. unfold entry.
    apply Nat.eqb_neq in Hrow. rewrite Hrow, H1d.
    now rewrite Nat.div_1_r, Nat.mod_1_r.
Qed.

(** [argsort] returns on every single-channel row, and on every
    single-channel column that has a cell. *)
Lemma argsort_returns (m : Mat T) (ascending : bool) :
  channels m = 1 ->
  rows m = 1 \/ (cols m = 1 /\ rows m <> 0) ->
  exists idxs, argsort m ascending = Ok idxs.
Proof.
  intros Hch Hshape. unfold argsort, reshape_1_1. rewrite Hch.
  cbn [Nat.eqb negb].
  destruct Hshape as [Hrow|[Hcol Hne]].
  - rewrite Hrow. cbn. eexists. reflexivity.
  - rewrite Hcol. cbn [Nat.eqb negb andb].
    rewrite andb_false_r.
    destruct (rows m =? 1); [eexists; reflexivity|].
    replace (total m =? 0) with false; [eexists; reflexivity|].
    symmetry. apply Nat.eqb_neq. unfold total. rewrite Hcol. lia.
Qed.

Lemma sortIdx_row_perm (vals : list T) (descending : bool) :
  Permutation (sortIdx_row vals descending)
              (map Z.of_nat (seq 0 (length vals))).
Proof.
  rewrite sortIdx_row_positions. apply Permutation_map.
  apply sorted_positions_perm.
Qed.

(** Ascending: along the index row, no value is less than the one
    before. *)
Lemma sorted_positions_ascending (vals : list T) :
  (forall a b : T, flt a b = true -> flt b a = false) ->
  Sorted (fun p q => flt (nth q vals fzero) (nth p vals fzero) = false)
         (sorted_positions vals false).
Proof.
  intros Hasym. unfold sorted_positions.
  apply (std_sort_Sorted
           (fun a b => flt (nth a vals fzero) (nth b vals fzero))).
  intros a b. apply Hasym.
Qed.

Lemma Sorted_map_inv {A B : Type} (f : A -> B) (R : B -> B -> Prop)
    (l : list A) :
  Sorted (fun a b => R (f a) (f b)) l -> Sorted R (map f l).
Proof.
  induction 1 as [|x t Ht IH Hhd]; cbn; constructor; [exact IH|].
  destruct t; cbn; constructor. now inversion Hhd.
Qed.

Lemma Sorted_impl_in {A : Type} (R R' : A -> A -> Prop) (l : list A) :
  (forall a b, In a l -> In b l -> R a b -> R' a b) ->
  Sorted R l -> Sorted R' l.
Proof.
  intros Himpl Hs. induction Hs as [|x t Ht IH Hhd]; constructor.
  - apply IH. intros a b Ha Hb. apply Himpl; now right.
  - destruct t; constructor. inversion Hhd; subst.
    apply Himpl; [now left|right; now left|assumption].
Qed.

Lemma NoDup_map_injective {A B : Type} (f : A -> B) (l : list A) :
  (forall a b, f a = f b -> a = b) -> NoDup l -> NoDup (map f l).
Proof.
  intros Hinj. induction 1 as [|x t Hx Ht IH]; cbn; constructor.
  - intros Hin. apply in_map_iff in Hin. destruct Hin as (y & Hy & Hin).
    apply Hinj in Hy. now subst y.
  - exact IH.
Qed.

End ArgsortMore.

(** X1: on every single-channel row, and on every single-channel column
    that has a cell, [argsort] returns, in either direction, and what it
    returns is a permutation of the indices 0 .. n-1, n the number of
    entries: every index once. *)
Theorem argsort_is_permutation {T : Type} {ST : Scalar T}
    (m : Mat T) (ascending : bool) :
  channels m = 1 ->
  rows m = 1 \/ (cols m = 1 /\ rows m <> 0) ->
  exists idxs,
    argsort m ascending = Ok idxs /\
    Permutation idxs (map Z.of_nat (seq 0 (total m))) /\
    NoDup idxs /\ length idxs = total m.
Proof.
  intros Hch Hshape.
  destruct (argsort_returns m ascending Hch Hshape) as (idxs & Hrun).
  exists idxs. split; [exact Hrun|].
  apply argsort_inv in Hrun.
  destruct Hrun as (_ & _ & vals & Hlen & _ & Hidx).
  assert (Hperm : Permutation idxs (map Z.of_nat (seq 0 (total m)))).
  { rewrite Hidx, <- Hlen. apply sortIdx_row_perm. }
  split; [exact Hperm|]. split.
  - apply (Permutation_NoDup (Permutation_sym Hperm)).
    apply NoDup_map_injective; [|apply seq_NoDup].
    intros a b. apply Nat2Z.inj.
  - rewrite (Permutation_length Hperm), length_map, length_seq.
    reflexivity.
Qed.

(** X1 at the row of doubles [1.0, 0.0, 3.0, -1.0], descending. *)
Lemma argsort_is_permutation_witness :
  exists idxs,
    argsort (Mat_row [1.0; 0.0; 3.0; -1.0]%float) false = Ok idxs /\
    Permutation idxs (map Z.of_nat (seq 0 4)) /\
    NoDup idxs /\ length idxs = 4.
Proof.
  apply (@argsort_is_permutation _ _
           (Mat_row [1.0; 0.0; 3.0; -1.0]%float) false).
  - reflexivity.
  - left. reflexivity.
Defined.

(** X2: whenever [argsort] returns, the entries of the input taken in
    the order of the returned indices are sorted in the requested
    direction: ascending, no entry is less than the one before it;
    descending, no entry is less than the one after it.  The premise is
    that [<] on the scalars is asymmetric. *)
Theorem argsort_sorts {T : Type} {ST : Scalar T}
    (flt_asym : forall a b : T, flt a b = true -> flt b a = false)
    (m : Mat T) (ascending : bool) (idxs : list Z) :
  argsort m ascending = Ok idxs ->
  Sorted (fun a b => if ascending then flt b a = false
                     else flt a b = false)
         (map (fun i => entry m (Z.to_nat i)) idxs).
Proof.
  intros Hrun. apply argsort_inv in Hrun.
  destruct Hrun as (_ & _ & vals & Hlen & Hvals & Hidx).
  subst idxs. rewrite sortIdx_row_positions, map_map.
  apply Sorted_map_inv.
  pose proof (sorted_positions_range vals (negb ascending)) as Hrange.
  rewrite Forall_forall in Hrange.
  assert (Hentry : forall p, In p (sorted_positions vals (negb ascending)) ->
                     entry m (Z.to_nat (Z.of_nat p)) = nth p vals fzero).
  { intros p Hp. rewrite Nat2Z.id. symmetry. apply Hvals.
    rewrite <- Hlen. now apply Hrange. }
  destruct ascending; cbn [negb].
  - eapply Sorted_impl_in; [|apply (sorted_positions_ascending vals flt_asym)].
    cbn. intros p q Hp Hq Hpq. now rewrite !Hentry.
  - eapply Sorted_impl_in; [|apply (sorted_positions_descending vals flt_asym)].
    cbn. intros p q Hp Hq Hpq. now rewrite !Hentry.
Qed.

(** X2 over the rationals, at the column [3, 1, 2], ascending. *)
Lemma argsort_sorts_witness :
  exists idxs,
    argsort (Mat_of_rows 1 [[3]; [1]; [2]]%Q) true = Ok idxs /\
    Sorted (fun a b => flt b a = false)
      (map (fun i => entry (Mat_of_rows 1 [[3]; [1]; [2]]%Q) (Z.to_nat i))
           idxs).
Proof.
  exists [1; 2; 0]%Z. split; [reflexivity|].
  apply (@argsort_sorts Q _ Q_flt_asym (Mat_of_rows 1 [[3]; [1]; [2]]%Q)
           true [1; 2; 0]%Z).
  reflexivity.
Defined.

(** X3 at the 1 x 2 matrix of doubles [[1, 2]] with the negative index
    -1. *)
Lemma sortMatrixByColumn_out_of_range_witness :
  sortMatrixByColumn (Mat_row [1.0; 2.0]%float) [0; -1]%Z
    (fun _ _ => 0.0%float) = Err StsAssert.
Proof.
  apply (@sortMatrixByColumn_out_of_range _ _ (Mat_row [1.0; 2.0]%float)
           [0; -1]%Z (fun _ _ => 0.0%float)).
  right. apply Exists_cons_tl. apply Exists_cons_hd. cbn. lia.
Defined.

Section ArgsortSorted.

Context {T : Type} {ST : Scalar T}.

Lemma std_sort_sorted_id {A : Type} (less : A -> A -> bool) (l : list A) :
  StronglySorted (fun a b => less b a = false) l -> std_sort less l = l.
Proof.
  induction 1 as [|x t Ht IH Hall]; cbn; [reflexivity|].
  rewrite IH. destruct t as [|y t']; cbn; [reflexivity|].
  inversion Hall as [|? ? Hy _]; subst. now rewrite Hy.
Qed.

Lemma insert_by_last {A : Type} (less : A -> A -> bool) (x : A)
    (l : list A) :
  Forall (fun y => less y x = true) l -> insert_by less x l = l ++ [x].
Proof.
  induction 1 as [|y t Hy Ht IH]; cbn; [reflexivity|].
  now rewrite Hy, IH.
Qed.

Lemma std_sort_reversed {A : Type} (less : A -> A -> bool) (l : list A) :
  StronglySorted (fun a b => less b a = true) l ->
  std_sort less l = rev l.
Proof.
  induction 1 as [|x t Ht IH Hall]; cbn; [reflexivity|].
  rewrite IH. apply insert_by_last.
  apply Forall_rev. exact Hall.
Qed.

Lemma StronglySorted_nth {A : Type} (R : A -> A -> Prop) (d : A)
    (l : list A) :
  StronglySorted R l ->
  forall i j, i < j -> j < length l -> R (nth i l d) (nth j l d).
Proof.
  induction 1 as [|x t Ht IH Hall]; intros i j Hij Hj; cbn in Hj; [lia|].
  destruct j as [|j]; [lia|]. destruct i as [|i]; cbn.
  - rewrite Forall_forall in Hall. apply Hall. apply nth_In. lia.
  - apply IH; lia.
Qed.

Lemma StronglySorted_seq (R : nat -> nat -> Prop) (a n : nat) :
  (forall p q, a <= p -> p < q -> q < a + n -> R p q) ->
  StronglySorted R (seq a n).
Proof.
  revert a; induction n as [|n IH]; intros a H; cbn; constructor.
  - apply IH. intros p q Hp Hpq Hq. apply H; lia.
  - apply Forall_forall. intros q Hq. apply in_seq in Hq. apply H; lia.
Qed.

End ArgsortSorted.

(** X4: [argsort] leaves a row that is already strictly sorted in the
    requested direction as it is: ascending on a strictly increasing
    single-channel row, and descending on a strictly decreasing one, it
    returns the identity permutation 0, 1, ..., n-1.  The premise is that
    [<] on the scalars is asymmetric. *)
Theorem argsort_of_sorted_row {T : Type} {ST : Scalar T}
    (flt_asym : forall a b : T, flt a b = true -> flt b a = false)
    (m : Mat T) (ascending : bool) :
  rows m = 1 -> channels m = 1 ->
  StronglySorted (fun a b => if ascending then flt a b = true
                             else flt b a = true) (row_list m 0) ->
  argsort m ascending = Ok (map Z.of_nat (seq 0 (cols m))).
Proof.
  intros Hr Hch Hs. rewrite (argsort_row m ascending Hr Hch).
  unfold sortIdx_row. rewrite row_list_length. f_equal. f_equal.
  set (vals := row_list m 0) in *.
  assert (Hlen : length vals = cols m) by apply row_list_length.
  destruct ascending; cbn [negb].
  - apply std_sort_sorted_id. apply StronglySorted_seq.
    intros p q _ Hpq Hq. apply flt_asym.
    apply (StronglySorted_nth fzero Hs); lia.
  - rewrite std_sort_reversed; [apply rev_involutive|].
    apply StronglySorted_seq. intros p q _ Hpq Hq.
    apply (StronglySorted_nth fzero Hs); lia.
Qed.

(** X4 over the rationals, at the strictly decreasing row [5, 3, 2],
    descending. *)
Lemma argsort_of_sorted_row_witness :
  argsort (Mat_row [5; 3; 2]%Q) false = Ok [0; 1; 2]%Z.
Proof.
  apply (@argsort_of_sorted_row Q _ Q_flt_asym (Mat_row [5; 3; 2]%Q) false).
  - reflexivity.
  - reflexivity.
  - repeat constructor.
Defined.

Section Reorder.

Context {T : Type} {ST : Scalar T}.

Lemma map_nth_seq_id {A : Type} (d : A) (l : list A) :
  map (fun p => nth p l d) (seq 0 (length l)) = l.
Proof.
  apply (nth_ext _ _ d d).
  - now rewrite length_map, length_seq.
  - intros n Hn. rewrite length_map, length_seq in Hn.
    rewrite (nth_indep _ d (nth 0 l d))
      by (now rewrite length_map, length_seq).
    rewrite (map_nth (fun p => nth p l d)), seq_nth by exact Hn.
    reflexivity.
Qed.

Lemma row_list_ext (a b : Mat T) (i : nat) :
  cols a = cols b ->
  (forall j, j < cols a -> mat_at a i j = mat_at b i j) ->
  row_list a i = row_list b i.
Proof.
  intros Hc Hcells. unfold row_list. rewrite <- Hc.
  apply map_ext_in. intros j Hj. apply in_seq in Hj. apply Hcells. lia.
Qed.

(** A single-channel row reordered by its own [argsort]. *)
Lemma reorder_by_argsort (m : Mat T) (ascending : bool)
    (junk : nat -> nat -> T) :
  rows m = 1 -> channels m = 1 ->
  exists sorted,
    (idxs <- argsort m ascending ;; sortMatrixByColumn m idxs junk)
      = Ok sorted /\
    rows sorted = 1 /\ cols sorted = cols m /\
    row_list sorted 0 =
      map (fun p => nth p (row_list m 0) fzero)
          (sorted_positions (row_list m 0) (negb ascending)).
Proof.
  intros Hr Hch. rewrite (argsort_row m ascending Hr Hch). cbn [bind].
  set (vals := row_list m 0).
  assert (Hlen : length vals = cols m) by apply row_list_length.
  destruct (@sortMatrixByColumn_run _ _ m
              (sortIdx_row vals (negb ascending)) junk)
    as (sorted & Hrun & Hsr & Hsc & _ & Hcells).
  { rewrite sortIdx_row_length. lia. }
  { rewrite <- Hlen. apply sortIdx_row_range. }
  exists sorted. split; [exact Hrun|]. split; [congruence|].
  split; [exact Hsc|].
  apply (nth_ext _ _ fzero fzero).
  - rewrite row_list_length, length_map, sorted_positions_length. lia.
  - intros j Hj. rewrite row_list_length in Hj.
    rewrite row_list_nth by exact Hj. rewrite Hcells.
    rewrite sortIdx_row_length.
    replace (j <? length vals) with true by (symmetry; apply Nat.ltb_lt; lia).
    rewrite sortIdx_row_positions.
    change 0%Z with (Z.of_nat 0). rewrite map_nth, Nat2Z.id.
    rewrite (nth_indep _ fzero (nth 0 vals fzero))
      by (rewrite length_map, sorted_positions_length; lia).
    rewrite (map_nth (fun p => nth p vals fzero)).
    symmetry. apply row_list_nth.
    pose proof (sorted_positions_range vals (negb ascending)) as Hrange.
    rewrite Forall_forall in Hrange. rewrite <- Hlen. apply Hrange.
    apply nth_In. rewrite sorted_positions_length. lia.
Qed.

End Reorder.

(** X5: reordering a single-channel row by its own [argsort], as
    [compute] does with the eigenvalues, always returns; the result is a
    row of the same length that holds the same cells (a permutation of
    the input, whatever the fresh storage held) and is sorted in the
    requested direction.  The premise is that [<] on the scalars is
    asymmetric. *)
Theorem sortMatrixByColumn_of_argsort {T : Type} {ST : Scalar T}
    (flt_asym : forall a b : T, flt a b = true -> flt b a = false)
    (m : Mat T) (ascending : bool) (junk : nat -> nat -> T) :
  rows m = 1 -> channels m = 1 ->
  exists sorted,
    (idxs <- argsort m ascending ;; sortMatrixByColumn m idxs junk)
      = Ok sorted /\
    rows sorted = 1 /\ cols sorted = cols m /\
    Permutation (row_list sorted 0) (row_list m 0) /\
    Sorted (fun a b => if ascending then flt b a = false
                       else flt a b = false)
           (row_list sorted 0).
Proof.
  intros Hr Hch.
  destruct (reorder_by_argsort m ascending junk Hr Hch)
    as (sorted & Hrun & Hsr & Hsc & Hrow).
  exists sorted. split; [exact Hrun|]. split; [exact Hsr|].
  split; [exact Hsc|]. rewrite Hrow. split.
  - rewrite (Permutation_map _ (sorted_positions_perm _ _)).
    now rewrite map_nth_seq_id.
  - apply Sorted_map_inv. destruct ascending; cbn [negb].
    + apply (sorted_positions_ascending _ flt_asym).
    + apply (sorted_positions_descending _ flt_asym).
Qed.

(** X5 over the rationals, at the row [1, 0, 3, -1], descending. *)
Lemma sortMatrixByColumn_of_argsort_witness :
  exists sorted,
    (idxs <- argsort (Mat_row [1; 0; 3; -1]%Q) false ;;
     sortMatrixByColumn (Mat_row [1; 0; 3; -1]%Q) idxs (fun _ _ => 7%Q))
      = Ok sorted /\
    rows sorted = 1 /\ cols sorted = 4 /\
    Permutation (row_list sorted 0) [1; 0; 3; -1]%Q /\
    Sorted (fun a b => flt a b = false) (row_list sorted 0).
Proof.
  apply (@sortMatrixByColumn_of_argsort Q _ Q_flt_asym
           (Mat_row [1; 0; 3; -1]%Q) false (fun _ _ => 7%Q)).
  - reflexivity.
  - reflexivity.
Defined.

Section RowsAndColumns.

Context {T : Type} {ST : Scalar T}.

Lemma sortMatrixByRow_loop_transposed (src : Mat T) (indices : list Z) :
  forall (idx : nat) (dstT : Mat T),
    sortMatrixByRow_loop src indices idx (cv_transpose dstT) =
    result_map cv_transpose
      (sortMatrixByColumn_loop (cv_transpose src) indices idx dstT).
Proof.
  induction indices as [|x rest IH]; intros idx dstT;
    cbn [sortMatrixByRow_loop sortMatrixByColumn_loop]; [reflexivity|].
  unfold row_at, rowRange, col, colRange. cbn [rows cols cv_transpose].
  destruct ((0 <=? x)%Z && (x <=? x + 1)%Z &&
            (x + 1 <=? Z.of_nat (rows src))%Z)%bool; [|reflexivity].
  cbn [bind].
  destruct ((0 <=? Z.of_nat idx)%Z && (Z.of_nat idx <=? Z.of_nat idx + 1)%Z &&
            (Z.of_nat idx + 1 <=? Z.of_nat (cols dstT))%Z)%bool;
    [|reflexivity].
  cbn [bind].
  exact (IH (S idx)
           (copyTo_col
              (mkMat (cols src) (Z.to_nat (x + 1 - x))
                 (channels (cv_transpose src))
                 (fun i j => mat_at (cv_transpose src) i (Z.to_nat x + j)))
              dstT idx)).
Qed.

Lemma sortMatrixByRow_as_columns (src : Mat T) (indices : list Z)
    (junk : nat -> nat -> T) :
  sortMatrixByRow src indices junk =
  result_map cv_transpose
    (sortMatrixByColumn_loop (cv_transpose src) indices 0
       (create (cols src) (rows src) (channels src) (fun i j => junk j i))).
Proof.
  unfold sortMatrixByRow.
  apply (sortMatrixByRow_loop_transposed src indices 0
           (create (cols src) (rows src) (channels src)
              (fun i j => junk j i))).
Qed.

End RowsAndColumns.

(** X6: sorting by row is sorting the transpose by column: for every
    matrix, index list and content of the fresh storage,
    [sortMatrixByRow] returns the transpose of what [sortMatrixByColumn]
    returns on the transposed matrix (with the fresh storage read
    transposed), and fails exactly when that call fails, with the same
    error. *)
Theorem sortMatrixByRow_transposes_sortMatrixByColumn
    {T : Type} {ST : Scalar T}
    (src : Mat T) (indices : list Z) (junk : nat -> nat -> T) :
  sortMatrixByRow src indices junk =
  result_map cv_transpose
    (sortMatrixByColumn (cv_transpose src) indices (fun i j => junk j i)).
Proof.
  rewrite sortMatrixByRow_as_columns. unfold sortMatrixByColumn.
  reflexivity.
Qed.

(** X7: for every source matrix and every index list that is no longer
    than the source has rows and whose entries are row indices of the
    source, [sortMatrixByRow] returns a matrix with the rows, columns and
    channels of the source; row [i] of the result is row [indices[i]] of
    the source for [i < len(indices)], and the rows below still hold
    what the allocation held.  On any other index list it fails a range
    assertion. *)
Theorem sortMatrixByRow_in_range {T : Type} {ST : Scalar T}
    (src : Mat T) (indices : list Z) (junk : nat -> nat -> T) :
  (length indices <= rows src ->
   Forall (fun x => (0 <= x < Z.of_nat (rows src))%Z) indices ->
   exists dst,
     sortMatrixByRow src indices junk = Ok dst /\
     rows dst = rows src /\ cols dst = cols src /\
     channels dst = channels src /\
     (forall i c, i < length indices ->
        mat_at dst i c = mat_at src (Z.to_nat (nth i indices 0%Z)) c) /\
     (forall i c, length indices <= i -> mat_at dst i c = junk i c)) /\
  (rows src < length indices \/
   Exists (fun x => ~ (0 <= x < Z.of_nat (rows src))%Z) indices ->
   sortMatrixByRow src indices junk = Err StsAssert).
Proof.
  rewrite sortMatrixByRow_as_columns. split.
  - intros Hlen Hall.
    destruct (@sortMatrixByColumn_run _ _ (cv_transpose src) indices
                (fun i j => junk j i) Hlen Hall)
      as (dstT & Hrun & Hr & Hc & Hch & Hcells).
    unfold sortMatrixByColumn in Hrun.
    cbn [rows cols channels cv_transpose] in Hrun.
    rewrite Hrun. cbn [result_map]. eexists. split; [reflexivity|].
    cbn [rows cols channels mat_at cv_transpose] in *.
    repeat split; try assumption.
    + intros i c Hi. rewrite Hcells.
      destruct (Nat.ltb_spec i (length indices)); [reflexivity|lia].
    + intros i c Hi. rewrite Hcells.
      destruct (Nat.ltb_spec i (length indices)); [lia|reflexivity].
  - intros Hbad.
    rewrite sortMatrixByColumn_loop_fails; [reflexivity| |].
    + cbn [create cols]. lia.
    + cbn [create cols cv_transpose].
      destruct Hbad as [Hlen|Hex]; [left; lia|now right].
Qed.

(* ================================================================== *)
(** * The generic transform with a mean *)

Section TransformWithMean.

Context {T : Type} {ST : Scalar T}.

Lemma dot_ext (A A' B : Mat T) (i j : nat) :
  cols A = cols A' ->
  (forall l, l < cols A -> mat_at A i l = mat_at A' i l) ->
  dot A B i j = dot A' B i j.
Proof.
  intros Hc Hcells. unfold dot. rewrite <- Hc.
  generalize (@fzero T ST) as acc.
  assert (Hin : forall l, In l (seq 0 (cols A)) -> l < cols A)
    by (intros l Hl; apply in_seq in Hl; lia).
  induction (seq 0 (cols A)) as [|l ls IH]; intros acc; cbn; [reflexivity|].
  rewrite Hcells by (apply Hin; now left).
  apply IH. intros l' Hl'. apply Hin. now right.
Qed.

(** The flattened mean, as [reshape(1, 1)] returns it. *)
Lemma reshape_1_1_cells (m r : Mat T) :
  reshape_1_1 m = Ok r ->
  rows r = 1 /\ cols r = total m /\ channels r = 1 /\
  forall l, l < total m -> mat_at r 0 l = flat_cell m l.
Proof.
  unfold reshape_1_1. intros H.
  destruct (channels m =? 1) eqn:Hch; [|discriminate H]. cbn [negb] in H.
  apply Nat.eqb_eq in Hch.
  destruct (Nat.eqb_spec (rows m) 1) as [Hr|Hr].
  - inversion H; subst r; clear H. unfold total. rewrite Hr, Nat.mul_1_l.
    repeat split; try assumption.
    intros l Hl. unfold flat_cell.
    now rewrite Nat.div_small, Nat.mod_small by exact Hl.
  - destruct (total m =? 0); [discriminate H|].
    inversion H; subst r; clear H. cbn. repeat split.
Qed.

End TransformWithMean.

(** X8: whenever [project] returns, the result has the rows of the
    samples and the columns of the basis, and it is the product of the
    basis with the samples minus the mean, cell by cell, when the mean
    has one cell per sample column, and with the samples as they are
    otherwise: a mean of any other size is not an error, it is ignored.
    The premise is the scalar identity 1 * x = x. *)
Theorem project_subtracts_matching_mean {T : Type} {ST : Scalar T}
    (fmul_one : forall x : T, fmul fone x = x)
    (W mean src Y : Mat T) :
  project W mean src = Ok Y ->
  rows Y = rows src /\ cols Y = cols W /\ cols src = rows W /\
  forall i j, mat_at Y i j = dot (centred src mean) W i j.
Proof.
  unfold project. intros H.
  destruct (Nat.eqb_spec (total mean) (cols src)) as [Hmean|Hmean].
  - destruct (reshape_1_1 mean) as [m|e] eqn:Hm; [|discriminate H].
    cbn [bind] in H. apply reshape_1_1_cells in Hm.
    destruct Hm as (Hmr & Hmc & Hmch & Hmcells).
    destruct (subtract src (repeat m (rows src) 1)) as [X|e] eqn:HX;
      [|discriminate H].
    cbn [bind] in H. unfold subtract in HX.
    destruct (same_shape src (repeat m (rows src) 1)); [|discriminate HX].
    inversion HX; subst X; clear HX.
    apply gemm_no_C in H. cbn zeta in H. cbn [rows cols] in H.
    destruct H as (_ & _ & Hin & Hr & Hc & Hcells).
    repeat split; try assumption.
    intros i j. rewrite Hcells, fmul_one. apply dot_ext; [reflexivity|].
    cbn [cols rows mat_at centred repeat]. intros l Hl.
    apply Nat.eqb_eq in Hmean. rewrite Hmean. apply Nat.eqb_eq in Hmean.
    rewrite Hmr, Hmc, Nat.mod_1_r, Hmean.
    rewrite Nat.mod_small by exact Hl. rewrite Hmcells by lia.
    reflexivity.
  - cbn [bind] in H.
    apply gemm_no_C in H. cbn zeta in H.
    destruct H as (_ & _ & Hin & Hr & Hc & Hcells).
    repeat split; try assumption.
    intros i j. rewrite Hcells, fmul_one. apply dot_ext; [reflexivity|].
    cbn [cols mat_at centred]. intros l Hl.
    apply Nat.eqb_neq in Hmean. now rewrite Hmean.
Qed.

(** X8 over the rationals: the sample [[3, 4]] minus the mean [1, 1] on
    the basis [[1], [2]]. *)
Lemma project_subtracts_matching_mean_witness :
  exists Y,
    project (Mat_of_rows 1 [[1]; [2]]%Q) (Mat_row [1; 1]%Q)
            (Mat_row [3; 4]%Q) = Ok Y /\
    rows Y = 1 /\ cols Y = 1 /\
    mat_at Y 0 0 =
      dot (centred (Mat_row [3; 4]%Q) (Mat_row [1; 1]%Q))
          (Mat_of_rows 1 [[1]; [2]]%Q) 0 0.
Proof.
  eexists. split; [reflexivity|].
  destruct (@project_subtracts_matching_mean Q _ Q_fmul_one
              (Mat_of_rows 1 [[1]; [2]]%Q) (Mat_row [1; 1]%Q)
              (Mat_row [3; 4]%Q) _ eq_refl) as (Hr & Hc & _ & Hcells).
  split; [exact Hr|]. split; [exact Hc|]. apply Hcells.
Defined.

(** The same on doubles, with a mean given as a column and with a mean
    of the wrong size. *)
Example project_mean_orientation_and_size :
  cells (project (Mat_of_rows 1 [[1.0]; [2.0]]%float)
           (Mat_of_rows 1 [[1.0]; [1.0]]%float) (Mat_row [3.0; 4.0]%float))
    = Ok [[8.0]]%float /\
  cells (project (Mat_of_rows 1 [[1.0]; [2.0]]%float)
           (Mat_row [1.0; 1.0; 1.0]%float) (Mat_row [3.0; 4.0]%float))
    = Ok [[11.0]]%float.
Proof. vm_compute. split; reflexivity. Qed.

(** X9: whenever [reconstruct] returns, the result has the rows of the
    coefficients and as many columns as the basis has rows, the
    coefficients have as many columns as the basis, and cell (i, j) is
    the product of row i of the coefficients with row j of the basis,
    plus cell j of the mean when the mean is not empty and has one cell
    per coefficient column.  The premise is the scalar identity
    1 * x = x. *)
Theorem reconstruct_shape_and_cells {T : Type} {ST : Scalar T}
    (fmul_one : forall x : T, fmul fone x = x)
    (W mean src X : Mat T) :
  reconstruct W mean src = Ok X ->
  rows X = rows src /\ cols X = rows W /\ cols src = cols W /\
  forall i j, i < rows X -> j < cols X ->
    mat_at X i j =
    with_offset src mean (dot src (cv_transpose W) i j) j.
Proof.
  unfold reconstruct, with_offset. intros H.
  destruct (Nat.eqb_spec (cols src) (total mean)) as [Hmean|Hmean].
  - destruct (reshape_1_1 mean) as [m|e] eqn:Hm; [|discriminate H].
    cbn [bind] in H. apply reshape_1_1_cells in Hm.
    destruct Hm as (Hmr & Hmc & Hmch & Hmcells).
    unfold gemm in H.
    destruct (negb ((channels src =? 1) && (channels W =? 1)));
      [discriminate H|].
    destruct (Nat.eqb_spec (cols src) (rows (cv_transpose W))) as [Hin|Hin];
      [|discriminate H]. cbn [negb] in H.
    destruct (empty (repeat m (rows src) 1)) eqn:Hempty.
    + inversion H; subst X; clear H. cbn [rows cols mat_at cv_transpose] in *.
      repeat split; try assumption.
      intros i j Hi Hj.
      unfold empty, total in Hempty. cbn [rows cols repeat] in Hempty.
      apply Nat.eqb_eq in Hempty. rewrite Hmr, Hmc in Hempty.
      assert (Hzero : total mean = 0) by nia.
      rewrite Hzero. cbn [Nat.eqb negb andb]. apply fmul_one.
    + destruct ((channels (repeat m (rows src) 1) =? 1) &&
                (rows (repeat m (rows src) 1) =? rows src) &&
                (cols (repeat m (rows src) 1) =? cols (cv_transpose W)))
        eqn:Hshape; [|discriminate H].
      inversion H; subst X; clear H.
      cbn [rows cols channels mat_at cv_transpose repeat] in *.
      rewrite !andb_true_iff, !Nat.eqb_eq in Hshape.
      destruct Hshape as ((_ & _) & HcW).
      repeat split; try assumption.
      intros i j Hi Hj.
      unfold empty, total in Hempty. cbn [rows cols repeat] in Hempty.
      apply Nat.eqb_neq in Hempty. rewrite Hmr, Hmc in Hempty.
      assert (Hne : total mean <> 0) by nia.
      apply Nat.eqb_neq in Hne. rewrite Hne. cbn [negb andb].
      rewrite !fmul_one. f_equal.
      rewrite Hmr, Hmc, Nat.mod_1_r.
      rewrite Nat.mod_small by lia. apply Hmcells. lia.
  - cbn [bind] in H. apply gemm_no_C in H. cbn zeta in H.
    cbn [rows cols cv_transpose] in H.
    destruct H as (_ & _ & Hin & Hr & Hc & Hcells).
    repeat split; try assumption.
    intros i j Hi Hj. cbn [andb]. rewrite Hcells. apply fmul_one.
Qed.

(** X9 over the rationals, at the square basis [[1, 0], [0, 1]], the
    mean [10, 20] and the coefficients [[1, 2]]. *)
Lemma reconstruct_shape_and_cells_witness :
  exists X,
    reconstruct (Mat_of_rows 2 [[1; 0]; [0; 1]]%Q) (Mat_row [10; 20]%Q)
                (Mat_row [1; 2]%Q) = Ok X /\
    rows X = 1 /\ cols X = 2 /\
    mat_at X 0 1 =
      fadd (dot (Mat_row [1; 2]%Q)
              (cv_transpose (Mat_of_rows 2 [[1; 0]; [0; 1]]%Q)) 0 1)
           20%Q.
Proof.
  eexists. split; [reflexivity|].
  destruct (@reconstruct_shape_and_cells Q _ Q_fmul_one
              (Mat_of_rows 2 [[1; 0]; [0; 1]]%Q) (Mat_row [10; 20]%Q)
              (Mat_row [1; 2]%Q) _ eq_refl) as (Hr & Hc & _ & Hcells).
  split; [exact Hr|]. split; [exact Hc|].
  apply (Hcells 0 1); cbn; lia.
Defined.

(* ================================================================== *)
(** * The engine before, and at the edges of, compute *)

(** X10: on an instance that has not learned anything, [project] and
    [reconstruct] throw on every input, and both accessors return the
    empty matrix; none of them changes the instance. *)
Theorem LDA_untrained {T : Type} {ST : Scalar T}
    (num_components : Z) (dataAsRow : bool) (src : Mat T) :
  let this := LDA_new num_components dataAsRow in
  (exists e, LDA_project src this = (this, Err e)) /\
  (exists e, LDA_reconstruct src this = (this, Err e)) /\
  LDA_eigenvectors this = (this, Ok Mat_empty) /\
  LDA_eigenvalues this = (this, Ok Mat_empty) /\
  total (@Mat_empty T ST) = 0.
Proof.
  intros this.
  set (X := if dataAsRow then src else transpose src).
  assert (Hp : exists e, project Mat_empty Mat_empty X = Err e).
  { rewrite project_empty_mean.
    destruct (Nat.eqb_spec (cols X) 0) as [Hc|Hc]; [now eexists|].
    unfold gemm. destruct (negb _); [now eexists|].
    cbn [rows Mat_empty]. apply Nat.eqb_neq in Hc. rewrite Hc.
    now eexists. }
  assert (Hr : exists e, reconstruct Mat_empty Mat_empty X = Err e).
  { rewrite reconstruct_empty_mean.
    destruct (Nat.eqb_spec (cols X) 0) as [Hc|Hc]; [now eexists|].
    unfold gemm. destruct (negb _); [now eexists|].
    cbn [rows cols cv_transpose Mat_empty]. apply Nat.eqb_neq in Hc.
    rewrite Hc. now eexists. }
  destruct Hp as (e1 & Hp), Hr as (e2 & Hr).
  split; [exists e1|split; [exists e2|repeat split]].
  - unfold LDA_project, m_bind, m_get, m_lift. cbn. fold X. now rewrite Hp.
  - unfold LDA_reconstruct, m_bind, m_get, m_lift. cbn. fold X.
    now rewrite Hr.
Qed.

(** X11: on every sample matrix with more than one channel, [compute]
    raises CV_StsBadArg, whatever the labels, and leaves the whole
    instance as it was. *)
Theorem compute_multi_channel {T : Type} {ST : Scalar T}
    (E : External T) (this : LDA T) (src : Mat T) (labels : list Z) :
  channels src <> 1 ->
  compute E src labels this = (this, Err StsBadArg).
Proof.
  intros Hch. unfold compute. unfold m_bind at 1. cbn [m_get].
  apply Nat.eqb_neq in Hch. rewrite Hch. reflexivity.
Qed.

(** X11 at a 2 x 1 matrix of three-channel cells with two labels. *)
Lemma compute_multi_channel_witness :
  compute External_diag (mkMat 2 1 3 (fun _ _ => 1.0%float)) [0; 1]%Z
          (LDA_new 0 true)
  = (LDA_new 0 true, Err StsBadArg).
Proof.
  apply (@compute_multi_channel _ _ External_diag (LDA_new 0 true)
           (mkMat 2 1 3 (fun _ _ => 1.0%float)) [0; 1]%Z).
  cbn. lia.
Defined.

Section ComputeEdges.

Context {T : Type} {ST : Scalar T}.

Lemma clip_components_idem (requested : Z) (C : nat) :
  clip_components (clip_components requested C) C
  = clip_components requested C.
Proof.
  rewrite !clip_components_min.
  destruct (Z.leb_spec requested 0).
  - destruct (Z.leb_spec (Z.of_nat C - 1) 0); lia.
  - destruct (Z.leb_spec (Z.min requested (Z.of_nat C - 1)) 0); lia.
Qed.

(** [compute_returns] without the lower bound on the classes: one
    feature and room for the clipped count are enough. *)
Lemma compute_returns_gen (E : External T) (this : LDA T) (src : Mat T)
    (labels : list Z) :
  solver_ok E ->
  channels src = 1 ->
  length labels = rows (oriented this src) ->
  1 <= cols (oriented this src) ->
  (0 <= clip_components (_num_components this)
          (length (remove_dups labels))
     <= Z.of_nat (cols (oriented this src)))%Z ->
  exists this',
    compute E src labels this = (this', Ok tt) /\
    _num_components this' =
      clip_components (_num_components this) (length (remove_dups labels)).
Proof.
  intros [Hinv Heig] Hch Hlen HD Hn.
  set (data := oriented this src) in *.
  set (n := clip_components (_num_components this)
              (length (remove_dups labels))) in *.
  assert (Hchd : channels data = 1).
  { unfold data, oriented. destruct (_dataAsRow this); exact Hch. }
  destruct (scatter_ok data labels Hchd Hlen)
    as (Sw & Sb & HS & (HSwr & HSwc & HSwch) & (HSbr & HSbc & HSbch) & _).
  destruct (Hinv Sw) as (Hir & Hic & Hich).
  pose proof (gemm_no_C_eq (ext_inv E Sw) Sb fone fzero Hich HSbch
                ltac:(congruence)) as HM.
  set (M := mkMat _ _ _ _) in HM.
  destruct (Heig M) as (Hevch & Hevtot & Hevecc).
  { unfold M. cbn. congruence. }
  assert (HMr : rows M = cols data) by (unfold M; cbn; congruence).
  destruct (reshape_1_1_ok (fst (ext_eigen E M)) Hevch)
    as (ev0 & Hev0 & Hr0 & Hch0 & Hc0); [lia|].
  pose proof (argsort_row ev0 false Hr0 Hch0) as Hidx. cbn [negb] in Hidx.
  set (idxs := sortIdx_row (row_list ev0 0) true) in *.
  assert (Hlenidx : length idxs = cols data).
  { unfold idxs. rewrite sortIdx_row_length, row_list_length. lia. }
  assert (Hrange : Forall (fun x => (0 <= x < Z.of_nat (cols data))%Z) idxs).
  { unfold idxs. replace (cols data) with (length (row_list ev0 0))
      by (rewrite row_list_length; lia).
    apply sortIdx_row_range. }
  destruct (@sortMatrixByColumn_run _ _ ev0 idxs (ext_alloc E 0))
    as (ev1 & Hev1 & _ & Hc1 & _);
    [lia|now replace (cols ev0) with (cols data) by lia|].
  destruct (@sortMatrixByColumn_run _ _ (snd (ext_eigen E M)) idxs
              (ext_alloc E 1))
    as (evec1 & Hevec1 & _ & Hcv1 & _);
    [lia|now replace (cols (snd (ext_eigen E M))) with (cols data) by lia|].
  destruct (colRange_prefix_ex ev1 (k := n)) as (ev2 & Hev2 & Hc2); [lia|].
  destruct (colRange_prefix_ex evec1 (k := n)) as (evec2 & Hevec2 & Hcv2);
    [lia|].
  exists (mkLDA (_dataAsRow this) n evec2 ev2).
  split; [|reflexivity].
  now apply (@compute_intro _ _ E this src labels Sw Sb M ev0 ev1 evec1
               ev2 evec2 idxs).
Qed.

(** A returning [compute] stored a count that is not negative. *)
Lemma compute_count_nonneg (E : External T) (this this' : LDA T)
    (src : Mat T) (labels : list Z) :
  compute E src labels this = (this', Ok tt) ->
  (0 <= clip_components (_num_components this)
          (length (remove_dups labels)))%Z.
Proof.
  intros H. apply compute_inv in H.
  destruct H
    as [Sw Sb M ev0 ev1 evec1 ev2 evec2 idxs Hch Hlen HS HM Hev0 Hidx
        Hev1 Hevec1 Hev2 Hevec2 Hfin].
  apply colRange_prefix in Hev2. lia.
Qed.

End ComputeEdges.

(** X12: with no sample and no label, [compute] never returns a model:
    it throws, whatever the solver and the requested count, and it
    leaves -1 in [_num_components]. *)
Theorem compute_no_samples_throws {T : Type} {ST : Scalar T}
    (E : External T) (this : LDA T) (src : Mat T) :
  channels src = 1 ->
  rows (oriented this src) = 0 ->
  exists this' e,
    compute E src [] this = (this', Err e) /\
    _num_components this' = (-1)%Z.
Proof.
  intros Hch Hrows.
  assert (Hlen : length (@nil Z) = rows (oriented this src))
    by (now rewrite Hrows).
  destruct (compute_config E this src [] Hch Hlen) as [_ Hn].
  assert (Hclip : clip_components (_num_components this)
                    (length (remove_dups [])) = (-1)%Z).
  { rewrite clip_components_min. cbn [remove_dups fold_left length].
    destruct (Z.leb_spec (_num_components this) 0); lia. }
  destruct (compute E src [] this) as [this' [[]|e]] eqn:Hrun.
  - exfalso. apply compute_count_nonneg in Hrun. lia.
  - exists this', e. split; [reflexivity|].
    cbn [fst] in Hn. now rewrite Hn.
Qed.

(** X12 at the matrix of doubles with no row and two columns. *)
Lemma compute_no_samples_throws_witness :
  exists this' e,
    compute (T := float) External_diag (Mat_of_rows 2 []) []
            (LDA_new 3 true)
      = (this', Err e) /\
    _num_components this' = (-1)%Z.
Proof.
  apply (@compute_no_samples_throws float _ External_diag (LDA_new 3 true)
           (Mat_of_rows 2 [])).
  - reflexivity.
  - reflexivity.
Defined.

(** X13: a training set with a single class is not refused: with a
    solver that keeps the shapes and at least one feature, [compute]
    returns, whatever count was requested, and the subspace it stores has
    no direction: 0 components, no eigenvector column and no
    eigenvalue. *)
Theorem compute_single_class {T : Type} {ST : Scalar T}
    (E : External T) (this : LDA T) (src : Mat T) (labels : list Z) :
  solver_ok E ->
  channels src = 1 ->
  length labels = rows (oriented this src) ->
  length (remove_dups labels) = 1 ->
  1 <= cols (oriented this src) ->
  exists this',
    compute E src labels this = (this', Ok tt) /\
    _num_components this' = 0%Z /\
    cols (_eigenvectors this') = 0 /\
    cols (_eigenvalues this') = 0.
Proof.
  intros Hsolver Hch Hlen HC HD.
  assert (Hclip : clip_components (_num_components this)
                    (length (remove_dups labels)) = 0%Z).
  { rewrite clip_components_min, HC.
    destruct (Z.leb_spec (_num_components this) 0); lia. }
  destruct (compute_returns_gen this src labels Hsolver Hch Hlen HD)
    as (this' & Hrun & Hn); [rewrite Hclip; lia|].
  exists this'. split; [exact Hrun|].
  rewrite Hclip in Hn. split; [exact Hn|].
  pose proof Hrun as Hvec. apply compute_eigenvectors in Hvec.
  destruct Hvec as (_ & Hcv & _).
  apply compute_eigenvalues in Hrun.
  destruct Hrun as (_ & _ & _ & Hce & _).
  rewrite Hcv, Hce, Hn. split; reflexivity.
Qed.

(** X13 on doubles: three one-dimensional samples with the same label. *)
Lemma compute_single_class_witness :
  exists this',
    compute External_diag (Mat_of_rows 1 [[1.0]; [2.0]; [4.0]]%float)
            [8; 8; 8]%Z (LDA_new 2 true) = (this', Ok tt) /\
    _num_components this' = 0%Z /\
    cols (_eigenvectors this') = 0 /\
    cols (_eigenvalues this') = 0.
Proof.
  apply (@compute_single_class float _ External_diag (LDA_new 2 true)
           (Mat_of_rows 1 [[1.0]; [2.0]; [4.0]]%float) [8; 8; 8]%Z
           External_diag_ok); reflexivity.
Defined.

(** X14: [compute] replaces the learned subspace wholesale: when it
    returns, the instance it leaves does not depend on the eigenvectors
    and eigenvalues stored before, only on the orientation flag and the
    stored count. *)
Theorem compute_overwrites {T : Type} {ST : Scalar T}
    (E : External T) (this this' : LDA T) (src : Mat T) (labels : list Z)
    (vectors values : Mat T) :
  compute E src labels this = (this', Ok tt) ->
  compute E src labels
    (mkLDA (_dataAsRow this) (_num_components this) vectors values)
  = (this', Ok tt).
Proof.
  intros H. apply compute_inv in H.
  destruct H
    as [Sw Sb M ev0 ev1 evec1 ev2 evec2 idxs Hch Hlen HS HM Hev0 Hidx
        Hev1 Hevec1 Hev2 Hevec2 Hfin].
  subst this'.
  now apply (@compute_intro _ _ E
               (mkLDA (_dataAsRow this) (_num_components this) vectors values)
               src labels Sw Sb M ev0 ev1 evec1 ev2 evec2 idxs).
Qed.

(** X15: [compute] is idempotent: when it returns, running it again on
    the same samples and labels, from the instance it left, returns and
    leaves that same instance; the count it stored is a fixed point of
    the clipping. *)
Theorem compute_idempotent {T : Type} {ST : Scalar T}
    (E : External T) (this this' : LDA T) (src : Mat T) (labels : list Z) :
  compute E src labels this = (this', Ok tt) ->
  compute E src labels this' = (this', Ok tt).
Proof.
  intros H. apply compute_inv in H.
  destruct H
    as [Sw Sb M ev0 ev1 evec1 ev2 evec2 idxs Hch Hlen HS HM Hev0 Hidx
        Hev1 Hevec1 Hev2 Hevec2 Hfin].
  subst this'.
  pose proof (@compute_intro _ _ E
                (mkLDA (_dataAsRow this)
                   (clip_components (_num_components this)
                      (length (remove_dups labels))) evec2 ev2)
                src labels Sw Sb M ev0 ev1 evec1 ev2 evec2 idxs) as Hagain.
  cbn zeta in Hagain. cbn [_dataAsRow _num_components] in Hagain.
  rewrite clip_components_idem in Hagain.
  now apply Hagain.
Qed.

Lemma first_run_returns : snd first_run = Ok tt.
Proof. vm_compute. reflexivity. Qed.

(** X14 on doubles: the two-class run started from an instance that
    already holds two matrices. *)
Lemma compute_overwrites_witness :
  compute External_diag two_classes_1d [7; 7; 3; 3]%Z
    (mkLDA true 0 (Mat_row [9.0%float]) (Mat_row [9.0; 9.0]%float))
  = (fst first_run, Ok tt).
Proof.
  apply (@compute_overwrites float _ External_diag (LDA_new 0 true)
           (fst first_run) two_classes_1d [7; 7; 3; 3]%Z
           (Mat_row [9.0%float]) (Mat_row [9.0; 9.0]%float)).
  apply returned_pair. exact first_run_returns.
Defined.

(** X15 on doubles: the two-class run, twice. *)
Lemma compute_idempotent_witness :
  compute External_diag two_classes_1d [7; 7; 3; 3]%Z (fst first_run)
  = (fst first_run, Ok tt).
Proof.
  apply (@compute_idempotent float _ External_diag (LDA_new 0 true)
           (fst first_run) two_classes_1d [7; 7; 3; 3]%Z).
  apply returned_pair. exact first_run_returns.
Defined.

(* ================================================================== *)
(** * The label mapping of compute *)

Section Relabel.

Variable f : Z -> Z.
Hypothesis f_mono : forall a b : Z, (a < b)%Z -> (f a < f b)%Z.

Lemma set_insert_map (x : Z) (s : list Z) :
  set_insert (f x) (map f s) = map f (set_insert x s).
Proof.
  induction s as [|y t IH]; cbn [map set_insert]; [reflexivity|].
  destruct (Z.ltb_spec x y) as [Hxy|Hxy].
  - replace (f x <? f y)%Z with true
      by (symmetry; apply Z.ltb_lt; auto).
    reflexivity.
  - assert (Hnlt : (f x <? f y)%Z = false).
    { apply Z.ltb_ge. destruct (Z.eq_dec x y) as [->|Hne]; [lia|].
      assert (Hyx : (y < x)%Z) by lia.
      apply f_mono in Hyx. lia. }
    rewrite Hnlt.
    destruct (Z.ltb_spec y x) as [Hyx|Hyx].
    + replace (f y <? f x)%Z with true
        by (symmetry; apply Z.ltb_lt; auto).
      cbn [map]. now rewrite IH.
    + assert (x = y) by lia. subst x. now rewrite Z.ltb_irrefl.
Qed.

Lemma set_fill_map (src s : list Z) :
  fold_left (fun s x => set_insert x s) (map f src) (map f s) =
  map f (fold_left (fun s x => set_insert x s) src s).
Proof.
  revert s; induction src as [|x src IH]; intros s; cbn [map fold_left].
  - reflexivity.
  - rewrite set_insert_map. apply IH.
Qed.

(** A strictly increasing relabelling commutes with [remove_dups]. *)
Lemma remove_dups_map (src : list Z) :
  remove_dups (map f src) = map f (remove_dups src).
Proof.
  unfold remove_dups. rewrite !push_back_loop. cbn [app].
  apply (set_fill_map src []).
Qed.

(** The class indices do not see it. *)
Lemma mapped_labels_of_map (labels : list Z) :
  mapped_labels_of (map f labels) = mapped_labels_of labels.
Proof.
  unfold mapped_labels_of. rewrite map_map.
  apply map_ext_in. intros x Hx.
  apply remove_dups_In in Hx.
  destruct (In_nth _ _ 0%Z Hx) as (c & Hc & <-).
  rewrite (label2num_of_nth (remove_dups_NoDup labels) Hc).
  replace (f (nth c (remove_dups labels) 0%Z))
    with (nth c (remove_dups (map f labels)) 0%Z).
  - apply label2num_of_nth; [apply remove_dups_NoDup|].
    now rewrite remove_dups_map, length_map.
  - rewrite remove_dups_map.
    rewrite (nth_indep _ 0%Z (f 0%Z)) by (now rewrite length_map).
    apply map_nth.
Qed.

Lemma scatter_relabel {T : Type} {ST : Scalar T} (data : Mat T)
    (labels : list Z) :
  scatter data (map f labels) = scatter data labels.
Proof.
  unfold scatter. cbn zeta.
  now rewrite mapped_labels_of_map, remove_dups_map, length_map.
Qed.

Lemma compute_relabel {T : Type} {ST : Scalar T} (E : External T)
    (this : LDA T) (src : Mat T) (labels : list Z) :
  compute E src (map f labels) this = compute E src labels this.
Proof.
  unfold compute. rewrite !m_bind_get. cbn zeta.
  now rewrite scatter_relabel, remove_dups_map, !length_map.
Qed.

End Relabel.

(** X16: [compute] sees the labels only through their order: renaming
    them by a strictly increasing function changes nothing, neither the
    instance that is left nor whether and how the call throws. *)
Theorem compute_relabel_invariant {T : Type} {ST : Scalar T}
    (E : External T) (this : LDA T) (src : Mat T) (labels : list Z)
    (f : Z -> Z) :
  (forall a b : Z, (a < b)%Z -> (f a < f b)%Z) ->
  compute E src (map f labels) this = compute E src labels this.
Proof.
  intros Hf. now apply compute_relabel.
Qed.

(** X16 on the twelve rational samples, the labels 5, 6, 9 renamed to
    3, 5, 11. *)
Lemma compute_relabel_invariant_witness :
  compute External_diag three_classes_Q
    (map (fun z => (2 * z - 7)%Z) three_classes_labels) (LDA_new 0 true)
  = compute External_diag three_classes_Q three_classes_labels
      (LDA_new 0 true).
Proof.
  apply (@compute_relabel_invariant Q _ External_diag (LDA_new 0 true)
           three_classes_Q three_classes_labels (fun z => (2 * z - 7)%Z)).
  intros a b Hab. lia.
Defined.

(** In a strictly increasing list, the entries below the one at position
    [c] are the [c] entries before it. *)
Lemma sorted_rank (l : list Z) (c : nat) :
  StronglySorted Z.lt l -> c < length l ->
  length (filter (fun x => (x <? nth c l 0)%Z) l) = c.
Proof.
  intros Hs. revert c.
  induction Hs as [|a t Ht IH Hall]; intros c Hc; cbn [length] in Hc; [lia|].
  rewrite Forall_forall in Hall.
  destruct c as [|c]; cbn [nth filter].
  - rewrite Z.ltb_irrefl.
    replace (filter (fun x => (x <? a)%Z) t) with (@nil Z); [reflexivity|].
    symmetry. clear IH Ht Hc. induction t as [|y t IHt]; [reflexivity|].
    cbn [filter].
    replace (y <? a)%Z with false
      by (symmetry; apply Z.ltb_ge; specialize (Hall y (or_introl eq_refl));
          lia).
    apply IHt. intros x Hx. apply Hall. now right.
  - assert (Hlt : (a < nth c t 0)%Z) by (apply Hall, nth_In; lia).
    apply Z.ltb_lt in Hlt. rewrite Hlt. cbn [length].
    f_equal. apply IH. lia.
Qed.

(** X17: the class index that [compute] gives to a sample is the rank of
    its label: the number of distinct labels that are smaller.  So the
    indices are 0 .. C-1 and ascend with the labels, whatever the order
    in which the labels first occur. *)
Theorem mapped_labels_rank (labels : list Z) (r : nat) :
  r < length labels ->
  nth r (mapped_labels_of labels) 0%Z =
    Z.of_nat (length (filter (fun x => (x <? nth r labels 0)%Z)
                        (remove_dups labels))) /\
  (0 <= nth r (mapped_labels_of labels) 0
     < Z.of_nat (length (remove_dups labels)))%Z.
Proof.
  intros Hr.
  assert (Hin : In (nth r labels 0%Z) (remove_dups labels)).
  { apply remove_dups_In. now apply nth_In. }
  destruct (In_nth _ _ 0%Z Hin) as (c & Hc & Hnth).
  assert (Hmapped : nth r (mapped_labels_of labels) 0%Z = Z.of_nat c).
  { unfold mapped_labels_of.
    rewrite (nth_indep _ 0%Z
               (map_get (label2num_of (remove_dups labels)) 0%Z))
      by (now rewrite length_map).
    rewrite (map_nth (map_get (label2num_of (remove_dups labels)))).
    rewrite <- Hnth.
    apply label2num_of_nth; [apply remove_dups_NoDup|exact Hc]. }
  rewrite Hmapped, <- Hnth.
  rewrite (sorted_rank (remove_dups_StronglySorted labels) Hc).
  split; [reflexivity|lia].
Qed.

(** X17 on the labels 9, 5, 9, 6: the sample at position 2 has label 9,
    two distinct labels are smaller. *)
Lemma mapped_labels_rank_witness :
  nth 2 (mapped_labels_of [9; 5; 9; 6]%Z) 0%Z =
    Z.of_nat (length (filter (fun x => (x <? nth 2 [9; 5; 9; 6] 0)%Z)
                        (remove_dups [9; 5; 9; 6]%Z))) /\
  (0 <= nth 2 (mapped_labels_of [9; 5; 9; 6]%Z) 0
     < Z.of_nat (length (remove_dups [9; 5; 9; 6]%Z)))%Z.
Proof.
  apply (mapped_labels_rank [9; 5; 9; 6]%Z (r := 2)). cbn. lia.
Defined.

(* ================================================================== *)
(** * The within-class scatter *)

Section WithinScatter.

Context {T : Type} {ST : Scalar T}.

Lemma center_loop_cells (data : Mat T) (labels : list Z) (st : Stats T) :
  channels data = 1 -> length labels = rows data ->
  (forall c, c < length (remove_dups labels) ->
     is_row (cols data) (nth c (meanClass st) Mat_empty)) ->
  exists data',
    for_loop (rows data) (center_body (mapped_labels_of labels) st) data
      = Ok data' /\
    center_inv data labels st (rows data) data'.
Proof.
  intros Hch Hlen Hcls.
  apply (for_loop_inv (center_inv data labels st)).
  - repeat split; try assumption. 
  - intros i d Hi (Hr & Hc & Hchd & Hcells). unfold center_body.
    change (Z.to_nat (nth i (mapped_labels_of labels) 0%Z))
      with (class_of labels i).
    assert (Hk : class_of labels i < length (remove_dups labels))
      by (apply class_of_spec; lia).
    destruct (Hcls _ Hk) as (Hkr & Hkc & Hkch).
    rewrite subtract_ok by (cbn; congruence). cbn [bind].
    eexists. split; [reflexivity|].
    unfold center_inv. cbn [rows cols channels mat_at set_row row].
    repeat split; try assumption.
    intros r j. rewrite (Hcells r j), (Hcells i j).
    rewrite Nat.ltb_irrefl.
    destruct (Nat.eqb_spec r i) as [->|Hne].
    + replace (i <? S i) with true by (symmetry; apply Nat.ltb_lt; lia).
      reflexivity.
    + destruct (Nat.ltb_spec r i), (Nat.ltb_spec r (S i));
        try reflexivity; lia.
Qed.

(** The samples of the class of [r] are those with the label of [r]. *)
Lemma members_of_class_of (labels : list Z) (r : nat) :
  r < length labels ->
  members labels (class_of labels r) = peers labels r.
Proof.
  intros Hr. unfold members, peers.
  now rewrite (proj2 (class_of_spec labels Hr)).
Qed.

Lemma sum_list_dot (f : nat -> T) (l : list nat) :
  fold_left (fun acc r => fadd acc (f r)) l fzero = sum_list (map f l).
Proof.
  unfold sum_list. generalize (@fzero T ST).
  induction l as [|x l IH]; intros z; cbn [map fold_left]; [reflexivity|].
  apply IH.
Qed.

(** [scatter] on a valid input, both matrices cell by cell. *)
Lemma scatter_cells (data : Mat T) (labels : list Z) :
  channels data = 1 -> length labels = rows data ->
  exists Sw Sb,
    scatter data labels = Ok (Sw, Sb) /\
    (forall a b, mat_at Sw a b = Sw_spec data labels a b) /\
    (forall a b,
       mat_at Sb a b =
       sum_list
         (map (fun c =>
                 fadd fzero
                   (fmul (fsub (mean_class data labels c a)
                               (mean_total data a))
                         (fsub (mean_class data labels c b)
                               (mean_total data b))))
              (seq 0 (length (remove_dups labels))))).
Proof.
  intros Hch Hlen. unfold scatter.
  destruct (class_statistics_ok data labels Hch Hlen)
    as (st & Hst & Hmt & Hmtc & HlenM & Hcls).
  rewrite Hst. cbn [bind].
  destruct (center_loop_cells data labels st Hch Hlen
              (fun c Hc => proj1 (Hcls c Hc)))
    as (data' & Hrun & Hr' & Hc' & Hch' & Hcells').
  rewrite Hrun. cbn [bind].
  unfold mulTransposed_aTa at 1. rewrite Hch'. cbn [Nat.eqb bind].
  destruct (Sb_loop st (D := cols data) (C := length (remove_dups labels)) Hmt
              (fun c Hc => proj1 (Hcls c Hc)))
    as (Sb & HSb & HSr & HSc & HSch & Hcells).
  rewrite HSb. cbn [bind].
  eexists. exists Sb. split; [reflexivity|].
  cbn [mat_at]. split.
  - intros a b. unfold dot, Sw_spec.
    cbn [cols rows cv_transpose mat_at]. rewrite Hr'.
    rewrite (sum_list_dot
               (fun r => fmul (mat_at data' r a) (mat_at data' r b))).
    f_equal. apply map_ext_in. intros r Hin. apply in_seq in Hin.
    assert (Hrl : r < length labels) by lia.
    assert (Hk : class_of labels r < length (remove_dups labels))
      by (apply class_of_spec; exact Hrl).
    rewrite !Hcells'.
    replace (r <? rows data) with true by (symmetry; apply Nat.ltb_lt; lia).
    rewrite !(proj2 (Hcls _ Hk)).
    unfold deviation, mean_of_peers, mean_class.
    now rewrite (members_of_class_of labels Hrl).
  - intros a b. rewrite Hcells. f_equal.
    apply map_ext_in. intros c Hc. apply in_seq in Hc.
    rewrite !Hmtc, !(proj2 (Hcls c (proj2 Hc))). reflexivity.
Qed.

End WithinScatter.

(** X18: on every valid input of [compute], the within-class scatter
    that the scatter step returns is, cell by cell, the sum over the
    samples of (x - mean of its class)(x - mean of its class)^T, the mean
    of a class being the sum of its samples times the reciprocal of their
    number; no law of arithmetic is needed. *)
Theorem within_scatter_formula {T : Type} {ST : Scalar T}
    (data : Mat T) (labels : list Z) :
  channels data = 1 -> length labels = rows data ->
  exists Sw Sb,
    scatter data labels = Ok (Sw, Sb) /\
    rows Sw = cols data /\ cols Sw = cols data /\
    forall a b, mat_at Sw a b = Sw_spec data labels a b.
Proof.
  intros Hch Hlen.
  destruct (scatter_cells data labels Hch Hlen)
    as (Sw & Sb & Hrun & HSw & _).
  destruct (scatter_ok data labels Hch Hlen)
    as (Sw' & Sb' & Hrun' & (Hr & Hc & _) & _).
  rewrite Hrun in Hrun'. inversion Hrun'; subst Sw' Sb'.
  exists Sw, Sb. repeat split; assumption.
Qed.

(** X18 on the twelve rational samples. *)
Lemma within_scatter_formula_witness :
  exists Sw Sb,
    scatter three_classes_Q three_classes_labels = Ok (Sw, Sb) /\
    rows Sw = cols three_classes_Q /\ cols Sw = cols three_classes_Q /\
    forall a b, mat_at Sw a b = Sw_spec three_classes_Q three_classes_labels a b.
Proof.
  apply (@within_scatter_formula Q _ three_classes_Q three_classes_labels);
    reflexivity.
Defined.

(** X19: with a commutative multiplication, both scatter matrices are
    symmetric. *)
Theorem scatter_symmetric {T : Type} {ST : Scalar T}
    (data : Mat T) (labels : list Z) :
  (forall x y : T, fmul x y = fmul y x) ->
  channels data = 1 -> length labels = rows data ->
  exists Sw Sb,
    scatter data labels = Ok (Sw, Sb) /\
    symmetric_upto (cols data) Sw /\ symmetric_upto (cols data) Sb.
Proof.
  intros Hcomm Hch Hlen.
  destruct (scatter_cells data labels Hch Hlen)
    as (Sw & Sb & Hrun & HSw & HSb).
  exists Sw, Sb. split; [exact Hrun|].
  split; intros a b _ _.
  - rewrite !HSw. unfold Sw_spec. f_equal.
    apply map_ext. intros r. apply Hcomm.
  - rewrite !HSb. f_equal.
    apply map_ext. intros c. f_equal. apply Hcomm.
Qed.

Lemma Q_fmul_comm (x y : Q) : fmul x y = fmul y x.
Proof.
  cbn. unfold Qmult. f_equal; [apply Z.mul_comm|apply Pos.mul_comm].
Qed.

(** X19 on the twelve rational samples. *)
Lemma scatter_symmetric_witness :
  exists Sw Sb,
    scatter three_classes_Q three_classes_labels = Ok (Sw, Sb) /\
    symmetric_upto (cols three_classes_Q) Sw /\
    symmetric_upto (cols three_classes_Q) Sb.
Proof.
  apply (@scatter_symmetric Q _ three_classes_Q three_classes_labels).
  - exact Q_fmul_comm.
  - reflexivity.
  - reflexivity.
Defined.

(* ================================================================== *)
(** * Eigenvalues and eigenvectors stay paired *)

Section Pairing.

Context {T : Type} {ST : Scalar T}.

(** What a [sortMatrixByColumn] that returned says about its input. *)
Lemma sortMatrixByColumn_inv (src dst : Mat T) (indices : list Z)
    (junk : nat -> nat -> T) :
  sortMatrixByColumn src indices junk = Ok dst ->
  length indices <= cols src /\
  Forall (fun x => (0 <= x < Z.of_nat (cols src))%Z) indices /\
  rows dst = rows src /\ cols dst = cols src /\
  channels dst = channels src /\
  forall r j, j < length indices ->
    mat_at dst r j = mat_at src r (Z.to_nat (nth j indices 0%Z)).
Proof.
  intros H.
  destruct (le_lt_dec (length indices) (cols src)) as [Hlen|Hlen].
  2:{ unfold sortMatrixByColumn in H.
      rewrite sortMatrixByColumn_loop_fails in H;
        [discriminate H|cbn; lia|left; cbn; lia]. }
  assert (Hdec : forall x : Z,
             {(0 <= x < Z.of_nat (cols src))%Z} +
             {~ (0 <= x < Z.of_nat (cols src))%Z}).
  { intros x. destruct (Z_le_dec 0 x), (Z_lt_dec x (Z.of_nat (cols src)));
      [left|right|right|right]; lia. }
  destruct (Forall_Exists_dec _ Hdec indices) as [Hall|Hex].
  2:{ unfold sortMatrixByColumn in H.
      rewrite sortMatrixByColumn_loop_fails in H;
        [discriminate H|cbn; lia|now right]. }
  destruct (sortMatrixByColumn_run src junk Hlen Hall)
    as (dst' & Hrun & Hr & Hc & Hch & Hcells).
  rewrite H in Hrun. inversion Hrun; subst dst'; clear Hrun.
  repeat split; try assumption.
  intros r j Hj. rewrite Hcells.
  replace (j <? length indices) with true
    by (symmetry; apply Nat.ltb_lt; exact Hj).
  reflexivity.
Qed.

Lemma NoDup_firstn {A : Type} (n : nat) (l : list A) :
  NoDup l -> NoDup (firstn n l).
Proof.
  intros H. rewrite <- (firstn_skipn n l) in H.
  now apply NoDup_app_remove_r in H.
Qed.

Lemma compute_pairs (E : External T) (this this' : LDA T) (src : Mat T)
    (labels : list Z) :
  compute E src labels this = (this', Ok tt) ->
  exists Sw Sb M ps,
    scatter (oriented this src) labels = Ok (Sw, Sb) /\
    gemm (ext_inv E Sw) Sb fone Mat_empty fzero false = Ok M /\
    length ps = Z.to_nat (_num_components this') /\
    NoDup ps /\
    (rows (_eigenvectors this') = rows (snd (ext_eigen E M)) /\
     channels (_eigenvectors this') = channels (snd (ext_eigen E M))) /\
    forall i, i < length ps ->
      nth i ps 0 < total (fst (ext_eigen E M)) /\
      mat_at (_eigenvalues this') 0 i =
        flat_cell (fst (ext_eigen E M)) (nth i ps 0) /\
      forall r, mat_at (_eigenvectors this') r i =
                mat_at (snd (ext_eigen E M)) r (nth i ps 0).
Proof.
  intros H. apply compute_inv in H.
  destruct H
    as [Sw Sb M ev0 ev1 evec1 ev2 evec2 idxs Hch Hlen HS HM Hev0 Hidx
        Hev1 Hevec1 Hev2 Hevec2 Hfin].
  apply reshape_1_1_cells in Hev0.
  destruct Hev0 as (Hr0 & Hc0 & Hch0 & Hcells0).
  rewrite (argsort_row ev0 false Hr0 Hch0) in Hidx. cbn [negb] in Hidx.
  inversion Hidx as [Hidxs]; clear Hidx.
  rewrite sortIdx_row_positions in Hidxs.
  set (sp := sorted_positions (row_list ev0 0) true) in *.
  assert (Hsplen : length sp = cols ev0).
  { unfold sp. rewrite sorted_positions_length. apply row_list_length. }
  assert (Hidxlen : length idxs = cols ev0)
    by (now rewrite <- Hidxs, length_map).
  apply sortMatrixByColumn_inv in Hev1, Hevec1.
  destruct Hev1 as (_ & _ & _ & Hc1 & _ & Hcells1).
  destruct Hevec1 as (_ & _ & Hvr1 & _ & Hvch1 & Hvcells1).
  apply colRange_prefix in Hev2, Hevec2.
  destruct Hev2 as (Hk & _ & _ & _ & Hcells2).
  destruct Hevec2 as (_ & Hvr2 & _ & Hvch2 & Hvcells2).
  set (k := clip_components (_num_components this)
              (length (remove_dups labels))) in *.
  exists Sw, Sb, M, (firstn (Z.to_nat k) sp).
  subst this'. cbn [_num_components _eigenvalues _eigenvectors].
  assert (Hlenps : length (firstn (Z.to_nat k) sp) = Z.to_nat k)
    by (rewrite length_firstn; lia).
  split; [exact HS|]. split; [exact HM|]. split; [exact Hlenps|].
  split.
  { apply NoDup_firstn.
    apply (Permutation_NoDup
             (Permutation_sym (sorted_positions_perm (row_list ev0 0) true))).
    apply seq_NoDup. }
  split; [split; congruence|].
  intros i Hi. rewrite Hlenps in Hi.
  rewrite nth_firstn.
  replace (i <? Z.to_nat k) with true by (symmetry; apply Nat.ltb_lt; lia).
  assert (Hp : nth i sp 0 < cols ev0).
  { pose proof (sorted_positions_range (row_list ev0 0) true) as Hrange.
    rewrite Forall_forall in Hrange. rewrite row_list_length in Hrange.
    apply Hrange. apply nth_In. fold sp. lia. }
  assert (Hnth : Z.to_nat (nth i idxs 0%Z) = nth i sp 0).
  { rewrite <- Hidxs. change 0%Z with (Z.of_nat 0).
    now rewrite map_nth, Nat2Z.id. }
  split; [lia|]. split.
  - rewrite Hcells2, Hcells1, Hnth by lia. apply Hcells0. lia.
  - intros r. rewrite Hvcells2, Hvcells1, Hnth by lia. reflexivity.
Qed.

(** The shapes along [compute]: the matrix handed to the decomposition is
    square of the size of the feature dimension. *)
Lemma compute_matrix_square (E : External T) (data Sw Sb M : Mat T)
    (labels : list Z) :
  solver_ok E ->
  channels data = 1 -> length labels = rows data ->
  scatter data labels = Ok (Sw, Sb) ->
  gemm (ext_inv E Sw) Sb fone Mat_empty fzero false = Ok M ->
  rows M = cols data /\ cols M = cols data.
Proof.
  intros [Hinv _] Hch Hlen HS HM.
  destruct (scatter_ok data labels Hch Hlen)
    as (Sw' & Sb' & HS' & (HSwr & HSwc & HSwch) & (HSbr & HSbc & HSbch) & _).
  rewrite HS in HS'. inversion HS'; subst Sw' Sb'; clear HS'.
  apply gemm_no_C in HM. cbn zeta in HM.
  destruct HM as (_ & _ & _ & HMr & HMc & _).
  destruct (Hinv Sw) as (Hir & _ & _).
  split; congruence.
Qed.

End Pairing.

(** X20: sorting and truncation keep every eigenvalue with its
    eigenvector.  After a [compute] that returned, there are pairwise
    distinct positions p_0, ..., p_(k-1) in the solver's output, k the
    stored count, such that stored eigenvalue i is the solver's
    eigenvalue p_i and stored eigenvector column i is the solver's
    column p_i, in every row. *)
Theorem compute_keeps_eigenpairs {T : Type} {ST : Scalar T}
    (E : External T) (this this' : LDA T) (src : Mat T) (labels : list Z) :
  compute E src labels this = (this', Ok tt) ->
  exists Sw Sb M ps,
    scatter (oriented this src) labels = Ok (Sw, Sb) /\
    gemm (ext_inv E Sw) Sb fone Mat_empty fzero false = Ok M /\
    length ps = Z.to_nat (_num_components this') /\
    NoDup ps /\
    forall i, i < length ps ->
      nth i ps 0 < total (fst (ext_eigen E M)) /\
      mat_at (_eigenvalues this') 0 i =
        flat_cell (fst (ext_eigen E M)) (nth i ps 0) /\
      forall r, mat_at (_eigenvectors this') r i =
                mat_at (snd (ext_eigen E M)) r (nth i ps 0).
Proof.
  intros H. apply compute_pairs in H.
  destruct H as (Sw & Sb & M & ps & HS & HM & Hlen & Hnd & _ & Hcells).
  exists Sw, Sb, M, ps. repeat split; try assumption; now apply Hcells.
Qed.

(** X20 on the two-class run of doubles. *)
Lemma compute_keeps_eigenpairs_witness :
  exists Sw Sb M ps,
    scatter (oriented (LDA_new 0 true) two_classes_1d) [7; 7; 3; 3]%Z
      = Ok (Sw, Sb) /\
    gemm (ext_inv External_diag Sw) Sb fone Mat_empty fzero false = Ok M /\
    length ps = Z.to_nat (_num_components (fst first_run)) /\
    NoDup ps /\
    forall i, i < length ps ->
      nth i ps 0 < total (fst (ext_eigen External_diag M)) /\
      mat_at (_eigenvalues (fst first_run)) 0 i =
        flat_cell (fst (ext_eigen External_diag M)) (nth i ps 0) /\
      forall r, mat_at (_eigenvectors (fst first_run)) r i =
                mat_at (snd (ext_eigen External_diag M)) r (nth i ps 0).
Proof.
  apply (@compute_keeps_eigenpairs float _ External_diag (LDA_new 0 true)
           (fst first_run) two_classes_1d [7; 7; 3; 3]%Z).
  apply returned_pair. exact first_run_returns.
Defined.

(** X21: training, projecting and reconstructing fit together.  After a
    [compute] that returned on samples of at least two classes, with a
    solver that keeps the shapes, [project] returns on every
    single-channel matrix of samples with the feature dimension of the
    training data, one row per sample and one column per stored
    component, whatever the orientation flag; and [reconstruct] returns
    on these coefficients, handed in like samples, one row per sample
    and one column per feature.  Neither changes the instance. *)
Theorem project_reconstruct_after_compute {T : Type} {ST : Scalar T}
    (E : External T) (this this' : LDA T) (src : Mat T) (labels : list Z)
    (X : Mat T) :
  solver_ok E -> solver_square E ->
  2 <= length (remove_dups labels) ->
  compute E src labels this = (this', Ok tt) ->
  channels X = 1 ->
  cols X = cols (oriented this src) ->
  exists Y R,
    LDA_project (handed_in this' X) this' = (this', Ok Y) /\
    rows Y = rows X /\
    cols Y = Z.to_nat (_num_components this') /\
    LDA_reconstruct (handed_in this' Y) this' = (this', Ok R) /\
    rows R = rows X /\ cols R = cols X.
Proof.
  intros Hsolver Hsquare HC Hrun Hch Hcols.
  pose proof (@compute_needs_room _ _ E this this' src labels Hsolver Hrun)
    as Hroom.
  pose proof (@clip_components_pos (_num_components this) _ HC) as Hpos.
  pose proof (@compute_eigenvectors _ _ E this this' src labels Hrun)
    as (Hn & Hk & _).
  pose proof Hrun as Htr. apply compute_inv in Htr.
  destruct Htr as [_ _ _ _ _ _ _ _ _ Hchs Hlen _ _ _ _ _ _ _ _ _].
  apply compute_pairs in Hrun.
  destruct Hrun as (Sw & Sb & M & ps & HS & HM & _ & _ & (Hvr & Hvch) & _).
  assert (Hchd : channels (oriented this src) = 1).
  { unfold oriented. destruct (_dataAsRow this); exact Hchs. }
  destruct (@compute_matrix_square _ _ E _ Sw Sb M labels Hsolver Hchd Hlen
              HS HM) as (HMr & HMc).
  destruct (Hsquare M) as (Her & Hech); [congruence|].
  set (W := _eigenvectors this') in *.
  assert (HWr : rows W = cols X) by congruence.
  assert (HWch : channels W = 1) by congruence.
  assert (HXpos : cols X <> 0) by lia.
  (* what the member functions receive, oriented back *)
  assert (Hback : forall m : Mat T,
            rows (oriented this' (handed_in this' m)) = rows m /\
            cols (oriented this' (handed_in this' m)) = cols m /\
            channels (oriented this' (handed_in this' m)) = channels m).
  { intros m. unfold oriented, handed_in.
    destruct (_dataAsRow this'); cbn; auto. }
  destruct (Hback X) as (HbXr & HbXc & HbXch).
  set (Y := mkMat (rows (oriented this' (handed_in this' X))) (cols W) 1
              (fun i j =>
                 fmul fone (dot (oriented this' (handed_in this' X)) W i j))).
  assert (HY : LDA_project (handed_in this' X) this' = (this', Ok Y)).
  { unfold LDA_project. rewrite m_bind_get. unfold m_lift. fold W.
    change (if _dataAsRow this' then handed_in this' X
            else transpose (handed_in this' X))
      with (oriented this' (handed_in this' X)).
    rewrite project_empty_mean.
    replace (cols (oriented this' (handed_in this' X)) =? 0) with false
      by (symmetry; apply Nat.eqb_neq; lia).
    rewrite gemm_no_C_eq by congruence. reflexivity. }
  destruct (Hback Y) as (HbYr & HbYc & HbYch).
  assert (HYc : cols Y = Z.to_nat (_num_components this'))
    by (cbn [Y cols]; fold W in Hk; lia).
  assert (HR : exists R,
             LDA_reconstruct (handed_in this' Y) this' = (this', Ok R) /\
             rows R = rows Y /\ cols R = rows W).
  { unfold LDA_reconstruct. rewrite m_bind_get. unfold m_lift. fold W.
    change (if _dataAsRow this' then handed_in this' Y
            else transpose (handed_in this' Y))
      with (oriented this' (handed_in this' Y)).
    rewrite reconstruct_empty_mean.
    replace (cols (oriented this' (handed_in this' Y)) =? 0) with false
      by (symmetry; apply Nat.eqb_neq; lia).
    pose proof (@gemm_no_C_ok _ _ (oriented this' (handed_in this' Y)) W
                  fone fzero true) as Hok.
    cbn [cv_transpose rows] in Hok.
    destruct (gemm (oriented this' (handed_in this' Y)) W fone Mat_empty
                fzero true) as [R|e] eqn:HR.
    2:{ exfalso. assert (is_ok (@Err (Mat T) e) = true); [|discriminate].
        apply Hok; [rewrite HbYch; reflexivity|exact HWch|].
        rewrite HbYc. fold W in Hk. lia. }
    exists R. apply gemm_no_C in HR. cbn zeta in HR.
    cbn [cv_transpose rows cols] in HR.
    destruct HR as (_ & _ & _ & HRr & HRc & _).
    split; [reflexivity|]. split; congruence. }
  destruct HR as (R & HR & HRr & HRc).
  exists Y, R.
  split; [exact HY|]. split; [exact HbXr|]. split; [exact HYc|].
  split; [exact HR|]. split; [rewrite HRr; exact HbXr|].
  rewrite HRc. exact HWr.
Qed.

Lemma External_diag_square {T : Type} {ST : Scalar T} :
  solver_square (@External_diag T ST).
Proof. intros m Hm. cbn. auto. Qed.

(** X21 on the two-class run of doubles and two fresh samples. *)
Lemma project_reconstruct_after_compute_witness :
  exists Y R,
    LDA_project
      (handed_in (fst first_run) (Mat_of_rows 1 [[1.0]; [11.0]]%float))
      (fst first_run) = (fst first_run, Ok Y) /\
    rows Y = rows (Mat_of_rows 1 [[1.0]; [11.0]]%float) /\
    cols Y = Z.to_nat (_num_components (fst first_run)) /\
    LDA_reconstruct (handed_in (fst first_run) Y) (fst first_run)
      = (fst first_run, Ok R) /\
    rows R = rows (Mat_of_rows 1 [[1.0]; [11.0]]%float) /\
    cols R = cols (Mat_of_rows 1 [[1.0]; [11.0]]%float).
Proof.
  apply (@project_reconstruct_after_compute float _ External_diag
           (LDA_new 0 true) (fst first_run) two_classes_1d [7; 7; 3; 3]%Z
           (Mat_of_rows 1 [[1.0]; [11.0]]%float)
           External_diag_ok External_diag_square).
  - cbn. lia.
  - apply returned_pair. exact first_run_returns.
  - reflexivity.
  - reflexivity.
Defined.

(* ================================================================== *)
(** * Collections of matrices *)

Section CollectionsProofs.

Context {T : Type} {ST : Scalar T}.

Lemma row_at_in_range (m : Mat T) (i : nat) :
  i < rows m ->
  row_at m (Z.of_nat i) =
    Ok (mkMat 1 (cols m) (channels m)
          (fun r j => mat_at m (Z.to_nat (Z.of_nat i) + r) j)).
Proof.
  intros Hi. unfold row_at, rowRange.
  replace ((0 <=? Z.of_nat i)%Z && (Z.of_nat i <=? Z.of_nat i + 1)%Z &&
           (Z.of_nat i + 1 <=? Z.of_nat (rows m))%Z)%bool with true.
  - replace (Z.to_nat (Z.of_nat i + 1 - Z.of_nat i)) with 1 by lia.
    reflexivity.
  - symmetry. rewrite !andb_true_iff, !Z.leb_le. lia.
Qed.

Lemma plain_nth (src : list (Mat T)) (i : nat) :
  Forall plain src -> i < length src -> plain (nth i src Mat_empty).
Proof.
  intros Hall Hi. rewrite Forall_forall in Hall. apply Hall.
  now apply nth_In.
Qed.

(** [asRowMatrix] on plain samples: it returns, and row [r] holds the
    cells of sample [r] when that sample has as many cells as the first
    one, and what the allocation held otherwise. *)
Lemma asRowMatrix_cells (src : list (Mat T)) (junk : nat -> nat -> T) :
  src <> [] -> Forall plain src ->
  exists data,
    asRowMatrix src junk = Ok data /\
    rows_inv src junk (total (nth 0 src Mat_empty)) (length src) data.
Proof.
  intros Hne Hall. unfold asRowMatrix.
  destruct (Nat.eqb_spec (length src) 0) as [H0|H0].
  { destruct src; [contradiction|discriminate H0]. }
  cbn zeta. set (d := total (nth 0 src Mat_empty)).
  apply (for_loop_inv (rows_inv src junk d)).
  - repeat split. 
  - intros i data Hi (Hr & Hc & Hch & Hcells).
    rewrite row_at_in_range by lia. cbn [bind].
    destruct (plain_nth Hall Hi) as (Hmch & Hmtot).
    destruct (reshape_1_1_ok (nth i src Mat_empty) Hmch Hmtot)
      as (flat & Hflat & Hfr & Hfch & Hfc).
    rewrite Hflat. cbn [bind].
    apply reshape_1_1_cells in Hflat.
    destruct Hflat as (_ & _ & _ & Hfcells).
    eexists. split; [reflexivity|].
    unfold convertTo_row, empty, total at 1.
    rewrite Hfr, Hfc, Hfch, Hc, Hch, Nat.mul_1_l.
    replace (total (nth i src Mat_empty) =? 0) with false
      by (symmetry; apply Nat.eqb_neq; exact Hmtot).
    cbn [Nat.eqb andb]. rewrite andb_true_r.
    destruct (Nat.eqb_spec (total (nth i src Mat_empty)) d) as [Hd|Hd].
    + unfold rows_inv, copyTo_row. cbn [rows cols channels mat_at].
      repeat split; try assumption.
      intros r j Hj. rewrite (Hcells r j Hj).
      destruct (Nat.eqb_spec r i) as [->|Hri].
      * replace (i <? S i) with true by (symmetry; apply Nat.ltb_lt; lia).
        replace (total (nth i src Mat_empty) =? d) with true
          by (symmetry; apply Nat.eqb_eq; exact Hd).
        cbn [andb]. apply Hfcells. lia.
      * destruct (Nat.ltb_spec r i), (Nat.ltb_spec r (S i));
          try reflexivity; lia.
    + unfold rows_inv. repeat split; try assumption.
      intros r j Hj. rewrite (Hcells r j Hj).
      destruct (Nat.eqb_spec r i) as [->|Hri].
      * rewrite Nat.ltb_irrefl.
        replace (total (nth i src Mat_empty) =? d) with false
          by (symmetry; apply Nat.eqb_neq; exact Hd).
        now rewrite !andb_false_r.
      * destruct (Nat.ltb_spec r i), (Nat.ltb_spec r (S i));
          try reflexivity; lia.
Qed.

(** [reshape(1, d)] of a plain matrix with [d] cells is a column. *)
Lemma reshape_1_column (m : Mat T) :
  plain m ->
  exists flat,
    reshape_1 m (total m) = Ok flat /\
    rows flat = total m /\ cols flat = 1 /\ channels flat = 1 /\
    forall r, mat_at flat r 0 = flat_cell m r.
Proof.
  intros (Hch & Htot). unfold reshape_1. rewrite Hch. cbn [Nat.eqb negb].
  replace (total m =? 0) with false
    by (symmetry; apply Nat.eqb_neq; exact Htot).
  cbn [orb].
  destruct (Nat.eqb_spec (total m) (rows m)) as [Hr|Hr].
  - exists m.
    assert (Hc : cols m = 1).
    { unfold total in *. destruct (cols m) as [|[|c]]; nia. }
    repeat split; try (symmetry; assumption); try assumption.
    intros r. unfold flat_cell. rewrite Hc, Nat.div_1_r, Nat.mod_1_r.
    reflexivity.
  - rewrite Nat.ltb_irrefl, Nat.Div0.mod_same. cbn [Nat.eqb negb].
    rewrite Nat.div_same by exact Htot.
    eexists. split; [reflexivity|]. cbn [rows cols channels mat_at].
    repeat split.
    intros r. now rewrite Nat.mul_1_r, Nat.add_0_r.
Qed.

(** [asColumnMatrix] on plain samples that all have [d] cells. *)
Lemma asColumnMatrix_cells (src : list (Mat T)) (junk : nat -> nat -> T) :
  src <> [] -> Forall plain src ->
  Forall (fun m => total m = total (nth 0 src Mat_empty)) src ->
  exists data,
    asColumnMatrix src junk = Ok data /\
    cols_inv src junk (total (nth 0 src Mat_empty)) (length src) data.
Proof.
  intros Hne Hall Hsame. unfold asColumnMatrix.
  destruct (Nat.eqb_spec (length src) 0) as [H0|H0].
  { destruct src; [contradiction|discriminate H0]. }
  cbn zeta. set (d := total (nth 0 src Mat_empty)) in *.
  apply (for_loop_inv (cols_inv src junk d)).
  - repeat split.
  - intros i data Hi (Hr & Hc & Hch & Hcells).
    rewrite col_in_range by lia. cbn [bind].
    pose proof (plain_nth Hall Hi) as Hplain.
    assert (Hd : total (nth i src Mat_empty) = d).
    { rewrite Forall_forall in Hsame. apply Hsame. now apply nth_In. }
    destruct (reshape_1_column Hplain)
      as (flat & Hflat & Hfr & Hfc & Hfch & Hfcells).
    rewrite Hd in Hflat, Hfr. rewrite Hflat. cbn [bind].
    eexists. split; [reflexivity|].
    unfold convertTo_col, empty, total at 1.
    rewrite Hfr, Hfc, Hfch, Hr, Hch, Nat.mul_1_r, Nat.eqb_refl.
    replace (d =? 0) with false
      by (symmetry; apply Nat.eqb_neq; destruct Hplain; lia).
    cbn [Nat.eqb andb].
    unfold cols_inv, copyTo_col. cbn [rows cols channels mat_at].
    repeat split; try assumption.
    intros r j Hrd. rewrite (Hcells r j Hrd).
    destruct (Nat.eqb_spec j i) as [->|Hji].
    + replace (i <? S i) with true by (symmetry; apply Nat.ltb_lt; lia).
      apply Hfcells.
    + destruct (Nat.ltb_spec j i), (Nat.ltb_spec j (S i));
        try reflexivity; lia.
Qed.

(** A loop with a turn that fails in every state fails, with an error of
    the kind [Q] when every turn either keeps the invariant [P] or fails
    with such an error. *)
Lemma for_loop_progress {S : Type} (P : S -> Prop) (Q : CvError -> Prop)
    (n : nat) (body : S -> nat -> result S) (s0 : S) :
  P s0 ->
  (forall i s, i < n -> P s ->
     (exists s', body s i = Ok s' /\ P s') \/
     (exists e, body s i = Err e /\ Q e)) ->
  forall m, m <= n ->
    (exists s, for_loop m body s0 = Ok s /\ P s) \/
    (exists e, for_loop m body s0 = Err e /\ Q e).
Proof.
  intros H0 Hstep. induction m as [|m IH]; intros Hm.
  - left. exists s0. split; [reflexivity|exact H0].
  - rewrite for_loop_S.
    destruct IH as [(s & Hrun & Hs)|(e & Hrun & He)]; [lia| |];
      rewrite Hrun; cbn [bind].
    + destruct (Hstep m s) as [(s' & Hb & Hs')|(e & Hb & He)];
        [lia|exact Hs| |]; rewrite Hb; eauto.
    + right. eauto.
Qed.

Lemma for_loop_fails {S : Type} (P : S -> Prop) (Q : CvError -> Prop)
    (n : nat) (body : S -> nat -> result S) (s0 : S) (bad : nat) :
  P s0 ->
  (forall i s, i < n -> P s ->
     (exists s', body s i = Ok s' /\ P s') \/
     (exists e, body s i = Err e /\ Q e)) ->
  bad < n ->
  (forall s, P s -> exists e, body s bad = Err e /\ Q e) ->
  exists e, for_loop n body s0 = Err e /\ Q e.
Proof.
  intros H0 Hstep Hbad Hfail.
  assert (Hupto : forall m, bad < m -> m <= n ->
            exists e, for_loop m body s0 = Err e /\ Q e).
  { induction m as [|m IH]; intros Hbm Hmn; [lia|].
    rewrite for_loop_S.
    destruct (Nat.eq_dec bad m) as [->|Hne].
    - destruct (@for_loop_progress _ P Q n body s0 H0 Hstep m)
        as [(s & Hrun & Hs)|(e & Hrun & He)]; [lia| |];
        rewrite Hrun; cbn [bind]; [now apply Hfail|eauto].
    - destruct IH as (e & Hrun & He); [lia|lia|].
      rewrite Hrun. cbn [bind]. eauto. }
  apply Hupto; lia.
Qed.

(** [asColumnMatrix] throws as soon as the cells of one plain sample
    cannot be laid out in [d] rows, [d] the cell count of the first. *)
Lemma asColumnMatrix_fails (src : list (Mat T)) (junk : nat -> nat -> T) :
  Forall plain src ->
  Exists (fun m => total m mod total (nth 0 src Mat_empty) <> 0) src ->
  exists e,
    asColumnMatrix src junk = Err e /\
    (e = StsOutOfRange \/ e = StsBadArg).
Proof.
  intros Hall Hex. unfold asColumnMatrix.
  destruct (Nat.eqb_spec (length src) 0) as [H0|H0].
  { destruct src; [inversion Hex|discriminate H0]. }
  cbn zeta. set (d := total (nth 0 src Mat_empty)) in *.
  assert (Hd : d <> 0).
  { destruct (@plain_nth src 0 Hall) as (_ & Hd); [lia|exact Hd]. }
  apply Exists_exists in Hex. destruct Hex as (m & Hin & Hmod).
  destruct (In_nth _ _ Mat_empty Hin) as (bad & Hbad & Hnth).
  assert (Hturn : forall i data, i < length src ->
            rows data = d /\ cols data = length src /\ channels data = 1 ->
            (exists data',
               (_ <- col data (Z.of_nat i) ;;
                flat <- reshape_1 (nth i src Mat_empty) d ;;
                Ok (convertTo_col flat data i)) = Ok data' /\
               (rows data' = d /\ cols data' = length src /\
                channels data' = 1)) \/
            (exists e,
               (_ <- col data (Z.of_nat i) ;;
                flat <- reshape_1 (nth i src Mat_empty) d ;;
                Ok (convertTo_col flat data i)) = Err e /\
               (e = StsOutOfRange \/ e = StsBadArg) /\
               total (nth i src Mat_empty) mod d <> 0)).
  { intros i data Hi (Hr & Hc & Hch).
    rewrite col_in_range by lia. cbn [bind].
    destruct (plain_nth Hall Hi) as (Hmch & Hmtot).
    unfold reshape_1. rewrite Hmch. cbn [Nat.eqb negb].
    replace (d =? 0) with false by (symmetry; apply Nat.eqb_neq; exact Hd).
    cbn [orb].
    assert (Hshape : forall flat : Mat T,
              rows (convertTo_col flat data i) = d /\
              cols (convertTo_col flat data i) = length src /\
              channels (convertTo_col flat data i) = 1).
    { intros flat. unfold convertTo_col.
      destruct (empty flat); [auto|].
      destruct ((rows flat =? rows data) && (cols flat =? 1) &&
                (channels flat =? channels data)); cbn; auto. }
    destruct (Nat.eqb_spec d (rows (nth i src Mat_empty))) as [Hrd|Hrd].
    { left. cbn [bind]. eexists. split; [reflexivity|apply Hshape]. }
    destruct (Nat.ltb_spec (total (nth i src Mat_empty)) d) as [Hlt|Hge].
    { right. exists StsOutOfRange. split; [reflexivity|].
      split; [now left|]. rewrite Nat.mod_small by exact Hlt. exact Hmtot. }
    destruct (Nat.eqb_spec (total (nth i src Mat_empty) mod d) 0)
      as [Hz|Hnz]; cbn [negb].
    { left. cbn [bind]. eexists. split; [reflexivity|apply Hshape]. }
    right. exists StsBadArg. split; [reflexivity|]. split; [now right|].
    exact Hnz. }
  apply (@for_loop_fails _
           (fun data => rows data = d /\ cols data = length src /\
                        channels data = 1)
           (fun e => e = StsOutOfRange \/ e = StsBadArg)
           _ _ _ bad).
  - repeat split.
  - intros i data Hi Hinv.
    destruct (Hturn i data Hi Hinv) as [Hok|(e & He & HQ & _)];
      [left; exact Hok|right; eauto].
  - exact Hbad.
  - intros data Hinv.
    destruct (Hturn bad data Hbad Hinv)
      as [(data' & Hok & _)|(e & He & HQ & _)]; [|eauto].
    exfalso. revert Hok.
    rewrite col_in_range by (destruct Hinv as (_ & Hc & _); lia).
    cbn [bind]. rewrite Hnth.
    destruct (plain_nth Hall Hbad) as (Hmch & Hmtot). rewrite Hnth in *.
    unfold reshape_1. rewrite Hmch. cbn [Nat.eqb negb].
    replace (d =? 0) with false by (symmetry; apply Nat.eqb_neq; exact Hd).
    cbn [orb].
    destruct (Nat.eqb_spec d (rows m)) as [Hrd|Hrd].
    { exfalso. apply Hmod. unfold total at 1. rewrite <- Hrd.
      rewrite Nat.mul_comm. apply Nat.Div0.mod_mul. }
    destruct (Nat.ltb_spec (total m) d); [discriminate|].
    destruct (Nat.eqb_spec (total m mod d) 0); [contradiction|].
    discriminate.
Qed.

(** [compute] on a sample matrix without rows never returns. *)
Lemma compute_without_rows (E : External T) (this : LDA T) (src : Mat T)
    (labels : list Z) :
  channels src = 1 -> rows (oriented this src) = 0 ->
  exists this' e, compute E src labels this = (this', Err e).
Proof.
  intros Hch Hrows. destruct labels as [|l labels].
  - destruct (compute E src [] this) as [this' [[]|e]] eqn:Hrun; [|eauto].
    exfalso. apply compute_count_nonneg in Hrun.
    rewrite clip_components_min in Hrun.
    cbn [remove_dups fold_left length] in Hrun.
    destruct (Z.leb_spec (_num_components this) 0); lia.
  - exists this, StsBadArg. unfold compute. rewrite m_bind_get.
    rewrite Hch. cbn [Nat.eqb negb].
    change (if _dataAsRow this then src else transpose src)
      with (oriented this src).
    rewrite Hrows. reflexivity.
Qed.

End CollectionsProofs.

(** X22: [asRowMatrix] stacks the samples as rows.  On a non-empty
    collection of single-channel matrices that all have the same,
    non-zero number of cells d, it returns a single-channel matrix with
    one row per sample and d columns, and row [i] holds the cells of
    sample [i] in row-major order, whatever the shapes of the samples. *)
Theorem asRowMatrix_stacks {T : Type} {ST : Scalar T}
    (src : list (Mat T)) (junk : nat -> nat -> T) :
  src <> [] -> Forall plain src ->
  Forall (fun m => total m = total (nth 0 src Mat_empty)) src ->
  exists data,
    asRowMatrix src junk = Ok data /\
    rows data = length src /\
    cols data = total (nth 0 src Mat_empty) /\
    channels data = 1 /\
    forall i j, i < length src -> j < cols data ->
      mat_at data i j = flat_cell (nth i src Mat_empty) j.
Proof.
  intros Hne Hall Hsame.
  destruct (asRowMatrix_cells junk Hne Hall)
    as (data & Hrun & Hr & Hc & Hch & Hcells).
  exists data. repeat split; try assumption.
  intros i j Hi Hj. rewrite Hcells by lia.
  replace (i <? length src) with true by (symmetry; apply Nat.ltb_lt; lia).
  rewrite Forall_forall in Hsame.
  rewrite (Hsame (nth i src Mat_empty)) by (now apply nth_In).
  now rewrite Nat.eqb_refl.
Qed.

(** X22 on a 2 x 2 matrix and a row of four rationals. *)
Lemma asRowMatrix_stacks_witness :
  exists data,
    asRowMatrix [Mat_of_rows 2 [[1; 2]; [3; 4]]%Q; Mat_row [5; 6; 7; 8]%Q]
      (fun _ _ => 0%Q) = Ok data /\
    rows data =
      length [Mat_of_rows 2 [[1; 2]; [3; 4]]%Q; Mat_row [5; 6; 7; 8]%Q] /\
    cols data =
      total (nth 0 [Mat_of_rows 2 [[1; 2]; [3; 4]]%Q;
                    Mat_row [5; 6; 7; 8]%Q] Mat_empty) /\
    channels data = 1 /\
    forall i j,
      i < length [Mat_of_rows 2 [[1; 2]; [3; 4]]%Q;
                  Mat_row [5; 6; 7; 8]%Q] ->
      j < cols data ->
      mat_at data i j =
      flat_cell (nth i [Mat_of_rows 2 [[1; 2]; [3; 4]]%Q;
                        Mat_row [5; 6; 7; 8]%Q] Mat_empty) j.
Proof.
  apply (@asRowMatrix_stacks Q _
           [Mat_of_rows 2 [[1; 2]; [3; 4]]%Q; Mat_row [5; 6; 7; 8]%Q]
           (fun _ _ => 0%Q)).
  - discriminate.
  - repeat constructor; cbn; lia.
  - repeat constructor.
Defined.

(** X23: [asRowMatrix] does not check the samples against each other.
    On single-channel, non-empty samples it always returns; a sample
    whose number of cells differs from that of the first one is not
    copied, and its row still holds what the allocation held. *)
Theorem asRowMatrix_skips_ragged {T : Type} {ST : Scalar T}
    (src : list (Mat T)) (junk : nat -> nat -> T) (i : nat) :
  Forall plain src -> i < length src ->
  total (nth i src Mat_empty) <> total (nth 0 src Mat_empty) ->
  exists data,
    asRowMatrix src junk = Ok data /\
    rows data = length src /\
    cols data = total (nth 0 src Mat_empty) /\
    forall j, j < cols data -> mat_at data i j = junk i j.
Proof.
  intros Hall Hi Hdiff.
  assert (Hne : src <> []) by (destruct src; [cbn in Hi; lia|discriminate]).
  destruct (asRowMatrix_cells junk Hne Hall)
    as (data & Hrun & Hr & Hc & Hch & Hcells).
  exists data. repeat split; try assumption.
  intros j Hj. rewrite Hcells by lia.
  replace (total (nth i src Mat_empty) =? total (nth 0 src Mat_empty))
    with false by (symmetry; apply Nat.eqb_neq; exact Hdiff).
  now rewrite andb_false_r.
Qed.

(** X23 on a row of three doubles followed by a row of two. *)
Lemma asRowMatrix_skips_ragged_witness :
  exists data,
    asRowMatrix [Mat_row [1.0; 2.0; 3.0]%float; Mat_row [4.0; 5.0]%float]
      (fun _ _ => 9.0%float) = Ok data /\
    rows data =
      length [Mat_row [1.0; 2.0; 3.0]%float; Mat_row [4.0; 5.0]%float] /\
    cols data =
      total (nth 0 [Mat_row [1.0; 2.0; 3.0]%float;
                    Mat_row [4.0; 5.0]%float] Mat_empty) /\
    forall j, j < cols data ->
      mat_at data 1 j = (fun _ _ : nat => 9.0%float) 1 j.
Proof.
  apply (@asRowMatrix_skips_ragged float _
           [Mat_row [1.0; 2.0; 3.0]%float; Mat_row [4.0; 5.0]%float]
           (fun _ _ => 9.0%float) 1).
  - repeat constructor; cbn; lia.
  - cbn. lia.
  - cbn. lia.
Defined.

(** X24: [asColumnMatrix] is the transpose of [asRowMatrix].  On a
    non-empty collection of single-channel matrices with the same,
    non-zero number of cells d, both return; the one has d rows and one
    column per sample, and column [i] holds the cells of sample [i] in
    row-major order, which is row [i] of the other. *)
Theorem asColumnMatrix_transposes_asRowMatrix {T : Type} {ST : Scalar T}
    (src : list (Mat T)) (junk junk' : nat -> nat -> T) :
  src <> [] -> Forall plain src ->
  Forall (fun m => total m = total (nth 0 src Mat_empty)) src ->
  exists C R,
    asColumnMatrix src junk = Ok C /\
    asRowMatrix src junk' = Ok R /\
    rows C = total (nth 0 src Mat_empty) /\
    cols C = length src /\
    channels C = 1 /\
    forall i j, i < length src -> j < rows C ->
      mat_at C j i = flat_cell (nth i src Mat_empty) j /\
      mat_at C j i = mat_at R i j.
Proof.
  intros Hne Hall Hsame.
  destruct (asColumnMatrix_cells junk Hne Hall Hsame)
    as (C & HC & HCr & HCc & HCch & HCcells).
  destruct (asRowMatrix_cells junk' Hne Hall)
    as (R & HR & HRr & HRc & HRch & HRcells).
  exists C, R. repeat split; try assumption.
  - rewrite HCcells by lia.
    now replace (i <? length src) with true
      by (symmetry; apply Nat.ltb_lt; lia).
  - rewrite HCcells, HRcells by lia.
    replace (i <? length src) with true by (symmetry; apply Nat.ltb_lt; lia).
    rewrite Forall_forall in Hsame.
    rewrite (Hsame (nth i src Mat_empty)) by (now apply nth_In).
    now rewrite Nat.eqb_refl.
Qed.

(** X24 on a 2 x 2 matrix and a row of four rationals. *)
Lemma asColumnMatrix_transposes_asRowMatrix_witness :
  exists C R,
    asColumnMatrix
      [Mat_of_rows 2 [[1; 2]; [3; 4]]%Q; Mat_row [5; 6; 7; 8]%Q]
      (fun _ _ => 0%Q) = Ok C /\
    asRowMatrix
      [Mat_of_rows 2 [[1; 2]; [3; 4]]%Q; Mat_row [5; 6; 7; 8]%Q]
      (fun _ _ => 1%Q) = Ok R /\
    rows C =
      total (nth 0 [Mat_of_rows 2 [[1; 2]; [3; 4]]%Q;
                    Mat_row [5; 6; 7; 8]%Q] Mat_empty) /\
    cols C =
      length [Mat_of_rows 2 [[1; 2]; [3; 4]]%Q; Mat_row [5; 6; 7; 8]%Q] /\
    channels C = 1 /\
    forall i j,
      i < length [Mat_of_rows 2 [[1; 2]; [3; 4]]%Q;
                  Mat_row [5; 6; 7; 8]%Q] ->
      j < rows C ->
      mat_at C j i =
        flat_cell (nth i [Mat_of_rows 2 [[1; 2]; [3; 4]]%Q;
                          Mat_row [5; 6; 7; 8]%Q] Mat_empty) j /\
      mat_at C j i = mat_at R i j.
Proof.
  apply (@asColumnMatrix_transposes_asRowMatrix Q _
           [Mat_of_rows 2 [[1; 2]; [3; 4]]%Q; Mat_row [5; 6; 7; 8]%Q]
           (fun _ _ => 0%Q) (fun _ _ => 1%Q)).
  - discriminate.
  - repeat constructor; cbn; lia.
  - repeat constructor.
Defined.

(** X25: unlike [asRowMatrix], [asColumnMatrix] throws on ragged input.
    When the cell count of some single-channel, non-empty sample is not
    a multiple of the cell count d of the first one (in particular when
    it is smaller), the reshape to d rows is refused, with
    CV_StsOutOfRange or CV_StsBadArg, and no matrix is returned, while
    [asRowMatrix] returns on the same collection. *)
Theorem asColumnMatrix_ragged_throws {T : Type} {ST : Scalar T}
    (src : list (Mat T)) (junk junk' : nat -> nat -> T) :
  Forall plain src ->
  Exists (fun m => total m mod total (nth 0 src Mat_empty) <> 0) src ->
  (exists e,
     asColumnMatrix src junk = Err e /\
     (e = StsOutOfRange \/ e = StsBadArg)) /\
  is_ok (asRowMatrix src junk') = true.
Proof.
  intros Hall Hex. split; [now apply asColumnMatrix_fails|].
  assert (Hne : src <> []) by (destruct src; [inversion Hex|discriminate]).
  destruct (asRowMatrix_cells junk' Hne Hall) as (data & Hrun & _).
  now rewrite Hrun.
Qed.

(** X25 on a row of three doubles followed by a row of two. *)
Lemma asColumnMatrix_ragged_throws_witness :
  (exists e,
     asColumnMatrix
       [Mat_row [1.0; 2.0; 3.0]%float; Mat_row [4.0; 5.0]%float]
       (fun _ _ => 9.0%float) = Err e /\
     (e = StsOutOfRange \/ e = StsBadArg)) /\
  is_ok (asRowMatrix
           [Mat_row [1.0; 2.0; 3.0]%float; Mat_row [4.0; 5.0]%float]
           (fun _ _ => 9.0%float)) = true.
Proof.
  apply (@asColumnMatrix_ragged_throws float _
           [Mat_row [1.0; 2.0; 3.0]%float; Mat_row [4.0; 5.0]%float]
           (fun _ _ => 9.0%float) (fun _ _ => 9.0%float)).
  - repeat constructor; cbn; lia.
  - apply Exists_cons_tl, Exists_cons_hd. cbn. lia.
Defined.

(** X26: [compute] on an empty collection of matrices never returns a
    model: whatever the labels, the orientation flag, the requested
    count and the solver, the collection becomes the empty matrix and
    the call throws. *)
Theorem compute_all_empty_throws {T : Type} {ST : Scalar T}
    (E : External T) (junk : nat -> nat -> T) (labels : list Z)
    (this : LDA T) :
  exists this' e, compute_all E junk [] labels this = (this', Err e).
Proof.
  unfold compute_all. rewrite m_bind_get.
  replace (if _dataAsRow this
           then asRowMatrix (@nil (Mat T)) junk
           else asColumnMatrix (@nil (Mat T)) junk)
    with (Ok (@Mat_empty T ST)) by (destruct (_dataAsRow this); reflexivity).
  rewrite m_bind_lift_ok.
  apply compute_without_rows; [reflexivity|].
  unfold oriented. destruct (_dataAsRow this); reflexivity.
Qed.

(* ================================================================== *)
(** * impl::isSymmetric *)

Lemma forallb_seq (p : nat -> bool) (n : nat) :
  forallb p (seq 0 n) = true <-> forall i, i < n -> p i = true.
Proof.
  rewrite forallb_forall. split.
  - intros H i Hi. apply H, in_seq. lia.
  - intros H i Hi. apply in_seq in Hi. apply H. lia.
Qed.

(** X27: the exact symmetry test is right: on a matrix of integers it
    answers [true] exactly when the matrix is square and every cell
    equals its mirror image; in particular a matrix that is not square is
    never symmetric. *)
Theorem impl_isSymmetric_iff (m : Mat Z) :
  impl_isSymmetric m = true <->
  cols m = rows m /\
  forall i j, i < rows m -> j < rows m -> mat_at m i j = mat_at m j i.
Proof.
  unfold impl_isSymmetric.
  destruct (Nat.eqb_spec (cols m) (rows m)) as [Hsq|Hsq]; cbn [negb].
  - rewrite forallb_seq. split.
    + intros H. split; [exact Hsq|]. intros i j Hi Hj.
      specialize (H i Hi). rewrite forallb_seq in H.
      specialize (H j ltac:(lia)). cbn zeta in H.
      rewrite negb_involutive in H. now apply Z.eqb_eq.
    + intros [_ H] i Hi. rewrite forallb_seq. intros j Hj. cbn zeta.
      rewrite negb_involutive. apply Z.eqb_eq. apply H; lia.
  - split; [discriminate|]. intros [H _]. contradiction.
Qed.

(** The test with a tolerance, unfolded. *)
Lemma impl_isSymmetric_eps_iff (m : Mat float) (eps : float) :
  impl_isSymmetric_eps m eps = true <->
  cols m = rows m /\
  forall i j, i < rows m -> j < rows m ->
    PrimFloat.ltb eps (PrimFloat.abs (PrimFloat.sub (mat_at m i j)
                                                     (mat_at m j i)))
    = false.
Proof.
  unfold impl_isSymmetric_eps.
  destruct (Nat.eqb_spec (cols m) (rows m)) as [Hsq|Hsq]; cbn [negb].
  - rewrite forallb_seq. split.
    + intros H. split; [exact Hsq|]. intros i j Hi Hj.
      specialize (H i Hi). rewrite forallb_seq in H.
      specialize (H j ltac:(lia)). cbn zeta in H.
      now apply negb_true_iff in H.
    + intros [_ H] i Hi. rewrite forallb_seq. intros j Hj. cbn zeta.
      apply negb_true_iff. apply H; lia.
  - split; [discriminate|]. intros [H _]. contradiction.
Qed.

(** In binary64, |a - a| is +0 when [a] is finite and NaN otherwise. *)
Lemma float_sub_diag_abs (a : float) :
  Prim2SF (PrimFloat.abs (PrimFloat.sub a a)) = S754_zero false \/
  Prim2SF (PrimFloat.abs (PrimFloat.sub a a)) = S754_nan.
Proof.
  rewrite abs_spec, sub_spec. unfold SF64sub, SFsub.
  destruct (Prim2SF a) as [s|s| |s m e].
  - left. destruct s; reflexivity.
  - right. destruct s; reflexivity.
  - right. reflexivity.
  - left. cbn zeta. rewrite Z.sub_diag. reflexivity.
Qed.

Lemma float_tolerance_diag (eps a : float) :
  PrimFloat.ltb eps PrimFloat.zero = false ->
  PrimFloat.ltb eps (PrimFloat.abs (PrimFloat.sub a a)) = false.
Proof.
  intros H. rewrite ltb_spec in *.
  destruct (float_sub_diag_abs a) as [-> | ->].
  - exact H.
  - unfold SFltb, SFcompare. destruct (Prim2SF eps); reflexivity.
Qed.

(** X28: the symmetry test with a tolerance, on doubles, accepts every
    square matrix that equals its transpose, for every tolerance that is
    not negative; cells that are infinite or NaN do not make it fail,
    since no comparison with the NaN that their difference yields
    holds. *)
Theorem impl_isSymmetric_eps_accepts (m : Mat float) (eps : float) :
  cols m = rows m ->
  (forall i j, i < rows m -> j < rows m -> mat_at m i j = mat_at m j i) ->
  PrimFloat.ltb eps PrimFloat.zero = false ->
  impl_isSymmetric_eps m eps = true.
Proof.
  intros Hsq Hsym Heps. apply impl_isSymmetric_eps_iff.
  split; [exact Hsq|]. intros i j Hi Hj.
  rewrite (Hsym i j Hi Hj). now apply float_tolerance_diag.
Qed.

(** X28 on a symmetric matrix with two infinite cells, at the default
    tolerance 1E-16. *)
Lemma impl_isSymmetric_eps_accepts_witness :
  impl_isSymmetric_eps
    (Mat_of_rows 2 [[1.0; infinity]; [infinity; 1.0]]%float)
    0x1.cd2b297d889bcp-54%float = true.
Proof.
  apply (@impl_isSymmetric_eps_accepts
           (Mat_of_rows 2 [[1.0; infinity]; [infinity; 1.0]]%float)
           0x1.cd2b297d889bcp-54%float).
  - reflexivity.
  - intros [|[|i]] [|[|j]] Hi Hj; try reflexivity; cbn in Hi, Hj; lia.
  - reflexivity.
Defined.

(** The two matrices of the comment in helper.hpp, and a matrix with a
    NaN beside its diagonal: no comparison with NaN holds, so it passes
    the test with a tolerance. *)
Example isSymmetric_samples :
  impl_isSymmetric (Mat_of_int_rows 2 [[1; 2]; [2; 1]]%Z) = true /\
  impl_isSymmetric (Mat_of_int_rows 2 [[1; 2]; [3; 4]]%Z) = false /\
  impl_isSymmetric_eps (Mat_of_rows 2 [[1.0; 2.0]; [2.0; 1.0]]%float)
    0x1.cd2b297d889bcp-54%float = true /\
  impl_isSymmetric_eps (Mat_of_rows 2 [[1.0; 2.0]; [3.0; 4.0]]%float)
    0x1.cd2b297d889bcp-54%float = false /\
  impl_isSymmetric_eps (Mat_of_rows 2 [[1.0; nan]; [3.0; 4.0]]%float)
    0x1.cd2b297d889bcp-54%float = true.
Proof. repeat split; vm_compute; reflexivity. Qed.

(* ================================================================== *)
(** * The original local binary patterns *)

(** Eight [or_bit]s from 0 build the byte with these bits: nothing is
    lost in the [unsigned char]. *)
Lemma or_bits_byte (b7 b6 b5 b4 b3 b2 b1 b0 : bool) :
  let code :=
    or_bit (or_bit (or_bit (or_bit (or_bit (or_bit (or_bit (or_bit 0
      b7 7) b6 6) b5 5) b4 4) b3 3) b2 2) b1 1) b0 0 in
  ((0 <=? code) && (code <=? 255))%Z = true /\
  Z.testbit code 7 = b7 /\ Z.testbit code 6 = b6 /\
  Z.testbit code 5 = b5 /\ Z.testbit code 4 = b4 /\
  Z.testbit code 3 = b3 /\ Z.testbit code 2 = b2 /\
  Z.testbit code 1 = b1 /\ Z.testbit code 0 = b0.
Proof.
  destruct b7, b6, b5, b4, b3, b2, b1, b0; vm_compute;
    repeat split; reflexivity.
Qed.

Lemma olbp_code_bits (src : Mat Z) (i j : nat) :
  (0 <= olbp_code src i j <= 255)%Z /\
  forall k, k < 8 ->
    Z.testbit (olbp_code src i j) (Z.of_nat k) =
    (neighbour src i j k >=? mat_at src i j)%Z.
Proof.
  unfold olbp_code. cbn zeta.
  destruct (or_bits_byte
              (mat_at src (i - 1) (j - 1) >=? mat_at src i j)%Z
              (mat_at src (i - 1) j >=? mat_at src i j)%Z
              (mat_at src (i - 1) (j + 1) >=? mat_at src i j)%Z
              (mat_at src i (j + 1) >=? mat_at src i j)%Z
              (mat_at src (i + 1) (j + 1) >=? mat_at src i j)%Z
              (mat_at src (i + 1) j >=? mat_at src i j)%Z
              (mat_at src (i + 1) (j - 1) >=? mat_at src i j)%Z
              (mat_at src i (j - 1) >=? mat_at src i j)%Z)
    as (Hrange & H7 & H6 & H5 & H4 & H3 & H2 & H1 & H0).
  cbn zeta in Hrange, H7, H6, H5, H4, H3, H2, H1, H0.
  split.
  - apply andb_true_iff in Hrange. destruct Hrange as [Hlo Hhi].
    apply Z.leb_le in Hlo, Hhi. split; assumption.
  - intros k Hk.
    destruct k as [|[|[|[|[|[|[|[|k]]]]]]]]; [..|lia]; cbn [neighbour];
      assumption.
Qed.

(** The cells that a loop of [set_at] along a row has written. *)
Lemma fill_row (g : nat -> Z) (i n : nat) (dst : Mat Z) :
  let dst' := fold_left (fun dst j => set_at dst (i - 1) (j - 1) (g j))
                (seq 1 n) dst in
  rows dst' = rows dst /\ cols dst' = cols dst /\
  channels dst' = channels dst /\
  forall r c,
    mat_at dst' r c =
    if (r =? i - 1) && (c <? n) then g (c + 1) else mat_at dst r c.
Proof.
  induction n as [|n IH]; cbn zeta in *.
  - cbn [seq fold_left]. repeat split.
    intros r c. now rewrite andb_false_r.
  - rewrite seq_S, fold_left_app. cbn [fold_left].
    set (d := fold_left _ (seq 1 n) dst) in *.
    destruct IH as (Hr & Hc & Hch & Hcells).
    unfold set_at. cbn [rows cols channels mat_at].
    repeat split; try assumption.
    intros r c. rewrite Hcells.
    replace (1 + n - 1) with n by lia.
    destruct (Nat.eqb_spec r (i - 1)), (Nat.eqb_spec c n),
      (Nat.ltb_spec c n), (Nat.ltb_spec c (S n)); cbn [andb];
      try lia; try reflexivity.
    subst c. now rewrite Nat.add_comm.
Qed.

Lemma fill_rows (g : nat -> nat -> Z) (m n : nat) (dst : Mat Z) :
  let dst' :=
    fold_left
      (fun dst i =>
         fold_left (fun dst j => set_at dst (i - 1) (j - 1) (g i j))
           (seq 1 n) dst)
      (seq 1 m) dst in
  rows dst' = rows dst /\ cols dst' = cols dst /\
  channels dst' = channels dst /\
  forall r c,
    mat_at dst' r c =
    if (r <? m) && (c <? n) then g (r + 1) (c + 1) else mat_at dst r c.
Proof.
  induction m as [|m IH]; cbn zeta in *.
  - cbn [seq fold_left]. repeat split.
  - rewrite seq_S, fold_left_app. cbn [fold_left].
    destruct IH as (Hr & Hc & Hch & Hcells).
    destruct (fill_row (g (1 + m)) (1 + m) n
                (fold_left
                   (fun dst i =>
                      fold_left
                        (fun dst j => set_at dst (i - 1) (j - 1) (g i j))
                        (seq 1 n) dst)
                   (seq 1 m) dst))
      as (Hr' & Hc' & Hch' & Hcells').
    repeat split; try congruence.
    intros r c. rewrite Hcells', Hcells.
    replace (1 + m - 1) with m by lia.
    destruct (Nat.eqb_spec r m), (Nat.ltb_spec r m), (Nat.ltb_spec r (S m)),
      (Nat.ltb_spec c n); cbn [andb]; try lia; try reflexivity.
    subst r. now rewrite Nat.add_comm.
Qed.

Lemma fold_left_pointwise {A B : Type} (f g : A -> B -> A) (l : list B)
    (a : A) :
  (forall a x, f a x = g a x) -> fold_left f l a = fold_left g l a.
Proof.
  intros H. revert a. induction l as [|x l IH]; intros a; cbn [fold_left].
  - reflexivity.
  - rewrite H. apply IH.
Qed.

Lemma geb_monotone (f : Z -> Z) (a c : Z) :
  (forall a b : Z, (a < b)%Z -> (f a < f b)%Z) ->
  (f a >=? f c)%Z = (a >=? c)%Z.
Proof.
  intros Hf. rewrite !Z.geb_leb.
  destruct (Z.leb_spec c a) as [Hca|Hac].
  - apply Z.leb_le. destruct (Z.eq_dec c a) as [->|Hne]; [lia|].
    assert (Hlt : (c < a)%Z) by lia. apply Hf in Hlt. lia.
  - apply Z.leb_gt. now apply Hf.
Qed.

(** X29: the original LBP operator.  On an image of integers with at
    least two rows and two columns, [impl::olbp] returns one code per
    interior pixel; every code fits the [unsigned char] it is stored in,
    and bit k of the code of a pixel says whether its k-th neighbour
    (bit 7 the upper left one, then clockwise) is at least as bright as
    the pixel itself. *)
Theorem impl_olbp_codes (src : Mat Z) :
  2 <= rows src -> 2 <= cols src ->
  exists dst,
    impl_olbp src = Ok dst /\
    rows dst = rows src - 2 /\ cols dst = cols src - 2 /\
    forall r c, r < rows dst -> c < cols dst ->
      (0 <= mat_at dst r c <= 255)%Z /\
      forall k, k < 8 ->
        Z.testbit (mat_at dst r c) (Z.of_nat k) =
        (neighbour src (r + 1) (c + 1) k >=? mat_at src (r + 1) (c + 1))%Z.
Proof.
  intros Hr Hc. unfold impl_olbp.
  replace (rows src <? 2) with false by (symmetry; apply Nat.ltb_ge; lia).
  replace (cols src <? 2) with false by (symmetry; apply Nat.ltb_ge; lia).
  cbn [orb]. cbn zeta.
  destruct (fill_rows (olbp_code src) (rows src - 2) (cols src - 2)
              (mkMat (rows src - 2) (cols src - 2) 1 (fun _ _ => 0%Z)))
    as (Hdr & Hdc & _ & Hcells).
  eexists. split; [reflexivity|].
  cbn [rows cols] in Hdr, Hdc. rewrite Hdr, Hdc.
  split; [reflexivity|]. split; [reflexivity|].
  intros r c Hrr Hcc. rewrite Hcells.
  replace (r <? rows src - 2) with true by (symmetry; apply Nat.ltb_lt; lia).
  replace (c <? cols src - 2) with true by (symmetry; apply Nat.ltb_lt; lia).
  cbn [andb]. apply olbp_code_bits.
Qed.

(** X29 on a 3 x 3 image. *)
Lemma impl_olbp_codes_witness :
  exists dst,
    impl_olbp (Mat_of_int_rows 3 [[9; 1; 5]; [4; 5; 6]; [7; 5; 2]]%Z)
      = Ok dst /\
    rows dst =
      rows (Mat_of_int_rows 3 [[9; 1; 5]; [4; 5; 6]; [7; 5; 2]]%Z) - 2 /\
    cols dst =
      cols (Mat_of_int_rows 3 [[9; 1; 5]; [4; 5; 6]; [7; 5; 2]]%Z) - 2 /\
    forall r c, r < rows dst -> c < cols dst ->
      (0 <= mat_at dst r c <= 255)%Z /\
      forall k, k < 8 ->
        Z.testbit (mat_at dst r c) (Z.of_nat k) =
        (neighbour (Mat_of_int_rows 3 [[9; 1; 5]; [4; 5; 6]; [7; 5; 2]]%Z)
           (r + 1) (c + 1) k
         >=? mat_at (Mat_of_int_rows 3 [[9; 1; 5]; [4; 5; 6]; [7; 5; 2]]%Z)
               (r + 1) (c + 1))%Z.
Proof.
  apply (@impl_olbp_codes
           (Mat_of_int_rows 3 [[9; 1; 5]; [4; 5; 6]; [7; 5; 2]]%Z));
    cbn; lia.
Defined.

(** X30: the patterns do not change under a monotonic change of the grey
    scale: for every strictly increasing [f], [impl::olbp] returns on the
    image with every value sent through [f] what it returns on the image
    itself, and throws when it throws there. *)
Theorem impl_olbp_monotone_invariant (f : Z -> Z) (src : Mat Z) :
  (forall a b : Z, (a < b)%Z -> (f a < f b)%Z) ->
  impl_olbp (map_cells f src) = impl_olbp src.
Proof.
  intros Hf. unfold impl_olbp. cbn [map_cells rows cols].
  destruct ((rows src <? 2) || (cols src <? 2)); [reflexivity|].
  cbn zeta. f_equal.
  apply fold_left_pointwise. intros dst i.
  apply fold_left_pointwise. intros dst' j. f_equal.
  unfold olbp_code. cbn [map_cells mat_at].
  now rewrite !(geb_monotone _ _ _ Hf).
Qed.

(** X30 on a 3 x 3 image, every grey value doubled and raised by 10. *)
Lemma impl_olbp_monotone_invariant_witness :
  impl_olbp (map_cells (fun z => (2 * z + 10)%Z)
               (Mat_of_int_rows 3 [[9; 1; 5]; [4; 5; 6]; [7; 5; 2]]%Z))
  = impl_olbp (Mat_of_int_rows 3 [[9; 1; 5]; [4; 5; 6]; [7; 5; 2]]%Z).
Proof.
  apply (@impl_olbp_monotone_invariant (fun z => (2 * z + 10)%Z)
           (Mat_of_int_rows 3 [[9; 1; 5]; [4; 5; 6]; [7; 5; 2]]%Z)).
  intros a b Hab. lia.
Defined.

(** The code of the centre of that image: the neighbours 9, 5, 6, 5 and
    7 are at least 5. *)
Example impl_olbp_sample :
  cells_int (impl_olbp (Mat_of_int_rows 3 [[9; 1; 5]; [4; 5; 6]; [7; 5; 2]]%Z))
  = Ok [[182%Z]].
Proof. vm_compute. reflexivity. Qed.
